(** * gsaca-double-sort: packed indices, flag policies, the virtual-sentinel
      views and the parallel-for-lce driver, embedded from the C++ sources

    - [uint_types.hpp]: [UIntPair<High>] (uint40_t / uint48_t) and the
      flag policies [flag_type_bitset] / [flag_type_none];
    - [wrappers.hpp]: [text_type] and [sa_type];
    - [parallel-for-lce/gsaca-ds-par.hpp]: [sort_by_prefix_parallel],
      [gsaca_for_lce_wrapped] and [gsaca_for_lce].

    Machine integers are [Z] with the wrap-around written out; arrays are
    lists read and written by index, an access outside the array being an
    explicit error. *)

From Stdlib Require Import ZArith Lia Bool List Sorted.
From stdpp Require Import base list.
Import ListNotations.

Local Open Scope Z_scope.

(** ** Fixed-width unsigned arithmetic *)

(** Conversion of a mathematical value to an unsigned type of [w] bits. *)
Definition wrap (w : Z) (z : Z) : Z := z mod 2 ^ w.

Definition wrap64 (z : Z) : Z := wrap 64 z.

(** Reinterpretation of a [w]-bit unsigned value as the signed type of the
    same width ([std::make_signed]). *)
Definition to_signed (w : Z) (z : Z) : Z :=
  if z <? 2 ^ (w - 1) then z else z - 2 ^ w.

(** Width in which C++ evaluates an arithmetic expression over an unsigned
    operand of [w] bits: operands narrower than [int] are promoted to
    [int]. *)
Definition arith_bits (w : Z) : Z := if w <? 32 then 32 else w.

(** The plain unsigned integer types of the language. *)
Inductive uint_type : Type := U8 | U16 | U32 | U64.

Definition bits_of (T : uint_type) : Z :=
  match T with U8 => 8 | U16 => 16 | U32 => 32 | U64 => 64 end.

Definition in_range (w : Z) (z : Z) : Prop := 0 <= z < 2 ^ w.

(** Outcome of code that carries an [assert]: a value, or the assertion
    fired. *)
Inductive outcome (A : Type) : Type :=
| Value (a : A)
| AssertionFailure.
Arguments Value {A} a.
Arguments AssertionFailure {A}.

(** ** [UIntPair<High>] *)

Module UIntPair.

(** The two instantiations of [High]: [uint8_t] (uint40_t) and [uint16_t]
  (uint48_t). *)
Inductive high_type : Type := High8 | High16.

Record t : Type := mk { low_ : Z; high_ : Z }.

Section Packed.
Variable H : high_type.

Definition low_bits : Z := 32.
Definition high_bits : Z := match H with High8 => 8 | High16 => 16 end.
Definition digits : Z := low_bits + high_bits.

Definition low_max : Z := 2 ^ low_bits - 1.
Definition high_max : Z := 2 ^ high_bits - 1.

Definition to_Low (z : Z) : Z := wrap low_bits z.
Definition to_High (z : Z) : Z := wrap high_bits z.

(** Values that the two members can hold. *)
Definition valid (x : t) : Prop :=
in_range low_bits (low_ x) /\ in_range high_bits (high_ x).

(** [UIntPair(const unsigned long long &a)]: the member initialisers. *)
Definition of_ull_parts (a : Z) : t :=
mk (to_Low (Z.land a low_max))
   (to_High (Z.land (Z.shiftr a low_bits) high_max)).

(** The same constructor with its [assert] on the bits above [digits]. *)
Definition of_ull (a : Z) : outcome t :=
if Z.shiftr a (low_bits + high_bits) =? 0
then Value (of_ull_parts a)
else AssertionFailure.

(** [ull()] and [u64()] have the same body. *)
Definition ull (x : t) : Z :=
Z.lor (wrap64 (Z.shiftl (high_ x) low_bits)) (low_ x).

Definition u64 (x : t) : Z :=
Z.lor (wrap64 (Z.shiftl (high_ x) low_bits)) (low_ x).

(** [operator++()] *)
Definition incr (x : t) : t :=
if low_ x =? low_max
then mk 0 (to_High (high_ x + 1))
else mk (to_Low (low_ x + 1)) (high_ x).

(** [operator--()] *)
Definition decr (x : t) : t :=
if low_ x =? 0
then mk (to_Low low_max) (to_High (high_ x - 1))
else mk (to_Low (low_ x - 1)) (high_ x).

(** [operator+]: built with the two-part constructor, which has no
  [assert]. *)
Definition add (x b : t) : outcome t :=
let add := wrap64 (low_ x + wrap64 (low_ b)) in
Value (mk (to_Low (Z.land add low_max))
          (to_High (wrap64 (high_ x + high_ b
                            + Z.land (Z.shiftr add low_bits) high_max)))).

(** [operator-] *)
Definition sub (x b : t) : outcome t :=
let sub := wrap64 (low_ x - wrap64 (low_ b)) in
Value (mk (to_Low (Z.land sub low_max))
          (to_High (wrap64 (wrap64 (high_ x - high_ b)
                            + Z.land (Z.shiftr sub low_bits) high_max)))).

Definition eqb (x b : t) : bool :=
(low_ x =? low_ b) && (high_ x =? high_ b).
Definition neb (x b : t) : bool :=
negb (low_ x =? low_ b) || negb (high_ x =? high_ b).
Definition ltb (x b : t) : bool :=
(high_ x <? high_ b) || ((high_ x =? high_ b) && (low_ x <? low_ b)).
Definition leb (x b : t) : bool :=
(high_ x <? high_ b) || ((high_ x =? high_ b) && (low_ x <=? low_ b)).
Definition gtb (x b : t) : bool :=
(high_ x >? high_ b) || ((high_ x =? high_ b) && (low_ x >? low_ b)).
Definition geb (x b : t) : bool :=
(high_ x >? high_ b) || ((high_ x =? high_ b) && (low_ x >=? low_ b)).

(** [min()] and [max()] *)
Definition min : t := mk 0 0.
Definition max : t := mk low_max high_max.

(** Reference semantics of the class comment: widen to 64 bits, compute
  there, narrow back to the packed width. *)
Definition narrow (z : Z) : t := of_ull_parts (wrap64 z).
Definition incr_widened (x : t) : t := narrow (ull x + 1).
Definition decr_widened (x : t) : t := narrow (ull x - 1).

(** [UIntPair(const uint32_t &a)] *)
Definition of_uint32 (a : Z) : t := mk (to_Low a) (to_High 0).

(** [UIntPair(const int32_t &a)]: a negative value fills the higher part
    with ones. *)
Definition of_int32 (a : Z) : t :=
  if a >=? 0 then mk (to_Low a) (to_High 0)
  else mk (to_Low a) (to_High high_max).

(** [UIntPair(const uint64_t &a)] and [UIntPair(const int64_t &a)]: both
    delegate to the constructor from [unsigned long long] after a
    [static_cast]. *)
Definition of_uint64 (a : Z) : outcome t := of_ull (wrap64 a).
Definition of_int64 (a : Z) : outcome t := of_ull (wrap64 a).

(** [operator++(int)] and [operator--(int)]: the returned copy, then the
    object after the call. *)
Definition post_incr (x : t) : t * t :=
  (x, if low_ x =? low_max
      then mk 0 (to_High (high_ x + 1))
      else mk (to_Low (low_ x + 1)) (high_ x)).

Definition post_decr (x : t) : t * t :=
  (x, if low_ x =? 0
      then mk (to_Low low_max) (to_High (high_ x - 1))
      else mk (to_Low (low_ x - 1)) (high_ x)).

(** [operator>>=(uint8_t const &shift)]: [*this = *this >> shift], the
    shift being the built-in one on the value converted to [uint64_t], and
    the assignment going through the constructor from [uint64_t]. A shift
    count of 64 or more is undefined and not modelled. *)
Definition shr_assign (x : t) (shift : Z) : outcome t :=
  of_uint64 (Z.shiftr (ull x) shift).

End Packed.
End UIntPair.

(** ** Flag policies *)

(** [flag_type_bitset] on a plain unsigned type [T]. Expressions over
    [uint8_t] and [uint16_t] operands are evaluated in [int] and converted
    back to [T] by the [return]. *)
Module flag_type_bitset.

Definition add_flag (T : uint_type) (t : Z) : Z :=
  let w := bits_of T in
  let mask := wrap w (wrap (arith_bits w) (Z.shiftl 1 (w - 1))) in
  wrap w (Z.lor t mask).

Definition conditional_add_flag (T : uint_type) (b : bool) (t : Z) : Z :=
  let w := bits_of T in
  let shift := w - 1 in
  wrap w (Z.lor t (wrap (arith_bits w) (Z.shiftl (Z.b2z b) shift))).

Definition remove_flag (T : uint_type) (t : Z) : Z :=
  let w := bits_of T in
  wrap w (Z.shiftr (wrap (arith_bits w) (Z.shiftl t 1)) 1).

Definition is_flagged (T : uint_type) (t : Z) : bool :=
  to_signed (bits_of T) t <? 0.

(** The overloads for [UIntPair<H>]: they work on [high_] with compound
    assignments, each of which converts back to [H]. *)
Section Pair.
Variable H : UIntPair.high_type.
Let hb := UIntPair.high_bits H.

Definition add_flag_pair (t : UIntPair.t) : UIntPair.t :=
  let mask := wrap hb (wrap (arith_bits hb) (Z.shiftl 1 (hb - 1))) in
  UIntPair.mk (UIntPair.low_ t) (wrap hb (Z.lor (UIntPair.high_ t) mask)).

Definition conditional_add_flag_pair (b : bool) (t : UIntPair.t)
  : UIntPair.t :=
  let shift := hb - 1 in
  UIntPair.mk (UIntPair.low_ t)
    (wrap hb (Z.lor (UIntPair.high_ t)
                    (wrap (arith_bits hb) (Z.shiftl (Z.b2z b) shift)))).

Definition is_flagged_pair (t : UIntPair.t) : bool :=
  to_signed hb (UIntPair.high_ t) <? 0.
End Pair.

(** [remove_flag] on a packed index, [(t.high_ <<= 1) >>= 1]: the second
    compound assignment takes the result of the first, the member [high_]
    of the packed struct, by reference. For the two-byte [High] of uint48_t
    the compiler rejects this (a packed field does not bind to
    [unsigned short&]), so the overload instantiates for uint40_t only and
    is embedded at [UIntPair<uint8_t>]. Each compound assignment converts
    back to [uint8_t]. *)
Definition remove_flag_pair (t : UIntPair.t) : UIntPair.t :=
  let hb := UIntPair.high_bits UIntPair.High8 in
  let high1 := wrap hb (wrap (arith_bits hb) (Z.shiftl (UIntPair.high_ t) 1)) in
  UIntPair.mk (UIntPair.low_ t) (wrap hb (Z.shiftr high1 1)).

End flag_type_bitset.

(** [flag_type_none]: every operation is the identity, nothing is flagged. *)
Module flag_type_none.
Definition add_flag (T : uint_type) (t : Z) : Z := t.
Definition conditional_add_flag (T : uint_type) (b : bool) (t : Z) : Z := t.
Definition remove_flag (T : uint_type) (t : Z) : Z := t.
Definition is_flagged (T : uint_type) (t : Z) : bool := false.
End flag_type_none.

(** [flag_type<use_flags>] selects the policy at compile time. *)
Inductive flag_policy : Type := Bitset | NoFlags.

Definition flag_type (use_flags : bool) : flag_policy :=
  if use_flags then Bitset else NoFlags.

Definition F_conditional_add_flag (F : flag_policy) (T : uint_type)
  (b : bool) (t : Z) : Z :=
  match F with
  | Bitset => flag_type_bitset.conditional_add_flag T b t
  | NoFlags => flag_type_none.conditional_add_flag T b t
  end.

Definition F_remove_flag (F : flag_policy) (T : uint_type) (t : Z) : Z :=
  match F with
  | Bitset => flag_type_bitset.remove_flag T t
  | NoFlags => flag_type_none.remove_flag T t
  end.

Definition F_is_flagged (F : flag_policy) (T : uint_type) (t : Z) : bool :=
  match F with
  | Bitset => flag_type_bitset.is_flagged T t
  | NoFlags => flag_type_none.is_flagged T t
  end.

(** ** The views of [wrappers.hpp] *)

(** [text_type<value_type>]: [t_n] is the adjusted length (text length + 2),
    [t_text] the caller's symbols. Reading [t_text] outside its bounds is
    [None]. The result type is [uint128_t]. *)
Record text_type : Type := { t_n : Z; t_text : list Z }.

Definition text_at (tx : text_type) (i : Z) : option Z :=
  if (0 <? i) && (i <? wrap64 (t_n tx - 1))
  then c ← t_text tx !! Z.to_nat (i - 1); Some (wrap 128 (wrap 128 c + 1))
  else Some 0.

(** [sa_type<index_type>]: [sa_n] is the adjusted length, [sa] the caller's
    buffer and [sa01] the two side slots, zero-initialised. *)
Record sa_type : Type := { sa_n : Z; sa : list Z; sa01 : Z * Z }.

Definition sa_get (s : sa_type) (i : Z) : option Z :=
  if 1 <? i then sa s !! Z.to_nat (i - 2)
  else Some (if i =? 0 then fst (sa01 s) else snd (sa01 s)).

Definition sa_set (s : sa_type) (i : Z) (v : Z) : option sa_type :=
  if 1 <? i then
    if (Z.to_nat (i - 2) <? length (sa s))%nat
    then Some {| sa_n := sa_n s; sa := <[Z.to_nat (i - 2) := v]> (sa s);
                 sa01 := sa01 s |}
    else None
  else Some {| sa_n := sa_n s; sa := sa s;
               sa01 := if i =? 0 then (v, snd (sa01 s)) else (fst (sa01 s), v) |}.

(** ** [for] loops over a counter *)

Fixpoint for_loop {S : Type} (k : nat) (i : Z) (body : Z -> S -> option S)
  (s : S) : option S :=
  match k with
  | O => Some s
  | Datatypes.S k' => s' ← body i s; for_loop k' (i + 1) body s'
  end.

(** [for (i = lo; i < hi; ++i) body] *)
Definition for_range {S : Type} (lo hi : Z) (body : Z -> S -> option S)
  (s : S) : option S :=
  for_loop (Z.to_nat (hi - lo)) lo body s.

(** ** Phase 0: [sort_by_prefix_parallel] *)

(** Modelled from the spec: [p1_group_type], the element type of
    [phase_1_stack_type] ([phase_1.hpp] is not among the sources). The spec
    gives a group as (left border offset, size, shared rank/depth, sorted
    flag, final flag), the order of the initialiser
    [p1_group_type{left_border, gsize, 1, true, false}]. *)
Record p1_group_type : Type := {
  g_left_border : Z; g_size : Z; g_rank : Z; g_sorted : bool; g_final : bool
}.

(** Modelled from the spec: [ips4o::parallel::sort] ([ips4o/] is not among
    the sources), an ordering of a range by a supplied less-than predicate.
    [comp] may read the text and so may fail. *)
Fixpoint insert_by (comp : Z -> Z -> option bool) (x : Z) (l : list Z)
  : option (list Z) :=
  match l with
  | [] => Some [x]
  | y :: l' =>
      b ← comp y x;
      if b : bool then r ← insert_by comp x l'; Some (y :: r)
      else Some (x :: y :: l')
  end.

Fixpoint sort_by (comp : Z -> Z -> option bool) (l : list Z)
  : option (list Z) :=
  match l with
  | [] => Some []
  | x :: l' => r ← sort_by comp l'; insert_by comp x r
  end.

(** [get_count_type<index_type, buffer_type>] with the automatic buffer type
    (uint40_t for a 64-bit index type, the index type otherwise): 64 bits
    when both are wider than 4 bytes, 32 bits otherwise. *)
Definition count_bits (T : uint_type) : Z :=
  match T with U64 => 64 | _ => 32 end.

Section Phase0.
Variable F : flag_policy.
Variable T : uint_type.            (* index_type *)

Let w := bits_of T.
Let cb := count_bits T.

(** The lambda [comp] *)
Definition comp (text : text_type) (a b : Z) : option bool :=
  extracted1 ← text_at text (wrap64 a);
  extracted2 ← text_at text (wrap64 b);
  Some ((extracted1 <? extracted2) || ((extracted1 =? extracted2) && (a <? b))).

(** The call of the sort on [&sa.sa[0], &sa.sa[n - 2]) *)
Definition sort_range (text : text_type) (s : sa_type) (len : Z)
  : option sa_type :=
  let k := Z.to_nat len in
  if (k <=? length (sa s))%nat then
    sorted ← sort_by (comp text) (take k (sa s));
    Some {| sa_n := sa_n s; sa := sorted ++ drop k (sa s); sa01 := sa01 s |}
  else None.

(** State of the loop that determines the group sizes. *)
Record gsize_state : Type := {
  left_border : Z; gsize : Z; result : list p1_group_type
}.

Definition new_group (left_border gsize : Z) : p1_group_type :=
  {| g_left_border := left_border; g_size := gsize; g_rank := 1;
     g_sorted := true; g_final := false |}.

Definition gsize_body (text : text_type) (s : sa_type) (i : Z)
  (st : gsize_state) : option gsize_state :=
  a ← sa_get s i;
  b ← sa_get s (wrap cb (i + 1));
  ta ← text_at text (wrap64 a);
  tb ← text_at text (wrap64 b);
  if ta =? tb
  then Some {| left_border := left_border st;
               gsize := wrap cb (gsize st + 1);
               result := result st |}
  else Some {| left_border := wrap cb (i + 1);
               gsize := 1;
               result := result st ++ [new_group (left_border st) (gsize st)] |}.

Definition flag_body (text : text_type) (i : Z) (s : sa_type)
  : option sa_type :=
  idx ← sa_get s i;
  if negb (idx =? 0) then
    prev ← text_at text (wrap64 (wrap (arith_bits w) (idx - 1)));
    own ← text_at text (wrap64 idx);
    sa_set s i (F_conditional_add_flag F T (prev <? own) idx)
  else sa_set s i idx.

Definition sort_by_prefix_parallel (text : text_type) (s : sa_type)
  : option (sa_type * list p1_group_type) :=
  let n := wrap cb (t_n text) in
  (* fill sa with values *)
  s ← sa_set s 0 0;
  s ← sa_set s 1 (wrap w (wrap cb (n - 1)));
  s ← for_range 1 (wrap cb (n - 1))
        (fun i s => sa_set s (wrap cb (i + 1)) (wrap w i)) s;
  (* sort sa by first character *)
  s ← sort_range text s (wrap cb (n - 2));
  (* determine gsizes *)
  st ← for_range 2 (wrap cb (n - 1)) (gsize_body text s)
         {| left_border := 2; gsize := 1; result := [] |};
  let result := result st ++ [new_group (left_border st) (gsize st)] in
  (* add flags *)
  s ← for_range 0 n (flag_body text) s;
  s ← sa_set s 0 (wrap w (wrap cb (n - 1)));
  s ← sa_set s 1 0;
  Some (s, result).
End Phase0.

(** ** Suffix order through the text view *)

(** The symbol the view yields at [i]; the read never leaves the text when
    [t_n] is the text length plus 2. *)
Definition text_sym (tx : text_type) (i : Z) : Z :=
  match text_at tx i with Some c => c | None => 0 end.

Fixpoint zrange (k : nat) (lo : Z) : list Z :=
  match k with
  | O => []
  | Datatypes.S k' => lo :: zrange k' (lo + 1)
  end.

(** The suffix starting at logical position [p]: the view's symbols from [p]
    to the closing sentinel at [t_n - 1]. *)
Definition view_suffix (tx : text_type) (p : Z) : list Z :=
  map (text_sym tx) (zrange (Z.to_nat (t_n tx - p)) p).

(** Lexicographic order on symbol sequences; a proper prefix is smaller. *)
Fixpoint lex_leb (a b : list Z) : bool :=
  match a, b with
  | [], _ => true
  | _ :: _, [] => false
  | x :: a', y :: b' => (x <? y) || ((x =? y) && lex_leb a' b')
  end.


Definition suffix_leb (tx : text_type) (p q : Z) : bool :=
  lex_leb (view_suffix tx p) (view_suffix tx q).


Fixpoint insert_leb (leb : Z -> Z -> bool) (x : Z) (l : list Z) : list Z :=
  match l with
  | [] => [x]
  | y :: l' => if leb x y then x :: y :: l' else y :: insert_leb leb x l'
  end.

Fixpoint isort (leb : Z -> Z -> bool) (l : list Z) : list Z :=
  match l with
  | [] => []
  | x :: l' => insert_leb leb x (isort leb l')
  end.

(** ** The driver: [gsaca_for_lce_wrapped] and [gsaca_for_lce] *)

(** The rank table [isa], [malloc(n * sizeof(used_buffer_type))]: [n]
    entries that start uninitialised ([None]). Reading outside the table or
    an uninitialised entry, and writing outside the table, are errors. *)
Definition isa_get (isa : list (option Z)) (p : Z) : option Z :=
  if 0 <=? p then r ← isa !! Z.to_nat p; r else None.

Definition isa_set (isa : list (option Z)) (p v : Z)
  : option (list (option Z)) :=
  if (0 <=? p) && (Z.to_nat p <? length isa)%nat
  then Some (<[Z.to_nat p := Some v]> isa)
  else None.

(** [used_buffer_type], the entry type of the rank table, with the
    automatic buffer type: uint40_t for a 64-bit index type, the index type
    otherwise. *)
Definition buffer_bits (T : uint_type) : Z :=
  match T with U64 => 40 | _ => bits_of T end.

(** A loop over the elements of a list. *)
Fixpoint fold_opt {A S : Type} (body : S -> A -> option S) (l : list A)
  (s : S) : option S :=
  match l with
  | [] => Some s
  | a :: l' => s' ← body s a; fold_opt body l' s'
  end.

(** Modelled from the spec: the order of two members [i], [j] of a group
    ([phase_1.hpp] is not among the sources). Spec 4.2: "if suffix i and
    suffix j share a leading-symbol group, their relative order equals the
    relative order of suffixes i+1 and j+1, which is already known to at
    least group-level precision"; where the ranks of [i+1] and [j+1]
    coincide, these two share a group and the rule applies to them in
    turn. The result is whether [i] comes strictly before [j]. *)
Fixpoint induced_ltb (isa : list (option Z)) (fuel : nat) (i j : Z) : option bool :=
  if i =? j then Some false
  else
    match fuel with
    | O => None
    | Datatypes.S fuel' =>
        ri ← isa_get isa (i + 1);
        rj ← isa_get isa (j + 1);
        if ri <? rj then Some true
        else if rj <? ri then Some false
        else induced_ltb isa fuel' (i + 1) (j + 1)
    end.

Section Driver.
Variable T : uint_type.            (* index_type *)
Let w := bits_of T.
Let bb := buffer_bits T.

(** Modelled from the spec: the members of a group are the entries of its
    [k] slots from [i] on, read through [operator[]] of [sa_type], flags
    stripped. *)
Fixpoint read_slots (F : flag_policy) (s : sa_type) (k : nat) (i : Z)
  : option (list Z) :=
  match k with
  | O => Some []
  | Datatypes.S k' =>
      e ← sa_get s i;
      l ← read_slots F s k' (i + 1);
      Some (F_remove_flag F T e :: l)
  end.

Fixpoint write_slots (s : sa_type) (i : Z) (l : list Z) : option sa_type :=
  match l with
  | [] => Some s
  | v :: l' => s' ← sa_set s i v; write_slots s' (i + 1) l'
  end.

(** Modelled from the spec: the initial rank table. Spec 3: a position's
    rank is "initially its group's shared rank; finally its exact final
    position", and "for two suffixes whose relative order has been fixed,
    their rank values reflect that order". The order across groups is
    fixed, so the shared rank of a group is taken to be its left border,
    the first of the final positions of its members; the two sentinel
    suffixes of the side slots have their final ranks 0 and 1. Every
    member of every group handed over is read. Ranks are stored as values
    of [used_buffer_type]. *)
Definition set_ranks (members : list Z) (rank : Z) (isa : list (option Z))
  : option (list (option Z)) :=
  fold_opt (fun isa p => isa_set isa p (wrap bb rank)) members isa.

Definition init_ranks (F : flag_policy) (s : sa_type) (isa : list (option Z))
  (groups : list p1_group_type) : option (list (option Z)) :=
  e0 ← sa_get s 0;
  isa ← set_ranks [F_remove_flag F T e0] 0 isa;
  e1 ← sa_get s 1;
  isa ← set_ranks [F_remove_flag F T e1] 1 isa;
  fold_opt (fun isa g =>
              members ← read_slots F s (Z.to_nat (g_size g)) (g_left_border g);
              set_ranks members (g_left_border g) isa)
           groups isa.

(** Modelled from the spec: the refinement of one group. Its members are
    brought into the induced order by a stable sort and written back to
    the group's own slots; a singleton group is resolved as it stands. *)
Definition resolve_group (F : flag_policy) (isa : list (option Z)) (s : sa_type)
  (g : p1_group_type) : option sa_type :=
  members ← read_slots F s (Z.to_nat (g_size g)) (g_left_border g);
  sorted ← sort_by (induced_ltb isa (Z.to_nat (sa_n s))) members;
  write_slots s (g_left_border g) sorted.

(** Modelled from the spec: [phase_1_by_sorting_parallel_for_lce] followed
    by [phase_2_by_sorting_stable_parallel_for_lce] ([phase_1.hpp] and
    [phase_2.hpp] are not among the sources). As in the source, they
    receive the logical array, the rank table and the groups of phase 0,
    and not the text. Spec 3: "total ordering across groups is already
    fixed, only intra-group order is pending"; spec 4.2 and 4.3 refine each
    group by the ranks of its members' successors until every member has
    its final place. Which groups phase 1 resolves itself and which it
    defers to phase 2 is a policy choice in spec 4.2, so the two calls are
    modelled together: the rank table is initialised from the groups, then
    each group is resolved inside its own slots. Nothing outside the groups
    handed over is read or reordered. An access outside the logical array
    or the rank table is [None]. The rank table is freed by the caller;
    its final contents are not modelled. *)
Definition phase_1_2 (F : flag_policy) (s : sa_type) (isa : list (option Z))
  (groups : list p1_group_type) : option sa_type :=
  isa ← init_ranks F s isa groups;
  fold_opt (resolve_group F isa) groups s.

(** The final loop: [--sa[i]] *)
Definition decrement_body (i : Z) (s : sa_type) : option sa_type :=
  v ← sa_get s i; sa_set s i (wrap w (v - 1)).

Definition gsaca_for_lce_wrapped (use_flags : bool) (text : text_type)
  (s : sa_type) : option sa_type :=
  let n := wrap64 (t_n text) in
  let F := flag_type use_flags in
  '(s, p1_input_groups) ← sort_by_prefix_parallel F T text s;
  (* isa = malloc(n * sizeof(used_buffer_type)) *)
  let isa := replicate (Z.to_nat n) None in
  s ← phase_1_2 F s isa p1_input_groups;
  for_range 0 n decrement_body s.

(** [gsaca_for_lce(text, sa, n, threads)]: the result is the caller's
    buffer after the call. *)
Definition gsaca_for_lce (text : list Z) (sa_buf : list Z) (n : Z)
  : option (list Z) :=
  let textprime := {| t_n := wrap64 (n + 2); t_text := text |} in
  let saprime := {| sa_n := wrap64 (n + 2); sa := sa_buf; sa01 := (0, 0) |} in
  s ← gsaca_for_lce_wrapped false textprime saprime;
  Some (sa s).
End Driver.


(** ** Vocabulary of the statements *)

(** The logical array of an [sa_type]: the two side slots, then the caller's
    buffer; [operator[]] indexes it. *)
Definition logical (s : sa_type) : list Z :=
  fst (sa01 s) :: snd (sa01 s) :: sa s.

(** The index value of an entry, without the reserved high bit. *)
Definition index_bits (T : uint_type) (e : Z) : Z :=
  e mod 2 ^ (bits_of T - 1).

(** A text view as [gsaca_for_lce] builds it: the adjusted length is the
    text length plus 2 and did not overflow [size_t]; the symbols are values
    of an unsigned type of at most 64 bits. *)
Definition wf_text (tx : text_type) : Prop :=
  t_n tx = Z.of_nat (length (t_text tx)) + 2 /\
  t_n tx < 2 ^ 64 /\
  Forall (fun c => 0 <= c < 2 ^ 64) (t_text tx).

(** The index type addresses the adjusted length [n]: every position below
    [n] is a value of the type, and [n] is a value of the count type. *)
Definition addressable (T : uint_type) (n : Z) : Prop :=
  n <= 2 ^ bits_of T /\ n < 2 ^ count_bits T.

(** What the flag loop of phase 0 stores for the entry [idx]. *)
Definition flag_entry (F : flag_policy) (T : uint_type) (tx : text_type)
  (idx : Z) : Z :=
  if negb (idx =? 0) then
    F_conditional_add_flag F T
      (text_sym tx (wrap64 (wrap (arith_bits (bits_of T)) (idx - 1)))
       <? text_sym tx (wrap64 idx)) idx
  else idx.

(** A loop body that replaces entry [i] by [g] of it. *)
Definition map_body (g : Z -> Z) (i : Z) (s : sa_type) : option sa_type :=
  v ← sa_get s i; sa_set s i (g v).

(** ** Selection of the buffer and count types ([uint_types.hpp]) *)

(** The types the selection templates range over: the plain unsigned
    types and the two packed ones. *)
Inductive c_type : Type :=
| Plain (T : uint_type)
| Packed (H : UIntPair.high_type).

(** [sizeof]; the packed types are 5 and 6 bytes ([static_assert]s). *)
Definition sizeof (c : c_type) : Z :=
  match c with
  | Plain T => bits_of T / 8
  | Packed UIntPair.High8 => 5
  | Packed UIntPair.High16 => 6
  end.

Definition uint40_t : c_type := Packed UIntPair.High8.
Definition uint48_t : c_type := Packed UIntPair.High16.

(** The [buffer_type] template argument: [auto_buffer_type] or a type. *)
Inductive buffer_choice : Type :=
| auto_buffer_type
| explicit_buffer (c : c_type).

Definition get_buffer_type (buffer_type : buffer_choice) (index_type : c_type)
  : c_type :=
  match buffer_type with
  | auto_buffer_type => if sizeof index_type >? 5 then uint40_t else index_type
  | explicit_buffer c => c
  end.

Definition c_type_eqb (a b : c_type) : bool :=
  match a, b with
  | Plain T1, Plain T2 => bits_of T1 =? bits_of T2
  | Packed H1, Packed H2 => UIntPair.high_bits H1 =? UIntPair.high_bits H2
  | _, _ => false
  end.

Definition check_buffer_type (buffer_type : buffer_choice)
  (index_type used_buffer_type : c_type) : bool :=
  c_type_eqb used_buffer_type (get_buffer_type buffer_type index_type).

(** [sizeof_min<uint_type, uint_types...>()] *)
Fixpoint sizeof_min (c : c_type) (cs : list c_type) : Z :=
  match cs with
  | [] => sizeof c
  | c' :: cs' => Z.min (sizeof c) (sizeof_min c' cs')
  end.

(** [get_count_type<uint_type, uint_types...>] *)
Definition get_count_type (c : c_type) (cs : list c_type) : uint_type :=
  if sizeof_min c cs >? 4 then U64 else U32.

(** ** Vocabulary of the phase-0 statements *)

(** The order the lambda [comp] decides, on the symbols the view yields. *)
Definition comp_ltb (tx : text_type) (a b : Z) : bool :=
  (text_sym tx a <? text_sym tx b)
  || ((text_sym tx a =? text_sym tx b) && (a <? b)).

(** The groups tile the slots from [lo] up to [hi]: each starts where the
    one before ends and has at least one member. *)
Fixpoint tiles (groups : list p1_group_type) (lo hi : Z) : Prop :=
  match groups with
  | [] => lo = hi
  | g :: groups' =>
      g_left_border g = lo /\ 1 <= g_size g /\
      tiles groups' (lo + g_size g) hi
  end.

(** [a] is not after [b] in that order. *)
Definition comp_leb (tx : text_type) (a b : Z) : bool :=
  negb (comp_ltb tx b a).

(** The order as a relation on positions: by leading symbol, ties by
    position. *)
Definition prefix_lt (tx : text_type) (p q : Z) : Prop :=
  text_sym tx p < text_sym tx q \/ (text_sym tx p = text_sym tx q /\ p < q).

(** The position an entry stands for under a flag policy. *)
Definition entry_position (F : flag_policy) (T : uint_type) (e : Z) : Z :=
  match F with
  | Bitset => index_bits T e
  | NoFlags => e
  end.

(** With [flag_type_bitset] the top bit of the index type must be spare. *)
Definition flag_room (F : flag_policy) (T : uint_type) (n : Z) : Prop :=
  match F with
  | Bitset => n <= 2 ^ (bits_of T - 1)
  | NoFlags => True
  end.

(** The leading symbol of the suffix held in logical slot [i]. *)
Definition leading_symbol (F : flag_policy) (T : uint_type) (tx : text_type)
  (s : sa_type) (i : Z) : Z :=
  match sa_get s i with
  | Some e => text_sym tx (entry_position F T e)
  | None => 0
  end.

(** The state in which the group-size loop of phase 0 starts. *)
Definition gsize_start : gsize_state :=
  {| left_border := 2; gsize := 1; result := [] |}.

(** ** Vocabulary of the refinement statements *)

(** The groups [gs] cut the slots from [lo] on, which hold [seg], into runs
    of equal leading symbol, the symbol increasing from each run to the
    next. *)
Fixpoint runs (tx : text_type) (gs : list p1_group_type) (lo : Z)
  (seg : list Z) : Prop :=
  match gs with
  | [] => seg = []
  | g :: gs' =>
      let k := Z.to_nat (g_size g) in
      g_left_border g = lo /\ 1 <= g_size g /\ (k <= length seg)%nat /\
      (forall x y, x ∈ take k seg -> y ∈ take k seg ->
                   text_sym tx x = text_sym tx y) /\
      (forall x y, x ∈ take k seg -> y ∈ drop k seg ->
                   text_sym tx x < text_sym tx y) /\
      runs tx gs' (lo + g_size g) (drop k seg)
  end.

(** The members of each group in the order [leb], every group in its own
    slots. *)
Fixpoint sort_chunks (leb : Z -> Z -> bool) (gs : list p1_group_type)
  (seg : list Z) : list Z :=
  match gs with
  | [] => seg
  | g :: gs' =>
      let k := Z.to_nat (g_size g) in
      isort leb (take k seg) ++ sort_chunks leb gs' (drop k seg)
  end.

(** The suffix at [p] is strictly before the suffix at [q]. *)
Definition suffix_ltb (tx : text_type) (p q : Z) : bool :=
  negb (suffix_leb tx q p).

(** * Properties *)

(** ** Bit operations as arithmetic *)

Ltac pow2 :=
  repeat match goal with
    | |- context [2 ^ ?n] =>
        let v := eval vm_compute in (2 ^ n) in
        progress change (2 ^ n) with v
    | H : context [2 ^ ?n] |- _ =>
        let v := eval vm_compute in (2 ^ n) in
        progress change (2 ^ n) with v in H
    end.

Lemma land_mask (n a : Z) : 0 <= n -> Z.land a (2 ^ n - 1) = a mod 2 ^ n.
Proof.
  intros Hn. rewrite <- Z.land_ones by assumption.
  now rewrite Z.ones_equiv, <- Z.sub_1_r.
Qed.

Lemma lor_disjoint (n h l : Z) :
  0 <= n -> 0 <= l < 2 ^ n -> Z.lor (h * 2 ^ n) l = h * 2 ^ n + l.
Proof.
  intros Hn Hl.
  assert (Hz : Z.land (h * 2 ^ n) l = 0).
  { apply Z.bits_inj'. intros i Hi.
    rewrite Z.land_spec, Z.bits_0.
    destruct (Z.lt_ge_cases i n) as [Hlt | Hge].
    - now rewrite Z.mul_pow2_bits_low.
    - destruct (Z.eq_dec l 0) as [-> | Hne].
      + now rewrite Z.bits_0, andb_false_r.
      + rewrite (Z.bits_above_log2 l i), andb_false_r; [reflexivity | lia |].
        apply Z.lt_le_trans with n; [| assumption].
        apply Z.log2_lt_pow2; lia. }
  rewrite Z.add_nocarry_lxor by assumption.
  now rewrite Z.lxor_lor.
Qed.

Lemma wrap_small (w z : Z) : 0 <= z < 2 ^ w -> wrap w z = z.
Proof. intros. now apply Z.mod_small. Qed.

Lemma wrap_range (w z : Z) : 0 <= w -> 0 <= wrap w z < 2 ^ w.
Proof. intros. apply Z.mod_pos_bound. now apply Z.pow_pos_nonneg. Qed.

Lemma bits_of_pos (T : uint_type) : 8 <= bits_of T <= 64.
Proof. destruct T; simpl; lia. Qed.

(** ** [UIntPair]: widening and narrowing *)

Section PackedFacts.
Import UIntPair.
Variable H : high_type.

Lemma ull_eq (x : t) :
  valid H x -> ull x = high_ x * 2 ^ 32 + low_ x.
Proof.
  intros [Hl Hh]. unfold ull, wrap64, low_bits in *.
  rewrite Z.shiftl_mul_pow2 by lia.
  assert (Hhb : 2 ^ high_bits H <= 2 ^ 16)
    by (destruct H; vm_compute; discriminate).
  unfold in_range in *.
  rewrite wrap_small by (pow2; lia).
  apply lor_disjoint; lia.
Qed.

Lemma u64_ull (x : t) : u64 x = ull x.
Proof. reflexivity. Qed.

Lemma of_ull_parts_eq (a : Z) :
  of_ull_parts H a = mk (a mod 2 ^ 32) ((a / 2 ^ 32) mod 2 ^ high_bits H).
Proof.
  unfold of_ull_parts, to_Low, to_High, low_max, high_max, low_bits, wrap.
  assert (0 <= high_bits H) by (destruct H; simpl; lia).
  rewrite !land_mask by lia.
  rewrite Z.shiftr_div_pow2 by lia.
  now rewrite !Z.mod_mod by (apply Z.pow_nonzero; lia).
Qed.

Lemma of_ull_parts_valid (a : Z) : valid H (of_ull_parts H a).
Proof.
  rewrite of_ull_parts_eq. split; unfold in_range; simpl.
  - apply Z.mod_pos_bound. reflexivity.
  - apply Z.mod_pos_bound. destruct H; reflexivity.
Qed.

Lemma of_ull_parts_ull (a : Z) :
  0 <= a -> ull (of_ull_parts H a) = a mod 2 ^ digits H.
Proof.
  intros Ha. rewrite ull_eq by apply of_ull_parts_valid.
  rewrite of_ull_parts_eq. simpl.
  unfold digits, low_bits. destruct H; simpl high_bits; pow2;
    Z.div_mod_to_equations; lia.
Qed.

Lemma of_ull_value (a : Z) :
  0 <= a < 2 ^ digits H -> of_ull H a = Value (of_ull_parts H a).
Proof.
  intros Ha. unfold of_ull.
  replace (Z.shiftr a (low_bits + high_bits H)) with 0; [reflexivity |].
  rewrite Z.shiftr_div_pow2 by (unfold low_bits; destruct H; simpl; lia).
  symmetry. apply Z.div_small. exact Ha.
Qed.

Lemma of_ull_assert (a : Z) :
  2 ^ digits H <= a -> of_ull H a = AssertionFailure.
Proof.
  intros Ha. unfold of_ull.
  rewrite Z.shiftr_div_pow2 by (unfold low_bits; destruct H; simpl; lia).
  fold (digits H).
  assert (0 < 2 ^ digits H) by (destruct H; reflexivity).
  assert (0 < a / 2 ^ digits H) by (apply Z.div_str_pos; lia).
  destruct (Z.eqb_spec (a / 2 ^ digits H) 0); [lia | reflexivity].
Qed.
End PackedFacts.

Section PackedArith.
Import UIntPair.
Variable H : high_type.

Ltac unpack :=
  unfold valid, in_range, digits, to_Low, to_High, low_max, high_max,
    low_bits, wrap64, wrap in *;
  destruct H; simpl high_bits in *; pow2.

Lemma incr_refines (x : t) : valid H x -> incr H x = incr_widened H x.
Proof.
  intros Hv. unfold incr_widened, narrow.
  rewrite of_ull_parts_eq, (ull_eq H x Hv). unfold incr.
  destruct Hv as [Hl Hh].
  destruct (Z.eqb_spec (low_ x) low_max) as [He | Hne]; unpack;
    f_equal; Z.div_mod_to_equations; lia.
Qed.

Lemma decr_refines (x : t) : valid H x -> decr H x = decr_widened H x.
Proof.
  intros Hv. unfold decr_widened, narrow.
  rewrite of_ull_parts_eq, (ull_eq H x Hv). unfold decr.
  destruct Hv as [Hl Hh].
  destruct (Z.eqb_spec (low_ x) 0) as [He | Hne]; unpack;
    f_equal; Z.div_mod_to_equations; lia.
Qed.

Lemma narrow_ull (z : Z) : ull (narrow H z) = z mod 2 ^ digits H.
Proof.
  unfold narrow. rewrite of_ull_parts_ull.
  - unfold wrap64, wrap, digits, low_bits.
    destruct H; simpl high_bits; pow2; Z.div_mod_to_equations; lia.
  - apply wrap_range. lia.
Qed.

Lemma compare_refines (x y : t) :
  valid H x -> valid H y ->
  eqb x y = (ull x =? ull y) /\
  neb x y = negb (ull x =? ull y) /\
  ltb x y = (ull x <? ull y) /\
  leb x y = (ull x <=? ull y) /\
  gtb x y = (ull x >? ull y) /\
  geb x y = (ull x >=? ull y).
Proof.
  intros Hx Hy. rewrite (ull_eq H x Hx), (ull_eq H y Hy).
  destruct Hx as [Hxl Hxh], Hy as [Hyl Hyh].
  unfold eqb, neb, ltb, leb, gtb, geb, Z.gtb, Z.geb.
  unpack;
  repeat split;
    repeat match goal with
      | |- context [?a =? ?b] => destruct (Z.eqb_spec a b)
      | |- context [?a <? ?b] => destruct (Z.ltb_spec a b)
      | |- context [?a <=? ?b] => destruct (Z.leb_spec a b)
      | |- context [?a ?= ?b] => destruct (Z.compare_spec a b)
      end; simpl; try reflexivity; lia.
Qed.

Lemma add_wraps (x y : t) :
  valid H x -> valid H y ->
  exists r, add H x y = Value r /\ valid H r /\
            ull r = (ull x + ull y) mod 2 ^ digits H.
Proof.
  intros Hx Hy. eexists. split; [reflexivity |].
  assert (Hr : forall a b, valid H (mk (to_Low a) (to_High H b))).
  { intros a b. split; apply wrap_range; unfold low_bits;
      destruct H; simpl; lia. }
  split; [apply Hr |].
  rewrite (ull_eq H _ (Hr _ _)), (ull_eq H x Hx), (ull_eq H y Hy).
  destruct Hx as [Hxl Hxh], Hy as [Hyl Hyh]. simpl.
  assert (0 <= high_bits H) by (destruct H; simpl; lia).
  unfold low_max, high_max, low_bits.
  rewrite !land_mask by lia. rewrite Z.shiftr_div_pow2 by lia.
  unpack; Z.div_mod_to_equations; lia.
Qed.

Lemma sub_wraps (x y : t) :
  valid H x -> valid H y ->
  exists r, sub H x y = Value r /\ valid H r /\
            ull r = (ull x - ull y) mod 2 ^ digits H.
Proof.
  intros Hx Hy. eexists. split; [reflexivity |].
  assert (Hr : forall a b, valid H (mk (to_Low a) (to_High H b))).
  { intros a b. split; apply wrap_range; unfold low_bits;
      destruct H; simpl; lia. }
  split; [apply Hr |].
  rewrite (ull_eq H _ (Hr _ _)), (ull_eq H x Hx), (ull_eq H y Hy).
  destruct Hx as [Hxl Hxh], Hy as [Hyl Hyh]. simpl.
  assert (0 <= high_bits H) by (destruct H; simpl; lia).
  unfold low_max, high_max, low_bits.
  rewrite !land_mask by lia. rewrite Z.shiftr_div_pow2 by lia.
  unpack; Z.div_mod_to_equations; lia.
Qed.
End PackedArith.

(** ** Claims on [UIntPair] *)

(** C6. Packed-index round trip: a 64-bit value that fits the packed width
    (40 or 48 bits) passes the constructor's assertion, and [ull()] and
    [u64()] of the constructed pair give the value back. The range includes
    0, which is [min()], and [2^digits - 1], which is [max()]. *)
Theorem packed_roundtrip (H : UIntPair.high_type) (a : Z) :
  0 <= a < 2 ^ UIntPair.digits H ->
  (exists x, UIntPair.of_ull H a = Value x /\ UIntPair.valid H x /\
             UIntPair.ull x = a /\ UIntPair.u64 x = a) /\
  UIntPair.of_ull H 0 = Value UIntPair.min /\
  UIntPair.ull UIntPair.min = 0 /\
  UIntPair.of_ull H (2 ^ UIntPair.digits H - 1) = Value (UIntPair.max H) /\
  UIntPair.ull (UIntPair.max H) = 2 ^ UIntPair.digits H - 1.
Proof.
  intros Ha. split.
  - exists (UIntPair.of_ull_parts H a).
    split; [now apply of_ull_value |].
    split; [apply of_ull_parts_valid |].
    assert (Hu : UIntPair.ull (UIntPair.of_ull_parts H a) = a)
      by (rewrite of_ull_parts_ull by lia; apply Z.mod_small; exact Ha).
    split; exact Hu.
  - destruct H; vm_compute; repeat split; reflexivity.
Qed.

(** C8. The part-wise increment, decrement and comparisons agree with the
    reference semantics on the widened 64-bit values: [++x] and [--x] are
    the pairs obtained by widening, adding or subtracting one and narrowing
    to the packed width, and the six comparison operators return what the
    comparison of the widened values returns. *)
Theorem partwise_refines_widened (H : UIntPair.high_type) (x y : UIntPair.t) :
  UIntPair.valid H x -> UIntPair.valid H y ->
  UIntPair.incr H x = UIntPair.incr_widened H x /\
  UIntPair.ull (UIntPair.incr H x)
    = (UIntPair.ull x + 1) mod 2 ^ UIntPair.digits H /\
  UIntPair.decr H x = UIntPair.decr_widened H x /\
  UIntPair.ull (UIntPair.decr H x)
    = (UIntPair.ull x - 1) mod 2 ^ UIntPair.digits H /\
  UIntPair.eqb x y = (UIntPair.ull x =? UIntPair.ull y) /\
  UIntPair.neb x y = negb (UIntPair.ull x =? UIntPair.ull y) /\
  UIntPair.ltb x y = (UIntPair.ull x <? UIntPair.ull y) /\
  UIntPair.leb x y = (UIntPair.ull x <=? UIntPair.ull y) /\
  UIntPair.gtb x y = (UIntPair.ull x >? UIntPair.ull y) /\
  UIntPair.geb x y = (UIntPair.ull x >=? UIntPair.ull y).
Proof.
  intros Hx Hy.
  split; [now apply incr_refines |].
  split; [rewrite incr_refines by assumption; apply narrow_ull |].
  split; [now apply decr_refines |].
  split; [rewrite decr_refines by assumption; apply narrow_ull |].
  now apply (compare_refines H).
Qed.

(** C7, as amended. The packed addition and subtraction never assert: for
    all pairs they return the sum or the difference reduced modulo
    [2^digits]. The only overflow assertion of the class is the one of the
    constructor from a 64-bit value, which fires exactly on values that do
    not fit. *)
Theorem packed_add_sub_wrap (H : UIntPair.high_type) (x y : UIntPair.t) (a : Z) :
  UIntPair.valid H x -> UIntPair.valid H y -> 0 <= a ->
  (exists r, UIntPair.add H x y = Value r /\
             UIntPair.ull r
             = (UIntPair.ull x + UIntPair.ull y) mod 2 ^ UIntPair.digits H) /\
  (exists r, UIntPair.sub H x y = Value r /\
             UIntPair.ull r
             = (UIntPair.ull x - UIntPair.ull y) mod 2 ^ UIntPair.digits H) /\
  (UIntPair.of_ull H a = AssertionFailure <-> 2 ^ UIntPair.digits H <= a).
Proof.
  intros Hx Hy Ha.
  destruct (add_wraps H x y Hx Hy) as (r & Hr & _ & Hu).
  destruct (sub_wraps H x y Hx Hy) as (r' & Hr' & _ & Hu').
  split; [eauto |]. split; [eauto |].
  split.
  - intros Hf. destruct (Z.lt_ge_cases a (2 ^ UIntPair.digits H)); [| assumption].
    rewrite of_ull_value in Hf by lia. discriminate.
  - apply of_ull_assert.
Qed.

(** C7, as stated, fails: the sum of [max()] and one is not representable
    in 40 bits, and [operator+] returns zero without any assertion; so does
    [operator-] on zero minus one, which returns [max()]. *)
Lemma packed_add_overflow_is_silent :
  let one := UIntPair.mk 1 0 in
  UIntPair.valid UIntPair.High8 (UIntPair.max UIntPair.High8) /\
  UIntPair.valid UIntPair.High8 one /\
  2 ^ UIntPair.digits UIntPair.High8
    <= UIntPair.ull (UIntPair.max UIntPair.High8) + UIntPair.ull one /\
  UIntPair.add UIntPair.High8 (UIntPair.max UIntPair.High8) one
    = Value UIntPair.min /\
  UIntPair.add UIntPair.High8 (UIntPair.max UIntPair.High8) one
    <> AssertionFailure /\
  UIntPair.ull UIntPair.min - UIntPair.ull one < 0 /\
  UIntPair.sub UIntPair.High8 UIntPair.min one
    = Value (UIntPair.max UIntPair.High8).
Proof.
  cbv zeta. unfold UIntPair.valid, in_range.
  repeat split; try (vm_compute; congruence).
Qed.

Lemma packed_roundtrip_witness :
  0 <= 1099511627775 < 2 ^ UIntPair.digits UIntPair.High8 /\
  exists x, UIntPair.of_ull UIntPair.High8 1099511627775 = Value x /\
            UIntPair.ull x = 1099511627775.
Proof.
  assert (Hr : 0 <= 1099511627775 < 2 ^ UIntPair.digits UIntPair.High8)
    by (vm_compute; split; congruence).
  split; [exact Hr |].
  destruct (packed_roundtrip UIntPair.High8 1099511627775 Hr)
    as [(x & Hx & _ & Hu & _) _].
  exists x. split; assumption.
Defined.

Lemma partwise_refines_widened_witness :
  let x := UIntPair.mk 4294967295 7 in
  let y := UIntPair.mk 0 8 in
  UIntPair.incr UIntPair.High16 x = UIntPair.incr_widened UIntPair.High16 x /\
  UIntPair.ltb x y = (UIntPair.ull x <? UIntPair.ull y).
Proof.
  cbv zeta.
  assert (Hx : UIntPair.valid UIntPair.High16 (UIntPair.mk 4294967295 7))
    by (vm_compute; repeat split; congruence).
  assert (Hy : UIntPair.valid UIntPair.High16 (UIntPair.mk 0 8))
    by (vm_compute; repeat split; congruence).
  destruct (partwise_refines_widened UIntPair.High16 _ _ Hx Hy)
    as (Hi & _ & _ & _ & _ & _ & Hlt & _).
  split; assumption.
Defined.

Lemma packed_add_sub_wrap_witness :
  exists r, UIntPair.add UIntPair.High8 (UIntPair.max UIntPair.High8)
              (UIntPair.mk 1 0) = Value r /\
            UIntPair.ull r = 0.
Proof.
  assert (Hx : UIntPair.valid UIntPair.High8 (UIntPair.max UIntPair.High8))
    by (vm_compute; repeat split; congruence).
  assert (Hy : UIntPair.valid UIntPair.High8 (UIntPair.mk 1 0))
    by (vm_compute; repeat split; congruence).
  destruct (packed_add_sub_wrap UIntPair.High8 _ _ 0 Hx Hy (Z.le_refl 0))
    as ((r & Hr & Hu) & _).
  exists r. split; [exact Hr |]. rewrite Hu. reflexivity.
Defined.

(** ** Flag policies *)

Section FlagFacts.
Import flag_type_bitset.

Lemma flag_mask (T : uint_type) :
  wrap (bits_of T) (wrap (arith_bits (bits_of T)) (Z.shiftl 1 (bits_of T - 1)))
  = 2 ^ (bits_of T - 1) /\
  wrap (arith_bits (bits_of T)) (Z.shiftl 1 (bits_of T - 1))
  = 2 ^ (bits_of T - 1).
Proof. destruct T; split; reflexivity. Qed.

Lemma conditional_add_flag_true (T : uint_type) (t : Z) :
  conditional_add_flag T true t = add_flag T t.
Proof.
  unfold conditional_add_flag, add_flag. cbn [Z.b2z].
  destruct (flag_mask T) as [-> ->]. reflexivity.
Qed.

Lemma conditional_add_flag_false (T : uint_type) (t : Z) :
  in_range (bits_of T) t -> conditional_add_flag T false t = t.
Proof.
  intros Ht. unfold conditional_add_flag. cbn [Z.b2z].
  rewrite Z.shiftl_0_l.
  replace (wrap (arith_bits (bits_of T)) 0) with 0 by (destruct T; reflexivity).
  rewrite Z.lor_0_r. now apply wrap_small.
Qed.

(** On a value below the flag bit, tagging adds [2^(w-1)]. *)
Lemma add_flag_plus (T : uint_type) (t : Z) :
  0 <= t < 2 ^ (bits_of T - 1) ->
  add_flag T t = t + 2 ^ (bits_of T - 1).
Proof.
  intros Ht. unfold add_flag. cbv zeta.
  destruct (flag_mask T) as [-> _].
  rewrite Z.lor_comm.
  replace (2 ^ (bits_of T - 1)) with (1 * 2 ^ (bits_of T - 1)) at 1 by lia.
  pose proof (bits_of_pos T).
  rewrite lor_disjoint by lia.
  rewrite Z.mul_1_l, Z.add_comm.
  apply wrap_small.
  replace (2 ^ bits_of T) with (2 * 2 ^ (bits_of T - 1)); [lia |].
  rewrite <- Z.pow_succ_r by lia. f_equal. lia.
Qed.

Lemma is_flagged_spec (T : uint_type) (e : Z) :
  in_range (bits_of T) e ->
  is_flagged T e = (2 ^ (bits_of T - 1) <=? e).
Proof.
  unfold is_flagged, to_signed, in_range. intros He.
  destruct (Z.ltb_spec e (2 ^ (bits_of T - 1))).
  - destruct (Z.ltb_spec e 0), (Z.leb_spec (2 ^ (bits_of T - 1)) e);
      try reflexivity; lia.
  - destruct (Z.ltb_spec (e - 2 ^ bits_of T) 0),
      (Z.leb_spec (2 ^ (bits_of T - 1)) e); try reflexivity; lia.
Qed.

Lemma remove_flag_wide (T : uint_type) (e : Z) :
  32 <= bits_of T -> in_range (bits_of T) e ->
  remove_flag T e = e mod 2 ^ (bits_of T - 1).
Proof.
  unfold remove_flag, in_range, wrap. cbv zeta. intros Hw He.
  rewrite Z.shiftl_mul_pow2, Z.shiftr_div_pow2 by lia.
  destruct T; simpl in Hw; try lia; simpl bits_of in *;
    unfold arith_bits; simpl; pow2; Z.div_mod_to_equations; lia.
Qed.

(** On the types narrower than [int] the shifts happen in [int], where
    the flag bit is not shifted out. *)
Lemma remove_flag_narrow (T : uint_type) (e : Z) :
  bits_of T < 32 -> in_range (bits_of T) e -> remove_flag T e = e.
Proof.
  unfold remove_flag, in_range, wrap. cbv zeta. intros Hw He.
  rewrite Z.shiftl_mul_pow2, Z.shiftr_div_pow2 by lia.
  destruct T; simpl in Hw; try lia; simpl bits_of in *;
    unfold arith_bits; simpl; pow2; Z.div_mod_to_equations; lia.
Qed.
End FlagFacts.

Section PairFlagFacts.
Import flag_type_bitset UIntPair.
Variable H : high_type.

Ltac unpack_pair :=
  unfold valid, in_range, wrap, arith_bits in *;
  destruct H; simpl high_bits in *; simpl Z.ltb in *; cbv iota in *; pow2.

Lemma pair_flag_mask :
  wrap (high_bits H)
    (wrap (arith_bits (high_bits H)) (Z.shiftl 1 (high_bits H - 1)))
  = 2 ^ (high_bits H - 1) /\
  wrap (arith_bits (high_bits H)) (Z.shiftl 1 (high_bits H - 1))
  = 2 ^ (high_bits H - 1).
Proof. destruct H; split; reflexivity. Qed.

Lemma is_flagged_pair_spec (x : t) :
  valid H x ->
  is_flagged_pair H x = (2 ^ (high_bits H - 1) <=? high_ x).
Proof.
  unfold is_flagged_pair, to_signed. intros [_ Hh].
  assert (2 ^ high_bits H = 2 * 2 ^ (high_bits H - 1))
    by (destruct H; reflexivity).
  unfold in_range in Hh.
  destruct (Z.ltb_spec (high_ x) (2 ^ (high_bits H - 1))).
  - destruct (Z.ltb_spec (high_ x) 0),
      (Z.leb_spec (2 ^ (high_bits H - 1)) (high_ x)); try reflexivity; lia.
  - destruct (Z.ltb_spec (high_ x - 2 ^ high_bits H) 0),
      (Z.leb_spec (2 ^ (high_bits H - 1)) (high_ x)); try reflexivity; lia.
Qed.

Lemma lor_flag_bit (n h : Z) :
  0 <= n -> 0 <= h < 2 ^ (n + 1) ->
  Z.lor h (2 ^ n) = h mod 2 ^ n + 2 ^ n.
Proof.
  intros Hn Hh.
  assert (Hp : 0 < 2 ^ n) by (apply Z.pow_pos_nonneg; lia).
  rewrite (Z.div_mod h (2 ^ n)) at 1 by lia.
  rewrite (Z.mul_comm (2 ^ n)).
  rewrite <- lor_disjoint by (try lia; apply Z.mod_pos_bound; lia).
  rewrite <- Z.lor_assoc, (Z.lor_comm (h mod 2 ^ n)), Z.lor_assoc.
  assert (Hd : h / 2 ^ n = 0 \/ h / 2 ^ n = 1).
  { assert (0 <= h / 2 ^ n < 2); [| lia].
    rewrite Z.pow_add_r in Hh by lia. change (2 ^ 1) with 2 in Hh.
    split; [apply Z.div_pos; lia | apply Z.div_lt_upper_bound; lia]. }
  destruct Hd as [-> | ->].
  - rewrite Z.mul_0_l, Z.lor_0_l.
    replace (2 ^ n) with (1 * 2 ^ n) at 1 by lia.
    rewrite lor_disjoint by (try lia; apply Z.mod_pos_bound; lia). lia.
  - rewrite Z.mul_1_l, Z.lor_diag.
    replace (2 ^ n) with (1 * 2 ^ n) at 1 by lia.
    rewrite lor_disjoint by (try lia; apply Z.mod_pos_bound; lia). lia.
Qed.

Lemma add_flag_pair_eq (x : t) :
  valid H x ->
  add_flag_pair H x
  = mk (low_ x) (high_ x mod 2 ^ (high_bits H - 1) + 2 ^ (high_bits H - 1)).
Proof.
  intros [_ Hh]. unfold add_flag_pair. cbv zeta.
  destruct pair_flag_mask as [-> _]. f_equal.
  assert (1 <= high_bits H) by (destruct H; simpl; lia).
  rewrite lor_flag_bit
    by (try lia; replace (high_bits H - 1 + 1) with (high_bits H) by lia;
        exact Hh).
  apply wrap_small.
  assert (2 ^ high_bits H = 2 * 2 ^ (high_bits H - 1))
    by (destruct H; reflexivity).
  pose proof (Z.mod_pos_bound (high_ x) (2 ^ (high_bits H - 1))).
  assert (0 < 2 ^ (high_bits H - 1)) by (apply Z.pow_pos_nonneg; lia).
  lia.
Qed.

Lemma conditional_add_flag_pair_true (x : t) :
  conditional_add_flag_pair H true x = add_flag_pair H x.
Proof.
  unfold conditional_add_flag_pair, add_flag_pair. cbn [Z.b2z].
  destruct pair_flag_mask as [-> ->]. reflexivity.
Qed.

Lemma conditional_add_flag_pair_false (x : t) :
  valid H x -> conditional_add_flag_pair H false x = x.
Proof.
  intros [_ Hh]. unfold conditional_add_flag_pair. cbn [Z.b2z].
  rewrite Z.shiftl_0_l.
  replace (wrap (arith_bits (high_bits H)) 0) with 0
    by (destruct H; reflexivity).
  rewrite Z.lor_0_r, wrap_small by exact Hh. now destruct x.
Qed.
End PairFlagFacts.

Lemma remove_flag_pair_eq (x : UIntPair.t) :
  UIntPair.valid UIntPair.High8 x ->
  flag_type_bitset.remove_flag_pair x
  = UIntPair.mk (UIntPair.low_ x)
      (UIntPair.high_ x mod 2 ^ (UIntPair.high_bits UIntPair.High8 - 1)).
Proof.
  intros [_ Hh]. unfold flag_type_bitset.remove_flag_pair. cbv zeta. f_equal.
  rewrite Z.shiftl_mul_pow2, Z.shiftr_div_pow2 by lia.
  unfold in_range, wrap, arith_bits in *.
  simpl UIntPair.high_bits in *. simpl Z.ltb. cbv iota. pow2.
  Z.div_mod_to_equations; lia.
Qed.

Lemma add_flag_eq (T : uint_type) (t : Z) :
  in_range (bits_of T) t ->
  flag_type_bitset.add_flag T t
  = t mod 2 ^ (bits_of T - 1) + 2 ^ (bits_of T - 1).
Proof.
  intros Ht. unfold flag_type_bitset.add_flag. cbv zeta.
  destruct (flag_mask T) as [-> _].
  pose proof (bits_of_pos T).
  rewrite lor_flag_bit
    by (try lia; replace (bits_of T - 1 + 1) with (bits_of T) by lia; exact Ht).
  apply wrap_small.
  assert (2 ^ bits_of T = 2 * 2 ^ (bits_of T - 1)) by (destruct T; reflexivity).
  assert (0 < 2 ^ (bits_of T - 1)) by (apply Z.pow_pos_nonneg; lia).
  pose proof (Z.mod_pos_bound t (2 ^ (bits_of T - 1))). lia.
Qed.

(** Flag round trip on the index types at least as wide as [int]. *)
Lemma flag_roundtrip_wide (T : uint_type) (t : Z) :
  32 <= bits_of T -> in_range (bits_of T) t ->
  flag_type_bitset.remove_flag T (flag_type_bitset.add_flag T t)
  = flag_type_bitset.remove_flag T t /\
  flag_type_bitset.is_flagged T (flag_type_bitset.add_flag T t) = true /\
  flag_type_bitset.is_flagged T (flag_type_bitset.remove_flag T t) = false.
Proof.
  intros Hw Ht.
  assert (Hp : 0 < 2 ^ (bits_of T - 1)) by (apply Z.pow_pos_nonneg; lia).
  assert (H2 : 2 ^ bits_of T = 2 * 2 ^ (bits_of T - 1))
    by (destruct T; reflexivity).
  pose proof (Z.mod_pos_bound t (2 ^ (bits_of T - 1)) Hp) as Hm.
  assert (Ha : in_range (bits_of T) (flag_type_bitset.add_flag T t))
    by (rewrite add_flag_eq by assumption; unfold in_range; lia).
  rewrite !remove_flag_wide by assumption.
  rewrite !is_flagged_spec by (assumption || (unfold in_range; lia)).
  rewrite add_flag_eq by assumption.
  split; [| split].
  - rewrite <- Zplus_mod_idemp_r, Z.mod_same, Z.add_0_r, Z.mod_mod by lia.
    reflexivity.
  - apply Z.leb_le. lia.
  - apply Z.leb_gt. lia.
Qed.

(** Flag round trip on uint40_t. *)
Lemma flag_roundtrip_pair (x : UIntPair.t) :
  UIntPair.valid UIntPair.High8 x ->
  flag_type_bitset.remove_flag_pair
    (flag_type_bitset.add_flag_pair UIntPair.High8 x)
  = flag_type_bitset.remove_flag_pair x /\
  flag_type_bitset.is_flagged_pair UIntPair.High8
    (flag_type_bitset.add_flag_pair UIntPair.High8 x) = true /\
  flag_type_bitset.is_flagged_pair UIntPair.High8
    (flag_type_bitset.remove_flag_pair x) = false.
Proof.
  intros Hv. set (H := UIntPair.High8) in *.
  assert (Hp : 0 < 2 ^ (UIntPair.high_bits H - 1)) by reflexivity.
  assert (H2 : 2 ^ UIntPair.high_bits H = 2 * 2 ^ (UIntPair.high_bits H - 1))
    by reflexivity.
  pose proof (Z.mod_pos_bound (UIntPair.high_ x)
                (2 ^ (UIntPair.high_bits H - 1)) Hp) as Hm.
  assert (Ha : UIntPair.valid H (flag_type_bitset.add_flag_pair H x)).
  { rewrite add_flag_pair_eq by assumption. destruct Hv as [Hl _].
    split; [exact Hl |]. unfold in_range.
    cbn [UIntPair.low_ UIntPair.high_]. lia. }
  assert (Hr : UIntPair.valid H (flag_type_bitset.remove_flag_pair x)).
  { rewrite remove_flag_pair_eq by assumption. destruct Hv as [Hl _].
    split; [exact Hl |]. unfold in_range.
    cbn [UIntPair.low_ UIntPair.high_]. fold H. lia. }
  rewrite !is_flagged_pair_spec by assumption.
  rewrite (remove_flag_pair_eq _ Ha), (remove_flag_pair_eq _ Hv).
  rewrite add_flag_pair_eq by assumption.
  cbn [UIntPair.low_ UIntPair.high_]. fold H.
  split; [| split].
  - f_equal.
    rewrite <- Zplus_mod_idemp_r, Z.mod_same, Z.add_0_r, Z.mod_mod by lia.
    reflexivity.
  - apply Z.leb_le. lia.
  - apply Z.leb_gt. lia.
Qed.

(** C9. The round trip fails on the plain index types narrower than [int]:
    [remove_flag<uint16_t>] evaluates [(t << 1) >> 1] in [int], where the
    flag bit survives, so untagging the tagged value 5 returns 32773, which
    [is_flagged] still reports as tagged; likewise on [uint8_t], where
    untagging the tagged value 3 returns 131. *)
Theorem remove_flag_narrow_keeps_flag :
  in_range (bits_of U16) 5 /\
  flag_type_bitset.add_flag U16 5 = 32773 /\
  flag_type_bitset.remove_flag U16 (flag_type_bitset.add_flag U16 5) = 32773 /\
  flag_type_bitset.is_flagged U16
    (flag_type_bitset.remove_flag U16 (flag_type_bitset.add_flag U16 5))
  = true /\
  flag_type_bitset.remove_flag U8 (flag_type_bitset.add_flag U8 3) = 131 /\
  flag_type_bitset.remove_flag U32 (flag_type_bitset.add_flag U32 5) = 5.
Proof.
  split; [vm_compute; split; congruence |].
  repeat split; reflexivity.
Qed.

(** C10. The branch-free [conditional_add_flag(b, t)] is [add_flag(t)] when
    [b] is true and [t] when [b] is false, on every plain unsigned index
    type and on both [UIntPair] types. *)
Theorem conditional_add_flag_cases (T : uint_type) (H : UIntPair.high_type)
  (b : bool) (t : Z) (x : UIntPair.t) :
  in_range (bits_of T) t -> UIntPair.valid H x ->
  flag_type_bitset.conditional_add_flag T b t
  = (if b then flag_type_bitset.add_flag T t else t) /\
  flag_type_bitset.conditional_add_flag_pair H b x
  = (if b then flag_type_bitset.add_flag_pair H x else x).
Proof.
  intros Ht Hx. destruct b.
  - split; [apply conditional_add_flag_true
           | apply conditional_add_flag_pair_true].
  - split; [now apply conditional_add_flag_false
           | now apply (conditional_add_flag_pair_false H)].
Qed.

Lemma conditional_add_flag_cases_witness :
  flag_type_bitset.conditional_add_flag U8 true 5
  = flag_type_bitset.add_flag U8 5 /\
  flag_type_bitset.conditional_add_flag_pair UIntPair.High16 false
    (UIntPair.mk 9 3) = UIntPair.mk 9 3.
Proof.
  assert (Ht : in_range (bits_of U8) 5) by (vm_compute; split; congruence).
  assert (Hx : UIntPair.valid UIntPair.High16 (UIntPair.mk 9 3))
    by (vm_compute; repeat split; congruence).
  split.
  - exact (proj1 (conditional_add_flag_cases U8 UIntPair.High16 true 5 _ Ht Hx)).
  - exact (proj2 (conditional_add_flag_cases U8 UIntPair.High16 false 5 _ Ht Hx)).
Defined.

(** ** The text view *)

(** C4. With an adjusted length [n], the view yields 0 at the two boundary
    positions [0] and [n - 1], and the stored symbol at [i - 1] plus one at
    every interior position [0 < i < n - 1]. *)
Theorem text_view_cases (tx : text_type) (i : Z) :
  0 <= t_n tx < 2 ^ 64 -> 0 <= i < 2 ^ 64 ->
  (i = 0 \/ i = t_n tx - 1 -> text_at tx i = Some 0) /\
  (0 < i < t_n tx - 1 ->
   forall c, t_text tx !! Z.to_nat (i - 1) = Some c -> 0 <= c < 2 ^ 64 ->
             text_at tx i = Some (c + 1)).
Proof.
  intros Hn Hi. unfold text_at, wrap64, wrap. split.
  - intros Hb.
    destruct (Z.ltb_spec 0 i); [| reflexivity].
    assert (i = t_n tx - 1) as -> by lia.
    rewrite Z.mod_small by lia. rewrite Z.ltb_irrefl. reflexivity.
  - intros Hin c Hc Hr.
    rewrite Z.mod_small by lia.
    destruct (Z.ltb_spec 0 i); [| lia].
    destruct (Z.ltb_spec i (t_n tx - 1)); [| lia].
    simpl. rewrite Hc. simpl. f_equal.
    pow2. Z.div_mod_to_equations. lia.
Qed.

Lemma text_view_cases_witness :
  text_at {| t_n := 4; t_text := [97; 98] |} 0 = Some 0 /\
  text_at {| t_n := 4; t_text := [97; 98] |} 3 = Some 0 /\
  text_at {| t_n := 4; t_text := [97; 98] |} 2 = Some 99.
Proof.
  assert (Hn : 0 <= t_n {| t_n := 4; t_text := [97; 98] |} < 2 ^ 64)
    by (vm_compute; split; congruence).
  assert (H0 : 0 <= 0 < 2 ^ 64) by (vm_compute; split; congruence).
  assert (H3 : 0 <= 3 < 2 ^ 64) by (vm_compute; split; congruence).
  assert (H2 : 0 <= 2 < 2 ^ 64) by (vm_compute; split; congruence).
  split; [| split].
  - apply (proj1 (text_view_cases _ 0 Hn H0)). left. reflexivity.
  - apply (proj1 (text_view_cases _ 3 Hn H3)). right. reflexivity.
  - apply (proj2 (text_view_cases _ 2 Hn H2)) with (c := 98);
      [simpl; lia | reflexivity | pow2; lia].
Defined.

(** ** The logical array and the loops over it *)

Lemma sa_get_logical (s : sa_type) (i : Z) :
  0 <= i -> sa_get s i = logical s !! Z.to_nat i.
Proof.
  intros Hi. unfold sa_get, logical.
  destruct (Z.ltb_spec 1 i).
  - replace (Z.to_nat i) with (S (S (Z.to_nat (i - 2)))) by lia. reflexivity.
  - destruct (Z.eqb_spec i 0) as [-> | Hne]; [reflexivity |].
    assert (i = 1) as -> by lia. reflexivity.
Qed.

Lemma sa_set_logical (s : sa_type) (i v : Z) :
  0 <= i -> (Z.to_nat i < length (logical s))%nat ->
  exists s', sa_set s i v = Some s' /\
             logical s' = <[Z.to_nat i := v]> (logical s) /\
             sa_n s' = sa_n s.
Proof.
  intros Hi Hlen. unfold sa_set, logical in *. simpl in Hlen.
  destruct (Z.ltb_spec 1 i).
  - destruct (Nat.ltb_spec (Z.to_nat (i - 2)) (length (sa s))); [| lia].
    eexists. split; [reflexivity |]. simpl. split; [| reflexivity].
    replace (Z.to_nat i) with (S (S (Z.to_nat (i - 2)))) by lia. reflexivity.
  - eexists. split; [reflexivity |]. simpl. split; [| reflexivity].
    destruct (Z.eqb_spec i 0) as [-> | Hne]; [reflexivity |].
    assert (i = 1) as -> by lia. reflexivity.
Qed.

Lemma for_loop_ext {S : Type} (body1 body2 : Z -> S -> option S) k lo s :
  (forall i s, body1 i s = body2 i s) ->
  for_loop k lo body1 s = for_loop k lo body2 s.
Proof.
  intros He. revert lo s. induction k as [| k IH]; intros lo s; simpl.
  - reflexivity.
  - rewrite He. destruct (body2 lo s); simpl; [apply IH | reflexivity].
Qed.

(** Invariant rule for [for_loop]: [P j] holds after [j] iterations. *)
Lemma for_loop_invariant {S : Type} (P : nat -> S -> Prop)
  (body : Z -> S -> option S) (k : nat) (lo : Z) (s : S) :
  P 0%nat s ->
  (forall j s, (j < k)%nat -> P j s ->
               exists s', body (lo + Z.of_nat j) s = Some s' /\ P (Datatypes.S j) s') ->
  exists s', for_loop k lo body s = Some s' /\ P k s'.
Proof.
  revert P lo s. induction k as [| k IH]; intros P lo s H0 Hstep; simpl.
  - eauto.
  - destruct (Hstep 0%nat s ltac:(lia) H0) as (s1 & Hb & H1).
    rewrite Z.add_0_r in Hb. rewrite Hb. simpl.
    apply (IH (fun j => P (Datatypes.S j))); [exact H1 |].
    intros j s2 Hj Hp.
    destruct (Hstep (Datatypes.S j) s2 ltac:(lia) Hp) as (s3 & Hb3 & H3).
    exists s3. split; [| exact H3].
    rewrite <- Hb3. f_equal. lia.
Qed.

Lemma map_loop (g : Z -> Z) (s : sa_type) :
  exists s', for_loop (length (logical s)) 0 (map_body g) s = Some s' /\
             logical s' = map g (logical s) /\ sa_n s' = sa_n s.
Proof.
  remember (logical s) as L eqn:HL.
  destruct (for_loop_invariant
              (fun j s' => logical s' = map g (take j L) ++ drop j L /\
                           sa_n s' = sa_n s)
              (map_body g) (length L) 0 s) as (s' & Hrun & Hl & Hn).
  - split; [now rewrite HL | reflexivity].
  - intros j s1 Hj [Hl Hn]. rewrite Z.add_0_l. unfold map_body.
    destruct (lookup_lt_is_Some_2 L j Hj) as [v Hv].
    rewrite sa_get_logical by lia. rewrite Nat2Z.id, Hl.
    rewrite lookup_app_r by (rewrite length_map, length_take; lia).
    rewrite length_map, length_take, Nat.min_l, Nat.sub_diag by lia.
    rewrite (drop_S _ _ _ Hv). simpl.
    destruct (sa_set_logical s1 (Z.of_nat j) (g v)) as (s2 & Hs & Hl2 & Hn2).
    + lia.
    + rewrite Nat2Z.id, Hl, length_app, length_map, length_take, length_drop. lia.
    + exists s2. split; [exact Hs |]. split; [| congruence].
      rewrite Hl2, Nat2Z.id, Hl.
      rewrite insert_app_r_alt by (rewrite length_map, length_take; lia).
      rewrite length_map, length_take, Nat.min_l, Nat.sub_diag by lia.
      rewrite (drop_S _ _ _ Hv), (take_S_r _ _ _ Hv). simpl.
      rewrite map_app, <- app_assoc. reflexivity.
  - exists s'. split; [exact Hrun |]. split; [| exact Hn].
    rewrite Hl, firstn_all, drop_all, app_nil_r. reflexivity.
Qed.

(** ** The text view never leaves a well-formed text *)

Lemma text_at_total (tx : text_type) (i : Z) :
  wf_text tx -> text_at tx i = Some (text_sym tx i).
Proof.
  intros (Hn & Hb & _). unfold text_sym, text_at, wrap64, wrap.
  rewrite Z.mod_small by lia.
  destruct (Z.ltb_spec 0 i); [| reflexivity].
  destruct (Z.ltb_spec i (t_n tx - 1)); [| reflexivity]. simpl.
  destruct (lookup_lt_is_Some_2 (t_text tx) (Z.to_nat (i - 1)) ltac:(lia))
    as [c ->].
  reflexivity.
Qed.

Lemma text_sym_interior (tx : text_type) (i c : Z) :
  wf_text tx -> 0 < i -> t_text tx !! Z.to_nat (i - 1) = Some c ->
  text_sym tx i = c + 1.
Proof.
  intros (Hn & Hb & Hr) Hi Hc. unfold text_sym, text_at, wrap64, wrap.
  rewrite Z.mod_small by lia.
  pose proof (lookup_lt_Some _ _ _ Hc).
  destruct (Z.ltb_spec 0 i); [| lia].
  destruct (Z.ltb_spec i (t_n tx - 1)); [| lia]. simpl.
  rewrite Hc. simpl.
  rewrite Forall_forall in Hr.
  assert (0 <= c < 2 ^ 64) by (apply Hr; eapply list_elem_of_lookup_2; eauto).
  pow2. Z.div_mod_to_equations. lia.
Qed.

Lemma text_sym_boundary (tx : text_type) (i : Z) :
  wf_text tx -> i <= 0 \/ t_n tx - 1 <= i -> text_sym tx i = 0.
Proof.
  intros (Hn & Hb & _) Hi. unfold text_sym, text_at, wrap64, wrap.
  rewrite Z.mod_small by lia.
  destruct (Z.ltb_spec 0 i); [| reflexivity].
  destruct (Z.ltb_spec i (t_n tx - 1)); [lia | reflexivity].
Qed.

Lemma text_sym_nonneg (tx : text_type) (i : Z) :
  wf_text tx -> 0 <= text_sym tx i.
Proof.
  intros Hwf.
  destruct (Z_lt_le_dec 0 i) as [Hi |]; [| rewrite text_sym_boundary; auto; lia].
  destruct (Z_lt_le_dec i (t_n tx - 1)) as [Hi2 |];
    [| rewrite text_sym_boundary; auto; lia].
  destruct Hwf as (Hn & Hb & Hr).
  destruct (lookup_lt_is_Some_2 (t_text tx) (Z.to_nat (i - 1)) ltac:(lia))
    as [c Hc].
  rewrite (text_sym_interior tx i c) by (unfold wf_text; auto).
  rewrite Forall_forall in Hr.
  assert (0 <= c < 2 ^ 64) by (apply Hr; eapply list_elem_of_lookup_2; eauto).
  lia.
Qed.

(** ** Ranges of positions *)

Lemma length_zrange (k : nat) (lo : Z) : length (zrange k lo) = k.
Proof. revert lo. induction k; intros; simpl; [| rewrite IHk]; reflexivity. Qed.

Lemma elem_of_zrange (k : nat) (lo x : Z) :
  x ∈ zrange k lo <-> lo <= x < lo + Z.of_nat k.
Proof.
  revert lo. induction k as [| k IH]; intros lo; simpl.
  - rewrite elem_of_nil. lia.
  - rewrite elem_of_cons, IH. lia.
Qed.

Lemma zrange_snoc (k : nat) (lo : Z) :
  zrange (Datatypes.S k) lo = zrange k lo ++ [lo + Z.of_nat k].
Proof.
  revert lo. induction k as [| k IH]; intros lo.
  - simpl. now rewrite Z.add_0_r.
  - change (zrange (Datatypes.S (Datatypes.S k)) lo)
      with (lo :: zrange (Datatypes.S k) (lo + 1)).
    rewrite IH. simpl. do 3 f_equal. lia.
Qed.

Lemma NoDup_zrange (k : nat) (lo : Z) : NoDup (zrange k lo).
Proof.
  revert lo. induction k as [| k IH]; intros lo; simpl; constructor.
  - rewrite elem_of_zrange. lia.
  - apply IH.
Qed.


(** ** The steps of phase 0 *)

Lemma count_bits_le (T : uint_type) : 2 ^ count_bits T <= 2 ^ 64.
Proof. destruct T; vm_compute; congruence. Qed.

Lemma fill_loop (T : uint_type) (s : sa_type) (len : nat) :
  length (sa s) = len -> addressable T (Z.of_nat len + 2) ->
  exists s',
    for_range 1 (Z.of_nat len + 1)
      (fun i s => sa_set s (wrap (count_bits T) (i + 1)) (wrap (bits_of T) i)) s
    = Some s' /\
    logical s' = fst (sa01 s) :: snd (sa01 s) :: zrange len 1 /\
    sa_n s' = sa_n s.
Proof.
  intros Hlen [Hw Hc]. unfold for_range.
  replace (Z.to_nat (Z.of_nat len + 1 - 1)) with len by lia.
  destruct (for_loop_invariant
              (fun j s' => logical s' = fst (sa01 s) :: snd (sa01 s)
                                        :: zrange j 1 ++ drop j (sa s) /\
                           sa_n s' = sa_n s)
              (fun i s => sa_set s (wrap (count_bits T) (i + 1))
                            (wrap (bits_of T) i))
              len 1 s) as (s' & Hrun & Hl & Hn).
  - split; reflexivity.
  - intros j s1 Hj [Hl Hn].
    rewrite !wrap_small by lia.
    destruct (sa_set_logical s1 (1 + Z.of_nat j + 1) (1 + Z.of_nat j))
      as (s2 & Hs & Hl2 & Hn2).
    + lia.
    + rewrite Hl. simpl. rewrite length_app, length_zrange, length_drop. lia.
    + exists s2. split; [exact Hs |]. split; [| congruence].
      rewrite Hl2, Hl.
      replace (Z.to_nat (1 + Z.of_nat j + 1)) with (Datatypes.S (Datatypes.S j))
        by lia.
      simpl. do 2 f_equal.
      rewrite insert_app_r_alt by (rewrite length_zrange; lia).
      rewrite length_zrange, Nat.sub_diag.
      destruct (lookup_lt_is_Some_2 (sa s) j ltac:(lia)) as [x Hx].
      rewrite (drop_S _ _ _ Hx). simpl.
      transitivity (zrange (Datatypes.S j) 1 ++ drop (Datatypes.S j) (sa s));
        [| reflexivity].
      rewrite zrange_snoc, <- app_assoc. reflexivity.
  - exists s'. split; [exact Hrun |]. split; [| exact Hn].
    rewrite Hl, drop_ge, app_nil_r by lia. reflexivity.
Qed.

Lemma insert_by_total (comp : Z -> Z -> option bool) (x : Z) (l : list Z) :
  (forall a b, is_Some (comp a b)) ->
  exists r, insert_by comp x l = Some r /\ r ≡ₚ x :: l.
Proof.
  intros Hc. induction l as [| y l IH]; simpl.
  - eauto.
  - destruct (Hc y x) as [b ->]. simpl. destruct b.
    + destruct IH as (r & -> & Hp). simpl. eexists. split; [reflexivity |].
      rewrite Hp. apply Permutation_swap.
    + eauto.
Qed.

Lemma sort_by_total (comp : Z -> Z -> option bool) (l : list Z) :
  (forall a b, is_Some (comp a b)) ->
  exists r, sort_by comp l = Some r /\ r ≡ₚ l.
Proof.
  intros Hc. induction l as [| x l IH]; simpl.
  - eauto.
  - destruct IH as (r & -> & Hp). simpl.
    destruct (insert_by_total comp x r Hc) as (r' & -> & Hp').
    eexists. split; [reflexivity |]. now rewrite Hp', Hp.
Qed.

Lemma comp_total (tx : text_type) (a b : Z) :
  wf_text tx -> is_Some (comp tx a b).
Proof.
  intros Hwf. unfold comp. rewrite !text_at_total by assumption. simpl. eauto.
Qed.

Lemma sort_range_spec (tx : text_type) (s : sa_type) (len : nat) :
  wf_text tx -> length (sa s) = len ->
  exists s' sorted,
    sort_range tx s (Z.of_nat len) = Some s' /\
    sorted ≡ₚ sa s /\
    logical s' = fst (sa01 s) :: snd (sa01 s) :: sorted /\
    sa_n s' = sa_n s.
Proof.
  intros Hwf Hlen. unfold sort_range. rewrite Nat2Z.id.
  destruct (Nat.leb_spec len (length (sa s))); [| lia].
  rewrite <- Hlen, firstn_all, drop_all.
  destruct (sort_by_total (comp tx) (sa s)) as (r & -> & Hp).
  { intros a b. now apply comp_total. }
  simpl. eexists _, r. split; [reflexivity |]. split; [exact Hp |].
  unfold logical. simpl. now rewrite app_nil_r.
Qed.

Lemma gsize_loop (T : uint_type) (tx : text_type) (s : sa_type) (n : Z)
  (st : gsize_state) :
  wf_text tx -> Z.of_nat (length (logical s)) = n -> n < 2 ^ count_bits T ->
  is_Some (for_range 2 (n - 1) (gsize_body T tx s) st).
Proof.
  intros Hwf Hlen Hc. unfold for_range.
  destruct (for_loop_invariant (fun _ _ => True) (gsize_body T tx s)
              (Z.to_nat (n - 1 - 2)) 2 st I) as (st' & -> & _); [| eauto].
  intros j st1 Hj _. unfold gsize_body.
  rewrite (wrap_small (count_bits T) (2 + Z.of_nat j + 1)) by lia.
  rewrite !sa_get_logical by lia.
  destruct (lookup_lt_is_Some_2 (logical s) (Z.to_nat (2 + Z.of_nat j))
              ltac:(lia)) as [a ->].
  destruct (lookup_lt_is_Some_2 (logical s) (Z.to_nat (2 + Z.of_nat j + 1))
              ltac:(lia)) as [b ->].
  simpl. rewrite !text_at_total by assumption. simpl.
  destruct (_ =? _); eauto.
Qed.

Lemma flag_body_map (F : flag_policy) (T : uint_type) (tx : text_type)
  (i : Z) (s : sa_type) :
  wf_text tx -> flag_body F T tx i s = map_body (flag_entry F T tx) i s.
Proof.
  intros Hwf. unfold flag_body, map_body, flag_entry.
  destruct (sa_get s i) as [idx |]; simpl; [| reflexivity].
  destruct (negb (idx =? 0)); [| reflexivity].
  rewrite !text_at_total by assumption. reflexivity.
Qed.

Lemma logical_inv (s : sa_type) (a b : Z) (l : list Z) :
  logical s = a :: b :: l -> fst (sa01 s) = a /\ snd (sa01 s) = b /\ sa s = l.
Proof. unfold logical. intros H. now injection H. Qed.

Ltac step_bind H := rewrite H; cbn [mbind option_bind].

(** Phase 0 completes on every well-formed text and buffer of matching
    capacity, and leaves the logical array as: the closing sentinel position,
    position 0, then the interior positions [1..len] in some order, each
    passed through the flag policy. *)
Lemma phase0_spec (F : flag_policy) (T : uint_type) (tx : text_type)
  (s : sa_type) :
  wf_text tx -> addressable T (t_n tx) ->
  length (sa s) = length (t_text tx) ->
  exists s' groups sorted,
    sort_by_prefix_parallel F T tx s = Some (s', groups) /\
    sorted ≡ₚ zrange (length (t_text tx)) 1 /\
    logical s' = (t_n tx - 1) :: 0 :: map (flag_entry F T tx) sorted /\
    sa_n s' = sa_n s.
Proof.
  intros Hwf [Hw Hc] Hlen.
  pose proof Hwf as (Hn & Hb & _).
  remember (length (t_text tx)) as len eqn:Hlen'.
  pose proof (count_bits_le T) as Hcb.
  pose proof (bits_of_pos T) as Hbits.
  unfold sort_by_prefix_parallel.
  rewrite (wrap_small (count_bits T) (t_n tx)) by lia.
  rewrite (wrap_small (count_bits T) (t_n tx - 1)) by lia.
  rewrite (wrap_small (count_bits T) (t_n tx - 2)) by lia.
  rewrite (wrap_small (bits_of T) (t_n tx - 1)) by lia.
  destruct (sa_set_logical s 0 0) as (s1 & Hs1 & Hl1 & Hn1);
    [lia | simpl; lia |].
  step_bind Hs1.
  destruct (sa_set_logical s1 1 (t_n tx - 1)) as (s2 & Hs2 & Hl2 & Hn2);
    [lia | rewrite Hl1; simpl; lia |].
  step_bind Hs2.
  rewrite Hl1 in Hl2. simpl in Hl2.
  destruct (logical_inv _ _ _ _ Hl2) as (Ha2 & Hb2 & Hbuf2).
  destruct (fill_loop T s2 len) as (s3 & Hs3 & Hl3 & Hn3);
    [congruence | split; lia |].
  replace (Z.of_nat len + 1) with (t_n tx - 1) in Hs3 by lia.
  step_bind Hs3.
  rewrite Ha2, Hb2 in Hl3.
  destruct (logical_inv _ _ _ _ Hl3) as (Ha3 & Hb3 & Hbuf3).
  destruct (sort_range_spec tx s3 len Hwf) as (s4 & sorted & Hs4 & Hp & Hl4 & Hn4);
    [rewrite Hbuf3; apply length_zrange |].
  replace (Z.of_nat len) with (t_n tx - 2) in Hs4 by lia.
  step_bind Hs4.
  rewrite Ha3, Hb3 in Hl4. rewrite Hbuf3 in Hp.
  assert (Hlen4 : length (logical s4) = Z.to_nat (t_n tx)).
  { rewrite Hl4. simpl. rewrite Hp, length_zrange. lia. }
  destruct (gsize_loop T tx s4 (t_n tx)
              {| left_border := 2; gsize := 1; result := [] |} Hwf)
    as [st Hst]; [lia | lia |].
  step_bind Hst.
  unfold for_range. rewrite Z.sub_0_r, <- Hlen4.
  rewrite (for_loop_ext (flag_body F T tx) (map_body (flag_entry F T tx)))
    by (intros; now apply flag_body_map).
  destruct (map_loop (flag_entry F T tx) s4) as (s5 & Hs5 & Hl5 & Hn5).
  step_bind Hs5.
  destruct (sa_set_logical s5 0 (t_n tx - 1)) as (s6 & Hs6 & Hl6 & Hn6);
    [lia | rewrite Hl5, Hl4; simpl; lia |].
  step_bind Hs6.
  destruct (sa_set_logical s6 1 0) as (s7 & Hs7 & Hl7 & Hn7);
    [lia | rewrite Hl6, Hl5, Hl4; simpl; lia |].
  step_bind Hs7.
  eexists s7, _, sorted. split; [reflexivity |]. split; [exact Hp |].
  split; [| congruence].
  rewrite Hl7, Hl6, Hl5, Hl4. reflexivity.
Qed.

(** Every entry of the logical array after phase 0. *)
Lemma phase0_entries (F : flag_policy) (T : uint_type) (tx : text_type)
  (s : sa_type) :
  wf_text tx -> addressable T (t_n tx) ->
  length (sa s) = length (t_text tx) ->
  exists s' groups,
    sort_by_prefix_parallel F T tx s = Some (s', groups) /\
    forall i, 0 <= i < t_n tx ->
      exists e, sa_get s' i = Some e /\
        (e = t_n tx - 1 \/ e = 0 \/
         exists idx, 0 < idx < t_n tx - 1 /\ e = flag_entry F T tx idx).
Proof.
  intros Hwf Ha Hlen.
  destruct (phase0_spec F T tx s Hwf Ha Hlen)
    as (s' & groups & sorted & Hrun & Hp & Hl & _).
  exists s', groups. split; [exact Hrun |].
  intros i Hi. rewrite sa_get_logical, Hl by lia.
  destruct Hwf as (Hn & _).
  destruct (Z.to_nat i) as [| [| k]] eqn:Hk; simpl.
  - eauto.
  - eauto.
  - assert (Hlt : (k < length sorted)%nat) by (rewrite Hp, length_zrange; lia).
    destruct (lookup_lt_is_Some_2 sorted k Hlt) as [idx Hidx].
    rewrite list_lookup_fmap, Hidx. simpl.
    eexists. split; [reflexivity |]. right. right. exists idx.
    split; [| reflexivity].
    apply list_elem_of_lookup_2 in Hidx. rewrite Hp in Hidx.
    apply elem_of_zrange in Hidx. lia.
Qed.

Lemma flag_entry_bitset (T : uint_type) (tx : text_type) (idx : Z) :
  wf_text tx -> t_n tx <= 2 ^ (bits_of T - 1) -> 0 < idx < t_n tx - 1 ->
  let e := flag_entry Bitset T tx idx in
  index_bits T e = idx /\
  in_range (bits_of T) e /\
  flag_type_bitset.is_flagged T e
  = (text_sym tx (idx - 1) <? text_sym tx idx).
Proof.
  intros Hwf Hn Hidx. cbv zeta. unfold flag_entry, index_bits.
  destruct Hwf as (_ & Hb & _).
  pose proof (bits_of_pos T) as Hbits.
  assert (Hp : 0 < 2 ^ (bits_of T - 1)) by (apply Z.pow_pos_nonneg; lia).
  assert (H2 : 2 ^ bits_of T = 2 * 2 ^ (bits_of T - 1))
    by (destruct T; reflexivity).
  assert (Hab : 2 ^ 32 <= 2 ^ arith_bits (bits_of T))
    by (destruct T; vm_compute; congruence).
  assert (Hab' : 2 ^ (bits_of T - 1) < 2 ^ arith_bits (bits_of T))
    by (destruct T; vm_compute; congruence).
  destruct (Z.eqb_spec idx 0); [lia |]. simpl negb. cbv iota.
  rewrite (wrap_small (arith_bits (bits_of T)) (idx - 1)) by lia.
  unfold wrap64. rewrite !wrap_small by lia.
  unfold F_conditional_add_flag.
  destruct (text_sym tx (idx - 1) <? text_sym tx idx).
  - rewrite conditional_add_flag_true, add_flag_plus by lia.
    split; [| split].
    + rewrite <- Zplus_mod_idemp_r, Z.mod_same, Z.add_0_r by lia.
      apply Z.mod_small. lia.
    + unfold in_range. lia.
    + rewrite is_flagged_spec by (unfold in_range; lia). apply Z.leb_le. lia.
  - assert (Hr : in_range (bits_of T) idx) by (unfold in_range; lia).
    rewrite conditional_add_flag_false by exact Hr.
    split; [apply Z.mod_small; lia |]. split; [exact Hr |].
    rewrite is_flagged_spec by exact Hr. apply Z.leb_gt. lia.
Qed.

(** C3, as amended. Instantiated with [flag_type_bitset] on an index type
    with a spare top bit, phase 0 leaves every entry of the logical array
    flagged exactly when the symbol before its suffix is strictly smaller
    than the suffix's first symbol, both read through the view. Instantiated
    with [flag_type_none], as [gsaca_for_lce] does, it leaves every entry an
    untagged position. *)
Theorem phase0_flag_classification (T : uint_type) (tx : text_type)
  (s : sa_type) :
  wf_text tx -> t_n tx <= 2 ^ (bits_of T - 1) ->
  length (sa s) = length (t_text tx) ->
  (exists s' groups,
     sort_by_prefix_parallel Bitset T tx s = Some (s', groups) /\
     forall i, 0 <= i < t_n tx ->
       exists e, sa_get s' i = Some e /\
         0 <= index_bits T e < t_n tx /\
         (F_is_flagged Bitset T e = true <->
          text_sym tx (wrap64 (index_bits T e - 1))
          < text_sym tx (index_bits T e))) /\
  (exists s' groups,
     sort_by_prefix_parallel (flag_type false) T tx s = Some (s', groups) /\
     forall i, 0 <= i < t_n tx ->
       exists e, sa_get s' i = Some e /\
         0 <= e < t_n tx /\
         F_is_flagged (flag_type false) T e = false /\
         flag_type_bitset.is_flagged T e = false).
Proof.
  intros Hwf Hn Hlen.
  pose proof (bits_of_pos T) as Hbits.
  pose proof Hwf as (Hn' & Hb & _).
  assert (Hp : 0 < 2 ^ (bits_of T - 1)) by (apply Z.pow_pos_nonneg; lia).
  assert (H2 : 2 ^ bits_of T = 2 * 2 ^ (bits_of T - 1))
    by (destruct T; reflexivity).
  assert (Hcb : 2 ^ bits_of T <= 2 ^ count_bits T)
    by (destruct T; vm_compute; congruence).
  assert (Ha : addressable T (t_n tx)) by (split; lia).
  assert (Hplain : forall e, 0 <= e < t_n tx ->
            index_bits T e = e /\ flag_type_bitset.is_flagged T e = false).
  { intros e He. split; [apply Z.mod_small; lia |].
    rewrite is_flagged_spec by (unfold in_range; lia). apply Z.leb_gt. lia. }
  split.
  - destruct (phase0_entries Bitset T tx s Hwf Ha Hlen) as (s' & g & Hrun & He).
    exists s', g. split; [exact Hrun |].
    intros i Hi. destruct (He i Hi) as (e & Hget & Hcase).
    exists e. split; [exact Hget |].
    destruct Hcase as [-> | [-> | (idx & Hidx & ->)]].
    + destruct (Hplain (t_n tx - 1) ltac:(lia)) as [-> Hf].
      split; [lia |]. simpl. rewrite Hf.
      rewrite (text_sym_boundary tx (t_n tx - 1)) by (auto; lia).
      pose proof (text_sym_nonneg tx (wrap64 (t_n tx - 1 - 1)) Hwf).
      split; [discriminate | lia].
    + destruct (Hplain 0 ltac:(lia)) as [-> Hf].
      split; [lia |]. simpl. rewrite Hf.
      rewrite (text_sym_boundary tx 0) by (auto; lia).
      pose proof (text_sym_nonneg tx (wrap64 (0 - 1)) Hwf).
      split; [discriminate | lia].
    + destruct (flag_entry_bitset T tx idx Hwf Hn Hidx) as (-> & _ & Hf).
      split; [lia |]. simpl. rewrite Hf.
      unfold wrap64. rewrite wrap_small by lia. apply Z.ltb_lt.
  - destruct (phase0_entries NoFlags T tx s Hwf Ha Hlen) as (s' & g & Hrun & He).
    exists s', g. split; [exact Hrun |].
    intros i Hi. destruct (He i Hi) as (e & Hget & Hcase).
    exists e. split; [exact Hget |].
    assert (Hr : 0 <= e < t_n tx).
    { destruct Hcase as [-> | [-> | (idx & Hidx & ->)]]; [lia | lia |].
      unfold flag_entry, F_conditional_add_flag,
        flag_type_none.conditional_add_flag.
      destruct (negb (idx =? 0)); lia. }
    split; [exact Hr |]. split; [reflexivity |]. apply Hplain, Hr.
Qed.

(** C3, as stated, fails on the path of [gsaca_for_lce], which instantiates
    the wrapper with [use_flags = false]: on the text "ab" the entry of the
    suffix "b" is 2, untagged, although 'a' precedes it and is smaller. *)
Lemma phase0_for_lce_sets_no_flag :
  let tx := {| t_n := 4; t_text := [97; 98] |} in
  exists s' groups,
    sort_by_prefix_parallel (flag_type false) U32 tx
      {| sa_n := 4; sa := [0; 0]; sa01 := (0, 0) |} = Some (s', groups) /\
    sa_get s' 3 = Some 2 /\
    text_sym tx (wrap64 (index_bits U32 2 - 1)) < text_sym tx (index_bits U32 2) /\
    F_is_flagged (flag_type false) U32 2 = false /\
    flag_type_bitset.is_flagged U32 2 = false.
Proof.
  cbv zeta. eexists _, _. split; [vm_compute; reflexivity |].
  repeat split; vm_compute; reflexivity.
Qed.

Lemma phase0_flag_classification_witness :
  let tx := {| t_n := 4; t_text := [97; 98] |} in
  let s := {| sa_n := 4; sa := [0; 0]; sa01 := (0, 0) |} in
  exists s' groups,
    sort_by_prefix_parallel Bitset U32 tx s = Some (s', groups) /\
    exists e, sa_get s' 3 = Some e /\
      (F_is_flagged Bitset U32 e = true <->
       text_sym tx (wrap64 (index_bits U32 e - 1))
       < text_sym tx (index_bits U32 e)).
Proof.
  cbv zeta.
  assert (Hwf : wf_text {| t_n := 4; t_text := [97; 98] |}).
  { split; [reflexivity |]. split; [reflexivity |].
    repeat constructor; vm_compute; congruence. }
  assert (Hn : t_n {| t_n := 4; t_text := [97; 98] |} <= 2 ^ (bits_of U32 - 1))
    by (vm_compute; congruence).
  destruct (phase0_flag_classification U32 _
              {| sa_n := 4; sa := [0; 0]; sa01 := (0, 0) |} Hwf Hn eq_refl)
    as [(s' & g & Hrun & He) _].
  exists s', g. split; [exact Hrun |].
  destruct (He 3) as (e & Hget & _ & Hiff); [simpl; lia |].
  exists e. split; assumption.
Defined.

(** ** Lexicographic order *)

Lemma lex_leb_total (a b : list Z) : lex_leb a b = true \/ lex_leb b a = true.
Proof.
  revert b. induction a as [| x a IH]; intros [| y b]; simpl; auto.
  destruct (IH b) as [-> | ->];
    destruct (Z.ltb_spec x y), (Z.ltb_spec y x), (Z.eqb_spec x y),
      (Z.eqb_spec y x); simpl; auto; lia.
Qed.

Lemma lex_leb_trans (a b c : list Z) :
  lex_leb a b = true -> lex_leb b c = true -> lex_leb a c = true.
Proof.
  revert b c. induction a as [| x a IH]; intros [| y b] [| z c]; simpl;
    try congruence.
  intros Hab Hbc.
  apply orb_true_iff in Hab. apply orb_true_iff in Hbc. apply orb_true_iff.
  rewrite !andb_true_iff, !Z.ltb_lt, !Z.eqb_eq in *.
  destruct Hab as [Hab | [-> Hab]], Hbc as [Hbc | [-> Hbc]].
  - left. lia.
  - left. lia.
  - left. lia.
  - right. split; [reflexivity |]. eapply IH; eauto.
Qed.



(** ** Suffixes through the view and suffixes of the text *)

Lemma view_suffix_aux (tx : text_type) (k : nat) (p : Z) :
  wf_text tx -> 0 < p -> p + Z.of_nat k = t_n tx - 1 ->
  map (text_sym tx) (zrange (Datatypes.S k) p)
  = map (fun c => c + 1) (drop (Z.to_nat (p - 1)) (t_text tx)) ++ [0].
Proof.
  intros Hwf. revert p. induction k as [| k IH]; intros p Hp Hk.
  - simpl. rewrite text_sym_boundary by (auto; lia).
    destruct Hwf as (Hn & _).
    rewrite drop_ge by lia. reflexivity.
  - change (zrange (Datatypes.S (Datatypes.S k)) p)
      with (p :: zrange (Datatypes.S k) (p + 1)).
    rewrite map_cons, IH by lia.
    pose proof Hwf as (Hn & _).
    destruct (lookup_lt_is_Some_2 (t_text tx) (Z.to_nat (p - 1)) ltac:(lia))
      as [c Hc].
    rewrite (text_sym_interior tx p c Hwf Hp Hc).
    rewrite (drop_S _ _ _ Hc). simpl.
    replace (Z.to_nat (p + 1 - 1)) with (Datatypes.S (Z.to_nat (p - 1))) by lia.
    reflexivity.
Qed.

Lemma view_suffix_interior (tx : text_type) (p : Z) :
  wf_text tx -> 0 < p <= t_n tx - 1 ->
  view_suffix tx p
  = map (fun c => c + 1) (drop (Z.to_nat (p - 1)) (t_text tx)) ++ [0].
Proof.
  intros Hwf Hp. unfold view_suffix.
  replace (Z.to_nat (t_n tx - p))
    with (Datatypes.S (Z.to_nat (t_n tx - 1 - p))) by lia.
  apply view_suffix_aux; [assumption | lia | lia].
Qed.

Lemma view_suffix_zero (tx : text_type) :
  wf_text tx -> view_suffix tx 0 = 0 :: view_suffix tx 1.
Proof.
  intros Hwf. pose proof Hwf as (Hn & _). unfold view_suffix.
  replace (Z.to_nat (t_n tx - 0)) with (Datatypes.S (Z.to_nat (t_n tx - 1)))
    by lia.
  simpl. rewrite text_sym_boundary by (auto; lia). reflexivity.
Qed.

Lemma text_nonneg (tx : text_type) :
  wf_text tx -> forall k, Forall (fun c => 0 <= c) (drop k (t_text tx)).
Proof.
  intros (_ & _ & Hr) k. apply Forall_drop.
  eapply Forall_impl; [exact Hr |]. simpl. intros. lia.
Qed.


Lemma suffix_leb_zero_interior (tx : text_type) (q : Z) :
  wf_text tx -> 0 < q < t_n tx - 1 -> suffix_leb tx 0 q = true.
Proof.
  intros Hwf Hq. unfold suffix_leb.
  rewrite view_suffix_zero, (view_suffix_interior tx q) by (auto; lia).
  pose proof Hwf as (Hn & _).
  destruct (lookup_lt_is_Some_2 (t_text tx) (Z.to_nat (q - 1)) ltac:(lia))
    as [c Hc].
  rewrite (drop_S _ _ _ Hc). simpl.
  pose proof (text_nonneg tx Hwf (Z.to_nat (q - 1))) as Hf.
  rewrite (drop_S _ _ _ Hc) in Hf. inversion Hf; subst.
  destruct (Z.ltb_spec 0 (c + 1)); [reflexivity | lia].
Qed.

Lemma suffix_leb_last_zero (tx : text_type) :
  wf_text tx -> suffix_leb tx (t_n tx - 1) 0 = true.
Proof.
  intros Hwf. pose proof Hwf as (Hn & _). unfold suffix_leb.
  rewrite view_suffix_zero by assumption.
  unfold view_suffix at 1.
  replace (Z.to_nat (t_n tx - (t_n tx - 1))) with 1%nat by lia.
  simpl. rewrite text_sym_boundary by (auto; lia). simpl.
  reflexivity.
Qed.

(** ** Insertion sort *)

Section Isort.
Variable leb : Z -> Z -> bool.
Let R (a b : Z) : Prop := leb a b = true.

Hypothesis leb_total : forall a b, leb a b = true \/ leb b a = true.
Hypothesis leb_trans :
  forall a b c, leb a b = true -> leb b c = true -> leb a c = true.

Lemma insert_leb_perm (x : Z) (l : list Z) : insert_leb leb x l ≡ₚ x :: l.
Proof.
  induction l as [| y l IH]; simpl; [reflexivity |].
  destruct (leb x y); [reflexivity |].
  rewrite IH. apply Permutation_swap.
Qed.

Lemma isort_perm (l : list Z) : isort leb l ≡ₚ l.
Proof.
  induction l as [| x l IH]; simpl; [reflexivity |].
  now rewrite insert_leb_perm, IH.
Qed.

Lemma insert_leb_sorted (x : Z) (l : list Z) :
  StronglySorted R l -> StronglySorted R (insert_leb leb x l).
Proof.
  induction 1 as [| y l Hs IH Hy]; simpl.
  - repeat constructor.
  - destruct (leb x y) eqn:Hxy.
    + constructor; [constructor; assumption |].
      constructor; [exact Hxy |].
      eapply Forall_impl; [exact Hy |]. intros z Hz. unfold R in *. eauto.
    + constructor; [exact IH |].
      rewrite insert_leb_perm. constructor; [| exact Hy].
      destruct (leb_total x y) as [Hc | Hc]; [congruence | exact Hc].
Qed.

Lemma isort_sorted (l : list Z) : StronglySorted R (isort leb l).
Proof.
  induction l as [| x l IH]; simpl; [constructor |].
  now apply insert_leb_sorted.
Qed.

Lemma insert_leb_head (x : Z) (l : list Z) :
  Forall (R x) l -> insert_leb leb x l = x :: l.
Proof.
  intros Hf. destruct Hf as [| y l Hy Hl]; simpl; [reflexivity |].
  unfold R in Hy. now rewrite Hy.
Qed.
End Isort.

Lemma StronglySorted_lookup {A : Type} (R : A -> A -> Prop) (l : list A)
  (i j : nat) (a b : A) :
  StronglySorted R l -> (i < j)%nat ->
  l !! i = Some a -> l !! j = Some b -> R a b.
Proof.
  intros Hs. revert i j. induction Hs as [| x l Hs IH Hx]; intros i j Hij Ha Hb.
  - discriminate.
  - destruct j as [| j]; [lia |]. simpl in Hb.
    destruct i as [| i]; simpl in Ha.
    + injection Ha as <-. rewrite Forall_forall in Hx.
      apply Hx. eapply list_elem_of_lookup_2; eauto.
    + eapply IH; [| eassumption | eassumption]. lia.
Qed.

Lemma suffix_leb_total (tx : text_type) (a b : Z) :
  suffix_leb tx a b = true \/ suffix_leb tx b a = true.
Proof. apply lex_leb_total. Qed.

Lemma suffix_leb_trans (tx : text_type) (a b c : Z) :
  suffix_leb tx a b = true -> suffix_leb tx b c = true ->
  suffix_leb tx a c = true.
Proof. apply lex_leb_trans. Qed.

(** ** The driver *)

Lemma flag_entry_none (T : uint_type) (tx : text_type) (l : list Z) :
  map (flag_entry NoFlags T tx) l = l.
Proof.
  induction l as [| x l IH]; simpl; [reflexivity |]. rewrite IH. f_equal.
  unfold flag_entry. now destruct (negb (x =? 0)).
Qed.

Lemma remove_flag_none (T : uint_type) (l : list Z) :
  map (F_remove_flag NoFlags T) l = l.
Proof. induction l as [| x l IH]; simpl; [| rewrite IH]; reflexivity. Qed.

(** ** Runs of [gsaca_for_lce] *)

(** The run of the demonstration program: "mississippi" with the byte at
    index 4 set to zero, which the view tolerates. *)
Example demo_embedded_zero :
  gsaca_for_lce U32 [109; 105; 115; 115; 0; 115; 115; 105; 112; 112; 105]
    (repeat 0 11) 11
  = Some [4; 10; 7; 1; 0; 9; 8; 3; 6; 2; 5].
Proof. vm_compute. reflexivity. Qed.

(** Further scenarios of the spec: a text of identical symbols comes out in
    descending start order, a single symbol as position 0. *)
Example identical_symbols :
  gsaca_for_lce U32 [97; 97; 97; 97] (repeat 0 4) 4 = Some [3; 2; 1; 0].
Proof. vm_compute. reflexivity. Qed.

Example single_symbol : gsaca_for_lce U32 [97] [0] 1 = Some [0].
Proof. vm_compute. reflexivity. Qed.

(** Phase 0 on the empty text: no slot of the caller's buffer is touched,
    and one group of size 1 at logical slot 2 is handed to phase 1. *)
Lemma phase0_empty_text :
  sort_by_prefix_parallel NoFlags U32 {| t_n := 2; t_text := [] |}
    {| sa_n := 2; sa := []; sa01 := (0, 0) |}
  = Some ({| sa_n := 2; sa := []; sa01 := (1, 0) |}, [new_group 2 1]).
Proof. vm_compute. reflexivity. Qed.

(** * Further properties of the embedded code *)

(** ** [UIntPair]: the remaining constructors and operators *)

Section PackedMore.
Import UIntPair.
Variable H : high_type.

Ltac unpack_more :=
  unfold valid, in_range, digits, to_Low, to_High, low_max, high_max,
    low_bits, wrap64, wrap in *;
  destruct H; simpl high_bits in *; pow2.

Lemma valid_wrapped (a b : Z) : valid H (mk (to_Low a) (to_High H b)).
Proof.
  split; apply wrap_range; unfold low_bits; destruct H; simpl; lia.
Qed.

Lemma incr_valid (x : t) : valid H x -> valid H (incr H x).
Proof.
  intros [Hl Hh]. unfold incr.
  destruct (low_ x =? low_max).
  - split; [unfold in_range, low_bits; simpl; pow2; lia |].
    apply wrap_range. destruct H; simpl; lia.
  - split; [apply wrap_range; unfold low_bits; lia | exact Hh].
Qed.

Lemma decr_valid (x : t) : valid H x -> valid H (decr H x).
Proof.
  intros [Hl Hh]. unfold decr.
  destruct (low_ x =? 0).
  - apply valid_wrapped.
  - split; [apply wrap_range; unfold low_bits; lia | exact Hh].
Qed.

Lemma ull_inj (x y : t) : valid H x -> valid H y -> ull x = ull y -> x = y.
Proof.
  intros Hx Hy. rewrite (ull_eq H x Hx), (ull_eq H y Hy).
  destruct x as [xl xh], y as [yl yh], Hx as [Hxl Hxh], Hy as [Hyl Hyh].
  simpl in *. unfold in_range, low_bits in *. pow2. intros He.
  assert (xh = yh) by lia. assert (xl = yl) by lia. congruence.
Qed.

Lemma of_ull_parts_widened (x : t) : valid H x -> of_ull_parts H (ull x) = x.
Proof.
  intros Hx. apply ull_inj; [apply of_ull_parts_valid | exact Hx |].
  pose proof (ull_eq H x Hx) as He. destruct Hx as [Hl Hh].
  rewrite of_ull_parts_ull by (rewrite He; unpack_more; lia).
  apply Z.mod_small. rewrite He. unpack_more; lia.
Qed.

Lemma ull_bounds (x : t) : valid H x -> 0 <= ull x < 2 ^ digits H.
Proof.
  intros Hx. rewrite (ull_eq H x Hx). destruct Hx as [Hl Hh].
  unpack_more; lia.
Qed.
End PackedMore.

(** X1. Increment and decrement undo each other on every pair, across the
    carry into the higher part and across the wrap between [max()] and
    [min()]; the postfix forms return the old value and leave the same
    object as the prefix forms. *)
Theorem incr_decr_inverse (H : UIntPair.high_type) (x : UIntPair.t) :
  UIntPair.valid H x ->
  UIntPair.decr H (UIntPair.incr H x) = x /\
  UIntPair.incr H (UIntPair.decr H x) = x /\
  UIntPair.post_incr H x = (x, UIntPair.incr H x) /\
  UIntPair.post_decr H x = (x, UIntPair.decr H x) /\
  snd (UIntPair.post_decr H (snd (UIntPair.post_incr H x))) = x.
Proof.
  intros Hx.
  assert (Hd : UIntPair.decr H (UIntPair.incr H x) = x).
  { apply (ull_inj H);
      [apply decr_valid, incr_valid, Hx | exact Hx |].
    rewrite decr_refines by (apply incr_valid, Hx).
    unfold UIntPair.decr_widened. rewrite narrow_ull.
    rewrite incr_refines by exact Hx.
    unfold UIntPair.incr_widened. rewrite narrow_ull.
    pose proof (ull_bounds H x Hx).
    assert (0 < 2 ^ UIntPair.digits H) by lia.
    rewrite <- Zminus_mod_idemp_l, Z.mod_mod by lia.
    rewrite Zminus_mod_idemp_l.
    replace (UIntPair.ull x + 1 - 1) with (UIntPair.ull x) by lia.
    apply Z.mod_small. lia. }
  assert (Hi : UIntPair.incr H (UIntPair.decr H x) = x).
  { apply (ull_inj H);
      [apply incr_valid, decr_valid, Hx | exact Hx |].
    rewrite incr_refines by (apply decr_valid, Hx).
    unfold UIntPair.incr_widened. rewrite narrow_ull.
    rewrite decr_refines by exact Hx.
    unfold UIntPair.decr_widened. rewrite narrow_ull.
    pose proof (ull_bounds H x Hx).
    assert (0 < 2 ^ UIntPair.digits H) by lia.
    rewrite Zplus_mod_idemp_l.
    replace (UIntPair.ull x - 1 + 1) with (UIntPair.ull x) by lia.
    apply Z.mod_small. lia. }
  split; [exact Hd |]. split; [exact Hi |].
  split; [reflexivity |]. split; [reflexivity |]. exact Hd.
Qed.

Lemma incr_decr_inverse_witness :
  UIntPair.decr UIntPair.High8
    (UIntPair.incr UIntPair.High8 (UIntPair.max UIntPair.High8))
  = UIntPair.max UIntPair.High8.
Proof.
  assert (Hx : UIntPair.valid UIntPair.High8 (UIntPair.max UIntPair.High8))
    by (vm_compute; repeat split; congruence).
  exact (proj1 (incr_decr_inverse UIntPair.High8 _ Hx)).
Defined.

(** X2. Widening then narrowing is the identity: the widened value of a
    pair always fits the packed width, so constructing a pair from it never
    trips the assertion and gives the pair back; two pairs with the same
    widened value are the same pair. *)
Theorem widen_narrow_roundtrip (H : UIntPair.high_type) (x y : UIntPair.t) :
  UIntPair.valid H x -> UIntPair.valid H y ->
  0 <= UIntPair.ull x < 2 ^ UIntPair.digits H /\
  UIntPair.of_ull H (UIntPair.ull x) = Value x /\
  UIntPair.of_uint64 H (UIntPair.u64 x) = Value x /\
  (UIntPair.ull x = UIntPair.ull y -> x = y).
Proof.
  intros Hx Hy. pose proof (ull_bounds H x Hx) as Hb.
  assert (Hv : UIntPair.of_ull H (UIntPair.ull x) = Value x)
    by (rewrite of_ull_value by exact Hb; f_equal;
        now apply of_ull_parts_widened).
  split; [exact Hb |]. split; [exact Hv |]. split.
  - unfold UIntPair.of_uint64, wrap64. rewrite u64_ull.
    rewrite wrap_small; [exact Hv |].
    assert (2 ^ UIntPair.digits H <= 2 ^ 64)
      by (destruct H; vm_compute; congruence).
    lia.
  - now apply (ull_inj H).
Qed.

Lemma widen_narrow_roundtrip_witness :
  UIntPair.of_ull UIntPair.High16 (UIntPair.ull (UIntPair.mk 7 65535))
  = Value (UIntPair.mk 7 65535).
Proof.
  assert (Hx : UIntPair.valid UIntPair.High16 (UIntPair.mk 7 65535))
    by (vm_compute; repeat split; congruence).
  exact (proj1 (proj2 (widen_narrow_roundtrip UIntPair.High16 _ _ Hx Hx))).
Defined.

(** X3. Addition and subtraction form a wrap-around arithmetic that the
    in-place operators fit into: subtracting what was added gives the
    original pair back, also when the sum wrapped; addition commutes; adding
    or subtracting the pair 1 is what [++] and [--] compute. *)
Theorem add_sub_compose (H : UIntPair.high_type) (x y : UIntPair.t) :
  UIntPair.valid H x -> UIntPair.valid H y ->
  (exists r, UIntPair.add H x y = Value r /\ UIntPair.valid H r /\
             UIntPair.sub H r y = Value x) /\
  UIntPair.add H x y = UIntPair.add H y x /\
  UIntPair.add H x (UIntPair.mk 1 0) = Value (UIntPair.incr H x) /\
  UIntPair.sub H x (UIntPair.mk 1 0) = Value (UIntPair.decr H x).
Proof.
  intros Hx Hy.
  assert (H1 : UIntPair.valid H (UIntPair.mk 1 0)).
  { split; unfold in_range; simpl; [unfold UIntPair.low_bits; pow2; lia |].
    destruct H; simpl; pow2; lia. }
  assert (Hu1 : UIntPair.ull (UIntPair.mk 1 0) = 1)
    by (rewrite (ull_eq H _ H1); reflexivity).
  pose proof (ull_bounds H x Hx) as Hbx.
  pose proof (ull_bounds H y Hy) as Hby.
  assert (Hp : 0 < 2 ^ UIntPair.digits H) by lia.
  destruct (add_wraps H x y Hx Hy) as (r & Hr & Hvr & Hur).
  split; [| split; [| split]].
  - exists r. split; [exact Hr |]. split; [exact Hvr |].
    destruct (sub_wraps H r y Hvr Hy) as (r' & Hr' & Hvr' & Hur').
    rewrite Hr'. f_equal. apply (ull_inj H); [exact Hvr' | exact Hx |].
    rewrite Hur', Hur, Zminus_mod_idemp_l.
    replace (UIntPair.ull x + UIntPair.ull y - UIntPair.ull y)
      with (UIntPair.ull x) by lia.
    apply Z.mod_small. lia.
  - destruct (add_wraps H y x Hy Hx) as (r' & Hr' & Hvr' & Hur').
    rewrite Hr, Hr'. f_equal. apply (ull_inj H); [exact Hvr | exact Hvr' |].
    rewrite Hur, Hur'. f_equal. lia.
  - destruct (add_wraps H x _ Hx H1) as (r' & Hr' & Hvr' & Hur').
    rewrite Hr'. f_equal.
    apply (ull_inj H); [exact Hvr' | apply incr_valid, Hx |].
    rewrite Hur', Hu1, incr_refines by exact Hx.
    unfold UIntPair.incr_widened. now rewrite narrow_ull.
  - destruct (sub_wraps H x _ Hx H1) as (r' & Hr' & Hvr' & Hur').
    rewrite Hr'. f_equal.
    apply (ull_inj H); [exact Hvr' | apply decr_valid, Hx |].
    rewrite Hur', Hu1, decr_refines by exact Hx.
    unfold UIntPair.decr_widened. now rewrite narrow_ull.
Qed.

Lemma add_sub_compose_witness :
  exists r,
    UIntPair.add UIntPair.High8 (UIntPair.max UIntPair.High8)
      (UIntPair.mk 5 0) = Value r /\
    UIntPair.sub UIntPair.High8 r (UIntPair.mk 5 0)
    = Value (UIntPair.max UIntPair.High8).
Proof.
  assert (Hx : UIntPair.valid UIntPair.High8 (UIntPair.max UIntPair.High8))
    by (vm_compute; repeat split; congruence).
  assert (Hy : UIntPair.valid UIntPair.High8 (UIntPair.mk 5 0))
    by (vm_compute; repeat split; congruence).
  destruct (add_sub_compose UIntPair.High8 _ _ Hx Hy)
    as ((r & Hr & _ & Hs) & _).
  exists r. split; assumption.
Defined.

(** X4. The six comparison operators describe one total order: exactly one
    of [<], [==], [>] holds; [<=], [>=] and [!=] are the negations of [>],
    [<] and [==]; [==] holds only between equal pairs; and every pair lies
    between [min()] and [max()]. *)
Theorem comparisons_total_order (H : UIntPair.high_type) (x y : UIntPair.t) :
  UIntPair.valid H x -> UIntPair.valid H y ->
  (UIntPair.ltb x y = true /\ UIntPair.eqb x y = false
                           /\ UIntPair.gtb x y = false \/
   UIntPair.ltb x y = false /\ UIntPair.eqb x y = true
                            /\ UIntPair.gtb x y = false \/
   UIntPair.ltb x y = false /\ UIntPair.eqb x y = false
                            /\ UIntPair.gtb x y = true) /\
  UIntPair.leb x y = negb (UIntPair.gtb x y) /\
  UIntPair.geb x y = negb (UIntPair.ltb x y) /\
  UIntPair.neb x y = negb (UIntPair.eqb x y) /\
  UIntPair.gtb x y = UIntPair.ltb y x /\
  (UIntPair.eqb x y = true <-> x = y) /\
  UIntPair.leb UIntPair.min x = true /\
  UIntPair.leb x (UIntPair.max H) = true.
Proof.
  intros [Hxl Hxh] [Hyl Hyh].
  destruct x as [xl xh], y as [yl yh].
  unfold UIntPair.ltb, UIntPair.eqb, UIntPair.gtb, UIntPair.leb, UIntPair.geb,
    UIntPair.neb, UIntPair.min, UIntPair.max, UIntPair.low_max,
    UIntPair.high_max, in_range, Z.gtb, Z.geb in *.
  cbn [UIntPair.low_ UIntPair.high_] in *.
  repeat split;
    repeat match goal with
      | |- context [?a =? ?b] => destruct (Z.eqb_spec a b)
      | |- context [?a <? ?b] => destruct (Z.ltb_spec a b)
      | |- context [?a <=? ?b] => destruct (Z.leb_spec a b)
      | |- context [?a ?= ?b] => destruct (Z.compare_spec a b)
      end; simpl; try reflexivity; try congruence; try lia;
    try (intros; discriminate);
    try (intros He; injection He; intros; lia);
    try (left; repeat split; reflexivity || lia);
    try (right; left; repeat split; reflexivity || lia);
    try (right; right; repeat split; reflexivity || lia).
Qed.

Lemma comparisons_total_order_witness :
  UIntPair.leb (UIntPair.mk 4294967295 3) (UIntPair.mk 0 4)
  = negb (UIntPair.gtb (UIntPair.mk 4294967295 3) (UIntPair.mk 0 4)).
Proof.
  assert (Hx : UIntPair.valid UIntPair.High8 (UIntPair.mk 4294967295 3))
    by (vm_compute; repeat split; congruence).
  assert (Hy : UIntPair.valid UIntPair.High8 (UIntPair.mk 0 4))
    by (vm_compute; repeat split; congruence).
  exact (proj1 (proj2 (comparisons_total_order UIntPair.High8 _ _ Hx Hy))).
Defined.

(** X5. The constructors from the signed types differ on negative values:
    from [int32_t] a negative value is sign-extended to the packed width
    (the pair holds [a mod 2^digits]), while from [int64_t] a negative value
    trips the overflow assertion; non-negative values that fit and [uint32_t]
    values are kept as they are. *)
Theorem signed_constructors (H : UIntPair.high_type) (a b c : Z) :
  - 2 ^ 31 <= a < 2 ^ 31 -> - 2 ^ 63 <= b < 2 ^ 63 -> 0 <= c < 2 ^ 32 ->
  UIntPair.valid H (UIntPair.of_int32 H a) /\
  UIntPair.ull (UIntPair.of_int32 H a) = a mod 2 ^ UIntPair.digits H /\
  (b < 0 -> UIntPair.of_int64 H b = AssertionFailure) /\
  (0 <= b < 2 ^ UIntPair.digits H ->
   exists x, UIntPair.of_int64 H b = Value x /\ UIntPair.ull x = b) /\
  UIntPair.ull (UIntPair.of_uint32 H c) = c.
Proof.
  intros Ha Hb Hc.
  assert (Hv : UIntPair.valid H (UIntPair.of_int32 H a))
    by (unfold UIntPair.of_int32; destruct (a >=? 0); apply valid_wrapped).
  assert (Hd : 2 ^ UIntPair.digits H <= 2 ^ 63)
    by (destruct H; vm_compute; congruence).
  split; [exact Hv |]. split; [| split; [| split]].
  - rewrite (ull_eq H _ Hv). unfold UIntPair.of_int32.
    destruct (Z.geb_spec a 0); cbn [UIntPair.low_ UIntPair.high_];
      unfold UIntPair.to_Low, UIntPair.to_High, UIntPair.high_max,
        UIntPair.digits, UIntPair.low_bits, wrap;
      destruct H; simpl UIntPair.high_bits; pow2;
      Z.div_mod_to_equations; lia.
  - intros Hneg. unfold UIntPair.of_int64. apply of_ull_assert.
    unfold wrap64, wrap. pow2. Z.div_mod_to_equations. lia.
  - intros Hfit. unfold UIntPair.of_int64, wrap64.
    rewrite wrap_small by (pow2; lia).
    rewrite of_ull_value by exact Hfit.
    eexists. split; [reflexivity |].
    rewrite of_ull_parts_ull by lia. apply Z.mod_small. exact Hfit.
  - unfold UIntPair.of_uint32. rewrite (ull_eq H _ (valid_wrapped H c 0)).
    cbn [UIntPair.low_ UIntPair.high_].
    unfold UIntPair.to_Low, UIntPair.to_High, UIntPair.low_bits, wrap.
    destruct H; simpl UIntPair.high_bits; pow2; Z.div_mod_to_equations; lia.
Qed.

Lemma signed_constructors_witness :
  UIntPair.ull (UIntPair.of_int32 UIntPair.High8 (-1))
  = (-1) mod 2 ^ UIntPair.digits UIntPair.High8 /\
  UIntPair.of_int64 UIntPair.High8 (-1) = AssertionFailure.
Proof.
  assert (Ha : - 2 ^ 31 <= -1 < 2 ^ 31) by (vm_compute; split; congruence).
  assert (Hb : - 2 ^ 63 <= -1 < 2 ^ 63) by (vm_compute; split; congruence).
  assert (Hc : 0 <= 0 < 2 ^ 32) by (vm_compute; split; congruence).
  destruct (signed_constructors UIntPair.High8 (-1) (-1) 0 Ha Hb Hc)
    as (_ & Hu & Hn & _).
  split; [exact Hu | apply Hn; reflexivity].
Defined.

(** X6. With the assertion compiled out, the constructor from a 64-bit
    value keeps the value modulo [2^digits]: its member initialisers mask
    both parts, so the pair is always well formed. *)
Theorem constructor_truncates (H : UIntPair.high_type) (a : Z) :
  0 <= a < 2 ^ 64 ->
  UIntPair.valid H (UIntPair.of_ull_parts H a) /\
  UIntPair.ull (UIntPair.of_ull_parts H a) = a mod 2 ^ UIntPair.digits H.
Proof.
  intros Ha. split; [apply of_ull_parts_valid |].
  apply of_ull_parts_ull. lia.
Qed.

Lemma constructor_truncates_witness :
  UIntPair.ull (UIntPair.of_ull_parts UIntPair.High8 (2 ^ 40 + 9))
  = (2 ^ 40 + 9) mod 2 ^ UIntPair.digits UIntPair.High8.
Proof.
  assert (Ha : 0 <= 2 ^ 40 + 9 < 2 ^ 64) by (vm_compute; split; congruence).
  exact (proj2 (constructor_truncates UIntPair.High8 _ Ha)).
Defined.

(** X7. [operator>>=] divides the widened value by [2^shift] and never
    trips the constructor's assertion, for every shift count below 64. *)
Theorem shift_right_assign (H : UIntPair.high_type) (x : UIntPair.t)
  (shift : Z) :
  UIntPair.valid H x -> 0 <= shift < 64 ->
  exists r, UIntPair.shr_assign H x shift = Value r /\
            UIntPair.valid H r /\
            UIntPair.ull r = UIntPair.ull x / 2 ^ shift.
Proof.
  intros Hx Hs. pose proof (ull_bounds H x Hx) as Hb.
  assert (Hp : 0 < 2 ^ shift) by (apply Z.pow_pos_nonneg; lia).
  assert (Hq : 0 <= UIntPair.ull x / 2 ^ shift <= UIntPair.ull x).
  { split; [apply Z.div_pos; lia |].
    apply Z.div_le_upper_bound; [lia |]. nia. }
  assert (Hd : 2 ^ UIntPair.digits H <= 2 ^ 64)
    by (destruct H; vm_compute; congruence).
  unfold UIntPair.shr_assign, UIntPair.of_uint64, wrap64.
  rewrite Z.shiftr_div_pow2 by lia.
  rewrite wrap_small by lia.
  rewrite of_ull_value by lia.
  eexists. split; [reflexivity |]. split; [apply of_ull_parts_valid |].
  rewrite of_ull_parts_ull by lia. apply Z.mod_small. lia.
Qed.

Lemma shift_right_assign_witness :
  exists r, UIntPair.shr_assign UIntPair.High16 (UIntPair.mk 0 4) 33 = Value r /\
            UIntPair.ull r = UIntPair.ull (UIntPair.mk 0 4) / 2 ^ 33.
Proof.
  assert (Hx : UIntPair.valid UIntPair.High16 (UIntPair.mk 0 4))
    by (vm_compute; repeat split; congruence).
  assert (Hs : 0 <= 33 < 64) by lia.
  destruct (shift_right_assign UIntPair.High16 _ 33 Hx Hs) as (r & Hr & _ & Hu).
  exists r. split; assumption.
Defined.

(** ** Flags *)

(** X9. On a packed index the flag is the top bit of the widened value:
    [is_flagged] tests it and [add_flag] sets it, on uint40_t and uint48_t,
    and [remove_flag], on uint40_t, clears it, each leaving the lower
    [digits - 1] bits alone. *)
Theorem pair_flag_is_top_bit (H : UIntPair.high_type) (x y : UIntPair.t) :
  UIntPair.valid H x -> UIntPair.valid UIntPair.High8 y ->
  flag_type_bitset.is_flagged_pair H x
  = (2 ^ (UIntPair.digits H - 1) <=? UIntPair.ull x) /\
  UIntPair.ull (flag_type_bitset.add_flag_pair H x)
  = UIntPair.ull x mod 2 ^ (UIntPair.digits H - 1)
    + 2 ^ (UIntPair.digits H - 1) /\
  UIntPair.ull (flag_type_bitset.remove_flag_pair y)
  = UIntPair.ull y mod 2 ^ (UIntPair.digits UIntPair.High8 - 1).
Proof.
  intros Hx Hy.
  assert (Hb : 1 <= UIntPair.high_bits H) by (destruct H; simpl; lia).
  assert (Hp : 0 < 2 ^ (UIntPair.high_bits H - 1))
    by (apply Z.pow_pos_nonneg; lia).
  assert (H2 : 2 ^ UIntPair.high_bits H = 2 * 2 ^ (UIntPair.high_bits H - 1))
    by (destruct H; reflexivity).
  pose proof (Z.mod_pos_bound (UIntPair.high_ x)
                (2 ^ (UIntPair.high_bits H - 1)) Hp) as Hm.
  assert (Ha : UIntPair.valid H (flag_type_bitset.add_flag_pair H x)).
  { rewrite add_flag_pair_eq by assumption. destruct Hx as [Hl _].
    split; [exact Hl |]. unfold in_range. simpl. lia. }
  assert (Hr : UIntPair.valid UIntPair.High8
                 (flag_type_bitset.remove_flag_pair y)).
  { rewrite remove_flag_pair_eq by assumption. destruct Hy as [Hl _].
    split; [exact Hl |]. unfold in_range. simpl.
    change (2 ^ (8 - 1)) with 128. change (2 ^ 8) with 256.
    pose proof (Z.mod_pos_bound (UIntPair.high_ y) 128). lia. }
  rewrite (ull_eq H _ Ha), (ull_eq _ _ Hr), (ull_eq H x Hx), (ull_eq _ y Hy).
  rewrite is_flagged_pair_spec, add_flag_pair_eq, remove_flag_pair_eq
    by assumption.
  cbn [UIntPair.low_ UIntPair.high_].
  destruct Hx as [Hl Hh], Hy as [Hyl Hyh].
  unfold in_range, UIntPair.digits, UIntPair.low_bits in *.
  split; [| split].
  - destruct H; simpl UIntPair.high_bits in *; simpl Z.sub; pow2;
      repeat match goal with
        | |- context [?a <=? ?b] => destruct (Z.leb_spec a b)
        end; try reflexivity; lia.
  - destruct H; simpl UIntPair.high_bits in *; simpl Z.sub; pow2;
      Z.div_mod_to_equations; lia.
  - simpl UIntPair.high_bits in *; simpl Z.sub; pow2;
      Z.div_mod_to_equations; lia.
Qed.

Lemma pair_flag_is_top_bit_witness :
  UIntPair.ull (flag_type_bitset.remove_flag_pair (UIntPair.mk 6 129))
  = UIntPair.ull (UIntPair.mk 6 129)
    mod 2 ^ (UIntPair.digits UIntPair.High8 - 1).
Proof.
  assert (Hx : UIntPair.valid UIntPair.High16 (UIntPair.mk 6 40000))
    by (vm_compute; repeat split; congruence).
  assert (Hy : UIntPair.valid UIntPair.High8 (UIntPair.mk 6 129))
    by (vm_compute; repeat split; congruence).
  exact (proj2 (proj2 (pair_flag_is_top_bit UIntPair.High16 _ _ Hx Hy))).
Defined.

(** X10. On [uint32_t] and [uint64_t] the flag round trip holds: untagging
    a tagged value gives the value without its top bit (the value itself
    when it was untagged), tagging is idempotent, [is_flagged] is true after
    tagging and false after untagging, and [conditional_add_flag(b, t)] on an
    untagged [t] can be undone and reports [b]. *)
Theorem flag_roundtrip_wide_types (T : uint_type) (t : Z) (b : bool) :
  32 <= bits_of T -> in_range (bits_of T) t ->
  flag_type_bitset.remove_flag T (flag_type_bitset.add_flag T t)
  = t mod 2 ^ (bits_of T - 1) /\
  flag_type_bitset.add_flag T (flag_type_bitset.add_flag T t)
  = flag_type_bitset.add_flag T t /\
  flag_type_bitset.is_flagged T (flag_type_bitset.add_flag T t) = true /\
  flag_type_bitset.is_flagged T (flag_type_bitset.remove_flag T t) = false /\
  (t < 2 ^ (bits_of T - 1) ->
   flag_type_bitset.remove_flag T
     (flag_type_bitset.conditional_add_flag T b t) = t /\
   flag_type_bitset.is_flagged T
     (flag_type_bitset.conditional_add_flag T b t) = b).
Proof.
  intros Hw Ht.
  assert (Hp : 0 < 2 ^ (bits_of T - 1)) by (apply Z.pow_pos_nonneg; lia).
  assert (H2 : 2 ^ bits_of T = 2 * 2 ^ (bits_of T - 1))
    by (destruct T; reflexivity).
  pose proof (Z.mod_pos_bound t (2 ^ (bits_of T - 1)) Hp) as Hm.
  assert (Ha : in_range (bits_of T) (flag_type_bitset.add_flag T t))
    by (rewrite add_flag_eq by assumption; unfold in_range; lia).
  assert (Hra : flag_type_bitset.remove_flag T (flag_type_bitset.add_flag T t)
                = t mod 2 ^ (bits_of T - 1)).
  { rewrite remove_flag_wide, add_flag_eq by assumption.
    rewrite <- Zplus_mod_idemp_r, Z.mod_same, Z.add_0_r, Z.mod_mod by lia.
    reflexivity. }
  assert (Hfa : flag_type_bitset.is_flagged T (flag_type_bitset.add_flag T t)
                = true).
  { rewrite is_flagged_spec, add_flag_eq by assumption. apply Z.leb_le. lia. }
  split; [exact Hra |]. split; [| split; [exact Hfa |]; split].
  - rewrite (add_flag_eq T (flag_type_bitset.add_flag T t)) by exact Ha.
    rewrite (add_flag_eq T t) by exact Ht.
    rewrite <- Zplus_mod_idemp_r, Z.mod_same, Z.add_0_r, Z.mod_mod by lia.
    reflexivity.
  - rewrite remove_flag_wide by assumption.
    rewrite is_flagged_spec by (unfold in_range; lia). apply Z.leb_gt. lia.
  - intros Hu. unfold in_range in Ht. destruct b.
    + rewrite conditional_add_flag_true. split; [| exact Hfa].
      rewrite Hra. apply Z.mod_small. lia.
    + rewrite conditional_add_flag_false by exact Ht.
      rewrite remove_flag_wide by assumption.
      split; [apply Z.mod_small; lia |].
      rewrite is_flagged_spec by exact Ht. apply Z.leb_gt. lia.
Qed.

Lemma flag_roundtrip_wide_types_witness :
  flag_type_bitset.remove_flag U32 (flag_type_bitset.add_flag U32 4000000000)
  = 4000000000 mod 2 ^ (bits_of U32 - 1).
Proof.
  assert (Hw : 32 <= bits_of U32) by (simpl; lia).
  assert (Ht : in_range (bits_of U32) 4000000000)
    by (vm_compute; split; congruence).
  exact (proj1 (flag_roundtrip_wide_types U32 _ true Hw Ht)).
Defined.

(** X11. On uint40_t the flag round trip holds, the lower part never being
    touched: untagging after tagging equals untagging, tagging is
    idempotent, [is_flagged] is true after tagging and false after
    untagging, and an untagged pair survives tag-then-untag unchanged. *)
Theorem flag_roundtrip_packed (x : UIntPair.t) :
  UIntPair.valid UIntPair.High8 x ->
  flag_type_bitset.remove_flag_pair
    (flag_type_bitset.add_flag_pair UIntPair.High8 x)
  = flag_type_bitset.remove_flag_pair x /\
  flag_type_bitset.add_flag_pair UIntPair.High8
    (flag_type_bitset.add_flag_pair UIntPair.High8 x)
  = flag_type_bitset.add_flag_pair UIntPair.High8 x /\
  flag_type_bitset.is_flagged_pair UIntPair.High8
    (flag_type_bitset.add_flag_pair UIntPair.High8 x) = true /\
  flag_type_bitset.is_flagged_pair UIntPair.High8
    (flag_type_bitset.remove_flag_pair x) = false /\
  UIntPair.low_ (flag_type_bitset.add_flag_pair UIntPair.High8 x)
  = UIntPair.low_ x /\
  UIntPair.low_ (flag_type_bitset.remove_flag_pair x) = UIntPair.low_ x /\
  (flag_type_bitset.is_flagged_pair UIntPair.High8 x = false ->
   flag_type_bitset.remove_flag_pair
     (flag_type_bitset.add_flag_pair UIntPair.High8 x) = x).
Proof.
  intros Hv. set (H := UIntPair.High8) in *.
  assert (Hp : 0 < 2 ^ (UIntPair.high_bits H - 1)) by reflexivity.
  assert (H2 : 2 ^ UIntPair.high_bits H = 2 * 2 ^ (UIntPair.high_bits H - 1))
    by reflexivity.
  pose proof (Z.mod_pos_bound (UIntPair.high_ x)
                (2 ^ (UIntPair.high_bits H - 1)) Hp) as Hm.
  assert (Ha : UIntPair.valid H (flag_type_bitset.add_flag_pair H x)).
  { rewrite add_flag_pair_eq by assumption. destruct Hv as [Hl _].
    split; [exact Hl |]. unfold in_range.
    cbn [UIntPair.low_ UIntPair.high_]. lia. }
  assert (Hr : UIntPair.valid H (flag_type_bitset.remove_flag_pair x)).
  { rewrite remove_flag_pair_eq by assumption. destruct Hv as [Hl _].
    split; [exact Hl |]. unfold in_range.
    cbn [UIntPair.low_ UIntPair.high_]. fold H. lia. }
  assert (Hmm : (UIntPair.high_ x mod 2 ^ (UIntPair.high_bits H - 1)
                 + 2 ^ (UIntPair.high_bits H - 1))
                mod 2 ^ (UIntPair.high_bits H - 1)
                = UIntPair.high_ x mod 2 ^ (UIntPair.high_bits H - 1)).
  { rewrite <- Zplus_mod_idemp_r, Z.mod_same, Z.add_0_r, Z.mod_mod by lia.
    reflexivity. }
  assert (Hra : flag_type_bitset.remove_flag_pair
                  (flag_type_bitset.add_flag_pair H x)
                = flag_type_bitset.remove_flag_pair x).
  { rewrite (remove_flag_pair_eq _ Ha), (remove_flag_pair_eq _ Hv).
    rewrite add_flag_pair_eq by assumption.
    cbn [UIntPair.low_ UIntPair.high_]. fold H. now rewrite Hmm. }
  split; [exact Hra |]. split; [| split; [| split; [| split; [| split]]]].
  - rewrite (add_flag_pair_eq H _ Ha). rewrite add_flag_pair_eq by assumption.
    cbn [UIntPair.low_ UIntPair.high_]. now rewrite Hmm.
  - rewrite is_flagged_pair_spec, add_flag_pair_eq by assumption.
    cbn [UIntPair.low_ UIntPair.high_]. apply Z.leb_le. lia.
  - rewrite is_flagged_pair_spec, remove_flag_pair_eq by assumption.
    cbn [UIntPair.low_ UIntPair.high_]. fold H. apply Z.leb_gt. lia.
  - now rewrite add_flag_pair_eq.
  - now rewrite remove_flag_pair_eq.
  - intros Hf. rewrite Hra, remove_flag_pair_eq by assumption.
    rewrite is_flagged_pair_spec in Hf by assumption.
    apply Z.leb_gt in Hf. destruct Hv as [_ Hh]. unfold in_range in Hh.
    fold H. rewrite Z.mod_small by lia. now destruct x.
Qed.

Lemma flag_roundtrip_packed_witness :
  flag_type_bitset.remove_flag_pair
    (flag_type_bitset.add_flag_pair UIntPair.High8 (UIntPair.mk 3 200))
  = flag_type_bitset.remove_flag_pair (UIntPair.mk 3 200).
Proof.
  assert (Hx : UIntPair.valid UIntPair.High8 (UIntPair.mk 3 200))
    by (vm_compute; repeat split; congruence).
  exact (proj1 (flag_roundtrip_packed _ Hx)).
Defined.

(** ** Buffer and count types *)

Lemma sizeof_range (c : c_type) : 1 <= sizeof c <= 8.
Proof. destruct c as [[] | []]; vm_compute; split; congruence. Qed.

Lemma sizeof_min_range (c : c_type) (cs : list c_type) :
  1 <= sizeof_min c cs <= 8.
Proof.
  revert c. induction cs as [| c' cs IH]; intros c; simpl.
  - apply sizeof_range.
  - pose proof (sizeof_range c). pose proof (IH c'). lia.
Qed.

Lemma sizeof_min_le (c : c_type) (cs : list c_type) (d : c_type) :
  d ∈ c :: cs -> sizeof_min c cs <= sizeof d.
Proof.
  revert c. induction cs as [| c' cs IH]; intros c Hd; simpl.
  - apply list_elem_of_singleton in Hd. subst. lia.
  - apply elem_of_cons in Hd as [-> | Hd]; [lia |].
    pose proof (IH c' Hd). lia.
Qed.

(** X12. The type selection of the driver: the count type can hold every
    value of the narrowest of the types it is computed from; the automatic
    buffer type is the 40-bit pair for index types of more than 5 bytes and
    the index type itself otherwise, passes [check_buffer_type], and is never
    wider than the index type; for a plain index type with the automatic
    buffer the count type has 64 bits exactly for [uint64_t]. *)
Theorem type_selection (c : c_type) (cs : list c_type) (T : uint_type) :
  8 * sizeof_min c cs <= bits_of (get_count_type c cs) /\
  (exists d, d ∈ c :: cs /\ sizeof d = sizeof_min c cs) /\
  check_buffer_type auto_buffer_type c (get_buffer_type auto_buffer_type c)
  = true /\
  sizeof (get_buffer_type auto_buffer_type c) <= sizeof c /\
  (get_buffer_type auto_buffer_type c = uint40_t \/
   get_buffer_type auto_buffer_type c = c /\ sizeof c <= 5) /\
  bits_of (get_count_type (Plain T)
             [get_buffer_type auto_buffer_type (Plain T)])
  = count_bits T.
Proof.
  split; [| split; [| split; [| split; [| split]]]].
  - unfold get_count_type. pose proof (sizeof_min_range c cs).
    destruct (Z.gtb_spec (sizeof_min c cs) 4); simpl; lia.
  - revert c. induction cs as [| c' cs IH]; intros c; simpl.
    + exists c. split; [apply list_elem_of_singleton |]; reflexivity.
    + destruct (IH c') as (d & Hd & He).
      destruct (Z.min_spec (sizeof c) (sizeof_min c' cs)) as [[_ ->] | [_ ->]].
      * exists c. split; [apply elem_of_cons; now left | reflexivity].
      * exists d. split; [apply elem_of_cons; now right | exact He].
  - destruct c as [[] | []]; reflexivity.
  - destruct c as [[] | []]; vm_compute; congruence.
  - destruct c as [[] | []]; simpl;
      (left; reflexivity) || (right; split; [reflexivity | vm_compute; congruence]).
  - destruct T; reflexivity.
Qed.

(** ** The suffix-array view *)

(** X13. Writing a slot of the view and reading it back gives the written
    value and changes no other slot; writes to slots 0 and 1 land in the side
    slots and leave the caller's buffer as it is, writes to slot [i >= 2]
    land in entry [i - 2] of the caller's buffer and leave the side slots as
    they are; the capacity never changes. *)
Theorem sa_set_then_get (s s' : sa_type) (i j v : Z) :
  0 <= i -> 0 <= j -> sa_set s i v = Some s' ->
  sa_get s' i = Some v /\
  (j <> i -> sa_get s' j = sa_get s j) /\
  length (sa s') = length (sa s) /\
  sa_n s' = sa_n s /\
  (i <= 1 -> sa s' = sa s) /\
  (2 <= i -> sa01 s' = sa01 s /\ sa s' !! Z.to_nat (i - 2) = Some v).
Proof.
  intros Hi Hj Hset. unfold sa_set in Hset. unfold sa_get.
  destruct (Z.ltb_spec 1 i) as [Hlt | Hge].
  - destruct (Nat.ltb_spec (Z.to_nat (i - 2)) (length (sa s))) as [Hin |];
      [| discriminate].
    injection Hset as <-. simpl.
    split; [now apply list_lookup_insert_eq |].
    split.
    { intros Hne. destruct (Z.ltb_spec 1 j); [| reflexivity].
      apply list_lookup_insert_ne. lia. }
    split; [apply length_insert |]. split; [reflexivity |].
    split; [lia |]. intros _. split; [reflexivity |].
    now apply list_lookup_insert_eq.
  - injection Hset as <-. simpl.
    split.
    { destruct (Z.eqb_spec i 0); reflexivity. }
    split.
    { intros Hne. destruct (Z.ltb_spec 1 j); [reflexivity |].
      destruct (Z.eqb_spec i 0), (Z.eqb_spec j 0); simpl;
        try reflexivity; lia. }
    split; [reflexivity |]. split; [reflexivity |].
    split; [reflexivity | lia].
Qed.

Lemma sa_set_then_get_witness :
  exists s', sa_set {| sa_n := 5; sa := [7; 8; 9]; sa01 := (0, 0) |} 3 42
             = Some s' /\
             sa_get s' 3 = Some 42.
Proof.
  assert (H3 : 0 <= 3) by lia.
  exists {| sa_n := 5; sa := [7; 42; 9]; sa01 := (0, 0) |}.
  split; [reflexivity |].
  exact (proj1 (sa_set_then_get
                  {| sa_n := 5; sa := [7; 8; 9]; sa01 := (0, 0) |}
                  {| sa_n := 5; sa := [7; 42; 9]; sa01 := (0, 0) |}
                  3 0 42 H3 (Z.le_refl 0) eq_refl)).
Defined.

(** X14. An access through the view leaves the array exactly when its index
    is 2 or more past the capacity of the caller's buffer; slots 0 and 1 are
    always in range, also over an empty buffer. Reads and writes fail on the
    same indices. *)
Theorem sa_access_bounds (s : sa_type) (i v : Z) :
  0 <= i ->
  (sa_get s i = None <-> Z.of_nat (length (sa s)) + 2 <= i) /\
  (sa_set s i v = None <-> Z.of_nat (length (sa s)) + 2 <= i).
Proof.
  intros Hi. unfold sa_get, sa_set.
  destruct (Z.ltb_spec 1 i) as [Hlt | Hge].
  - split.
    + rewrite lookup_ge_None. lia.
    + destruct (Nat.ltb_spec (Z.to_nat (i - 2)) (length (sa s)));
        split; intros; try discriminate; try reflexivity; lia.
  - split; (split; [discriminate | lia]).
Qed.

Lemma sa_access_bounds_witness :
  sa_get {| sa_n := 2; sa := []; sa01 := (0, 0) |} 2 = None /\
  sa_get {| sa_n := 2; sa := []; sa01 := (0, 0) |} 1 = Some 0.
Proof.
  assert (H2 : 0 <= 2) by lia.
  split.
  - apply (proj1 (sa_access_bounds {| sa_n := 2; sa := []; sa01 := (0, 0) |}
                    2 0 H2)). simpl. lia.
  - reflexivity.
Defined.

(** ** The text view *)

(** X15. Over a text with adjusted length [len + 2], the view never reads
    outside the text, whatever index it is asked for; it yields values of at
    most [2^64]; at interior positions it yields at least 1, so a zero byte
    of the text is never confused with a sentinel; and it preserves the order
    and the equality of symbols, the largest 64-bit symbol included. *)
Theorem text_view_safe_and_faithful (tx : text_type) (i j a b : Z) :
  wf_text tx ->
  (exists c, text_at tx i = Some c /\ 0 <= c <= 2 ^ 64) /\
  (0 < i < t_n tx - 1 -> 1 <= text_sym tx i) /\
  (i <= 0 \/ t_n tx - 1 <= i -> text_at tx i = Some 0) /\
  (0 < i -> 0 < j ->
   t_text tx !! Z.to_nat (i - 1) = Some a ->
   t_text tx !! Z.to_nat (j - 1) = Some b ->
   (text_sym tx i < text_sym tx j <-> a < b) /\
   (text_sym tx i = text_sym tx j <-> a = b)).
Proof.
  intros Hwf. pose proof Hwf as (Hn & Hb & Hr).
  rewrite Forall_forall in Hr.
  assert (Hint : forall k, 0 < k < t_n tx - 1 ->
            exists c, t_text tx !! Z.to_nat (k - 1) = Some c /\
                      0 <= c < 2 ^ 64 /\ text_sym tx k = c + 1).
  { intros k Hk.
    destruct (lookup_lt_is_Some_2 (t_text tx) (Z.to_nat (k - 1)) ltac:(lia))
      as [c Hc].
    exists c. split; [exact Hc |]. split.
    - apply Hr. eapply list_elem_of_lookup_2; eauto.
    - apply text_sym_interior; [exact Hwf | lia | exact Hc]. }
  split; [| split; [| split]].
  - rewrite text_at_total by exact Hwf. eexists. split; [reflexivity |].
    destruct (Z_lt_le_dec 0 i) as [Hi |];
      [| rewrite text_sym_boundary by (auto; lia); pow2; lia].
    destruct (Z_lt_le_dec i (t_n tx - 1)) as [Hi2 |];
      [| rewrite text_sym_boundary by (auto; lia); pow2; lia].
    destruct (Hint i ltac:(lia)) as (c & _ & Hc & ->). lia.
  - intros Hi. destruct (Hint i Hi) as (c & _ & Hc & ->). lia.
  - intros Hi. rewrite text_at_total by exact Hwf.
    now rewrite text_sym_boundary.
  - intros Hi Hj Ha Hb'.
    rewrite (text_sym_interior tx i a Hwf Hi Ha).
    rewrite (text_sym_interior tx j b Hwf Hj Hb'). lia.
Qed.

Lemma text_view_safe_and_faithful_witness :
  let tx := {| t_n := 4; t_text := [0; 18446744073709551615] |} in
  text_sym tx 1 < text_sym tx 2 /\ 1 <= text_sym tx 1.
Proof.
  cbv zeta.
  assert (Hwf : wf_text {| t_n := 4; t_text := [0; 18446744073709551615] |}).
  { split; [reflexivity |]. split; [reflexivity |].
    repeat constructor; vm_compute; congruence. }
  destruct (text_view_safe_and_faithful _ 1 2 0 18446744073709551615 Hwf)
    as (_ & Hpos & _ & Hord).
  split.
  - apply (proj1 (Hord ltac:(lia) ltac:(lia) eq_refl eq_refl)). lia.
  - apply Hpos. simpl. lia.
Defined.

(** ** Phase 0: the comparison, the sorted array and the groups *)

Lemma comp_pure (tx : text_type) (a b : Z) :
  wf_text tx -> 0 <= a < 2 ^ 64 -> 0 <= b < 2 ^ 64 ->
  comp tx a b = Some (comp_ltb tx a b).
Proof.
  intros Hwf Ha Hb. unfold comp, comp_ltb, wrap64.
  rewrite !wrap_small by assumption.
  rewrite !text_at_total by assumption. reflexivity.
Qed.

Lemma comp_ltb_spec (tx : text_type) (a b : Z) :
  comp_ltb tx a b = true <-> prefix_lt tx a b.
Proof.
  unfold comp_ltb, prefix_lt.
  rewrite orb_true_iff, andb_true_iff, !Z.ltb_lt, Z.eqb_eq. reflexivity.
Qed.

Lemma comp_leb_spec (tx : text_type) (a b : Z) :
  comp_leb tx a b = true <-> ~ prefix_lt tx b a.
Proof.
  unfold comp_leb. rewrite negb_true_iff, <- comp_ltb_spec.
  destruct (comp_ltb tx b a); split; congruence.
Qed.

Lemma comp_leb_total (tx : text_type) (a b : Z) :
  comp_leb tx a b = true \/ comp_leb tx b a = true.
Proof. rewrite !comp_leb_spec. unfold prefix_lt. lia. Qed.

Lemma comp_leb_trans (tx : text_type) (a b c : Z) :
  comp_leb tx a b = true -> comp_leb tx b c = true -> comp_leb tx a c = true.
Proof. rewrite !comp_leb_spec. unfold prefix_lt. lia. Qed.

(** X16. The lambda [comp] is a strict total order on index values: it
    never fails on a well-formed text, it orders by the view's symbol and
    breaks ties by position, it is irreflexive, asymmetric and transitive,
    and it decides every pair of distinct values. The sort it is handed to
    therefore has exactly one possible result. *)
Theorem comp_strict_total_order (tx : text_type) (a b c : Z) :
  wf_text tx -> 0 <= a < 2 ^ 64 -> 0 <= b < 2 ^ 64 -> 0 <= c < 2 ^ 64 ->
  (comp tx a b = Some true <->
   text_sym tx a < text_sym tx b \/
   (text_sym tx a = text_sym tx b /\ a < b)) /\
  (comp tx a b = Some true \/ comp tx a b = Some false) /\
  comp tx a a = Some false /\
  (comp tx a b = Some true -> comp tx b a = Some false) /\
  (comp tx a b = Some true -> comp tx b c = Some true ->
   comp tx a c = Some true) /\
  (a <> b -> comp tx a b = Some true \/ comp tx b a = Some true).
Proof.
  intros Hwf Ha Hb Hc.
  rewrite !comp_pure by assumption.
  assert (Hs : forall x y, Some (comp_ltb tx x y) = Some true
                           <-> prefix_lt tx x y).
  { intros x y. rewrite <- comp_ltb_spec. split; congruence. }
  assert (Hf : forall x y, Some (comp_ltb tx x y) = Some false
                           <-> ~ prefix_lt tx x y).
  { intros x y. rewrite <- comp_ltb_spec.
    destruct (comp_ltb tx x y); split; congruence. }
  rewrite !Hs, !Hf. unfold prefix_lt.
  split; [reflexivity |]. repeat split; lia.
Qed.

Lemma comp_strict_total_order_witness :
  let tx := {| t_n := 4; t_text := [98; 97] |} in
  comp tx 2 1 = Some true /\ comp tx 1 2 = Some false.
Proof.
  cbv zeta.
  assert (Hwf : wf_text {| t_n := 4; t_text := [98; 97] |}).
  { split; [reflexivity |]. split; [reflexivity |].
    repeat constructor; vm_compute; congruence. }
  assert (H1 : 0 <= 1 < 2 ^ 64) by (vm_compute; split; congruence).
  assert (H2 : 0 <= 2 < 2 ^ 64) by (vm_compute; split; congruence).
  destruct (comp_strict_total_order _ 2 1 1 Hwf H2 H1 H1)
    as (_ & _ & _ & Hasym & _).
  split; [reflexivity | apply Hasym; reflexivity].
Defined.

(** On index values the monadic insertion sort by [comp] is the pure one by
    [comp_leb]. *)
Lemma insert_by_pure (tx : text_type) (x : Z) (l : list Z) :
  wf_text tx -> 0 <= x < 2 ^ 64 -> Forall (fun v => 0 <= v < 2 ^ 64) l ->
  insert_by (comp tx) x l = Some (insert_leb (comp_leb tx) x l).
Proof.
  intros Hwf Hx Hl. induction Hl as [| y l Hy Hl IH]; simpl; [reflexivity |].
  rewrite comp_pure by assumption. cbn [mbind option_bind].
  unfold comp_leb at 1. destruct (comp_ltb tx y x); simpl.
  - rewrite IH. reflexivity.
  - reflexivity.
Qed.

Lemma sort_by_pure (tx : text_type) (l : list Z) :
  wf_text tx -> Forall (fun v => 0 <= v < 2 ^ 64) l ->
  sort_by (comp tx) l = Some (isort (comp_leb tx) l).
Proof.
  intros Hwf Hl. induction Hl as [| x l Hx Hl IH]; simpl; [reflexivity |].
  rewrite IH. cbn [mbind option_bind].
  apply insert_by_pure; [assumption | assumption |].
  apply Forall_forall. intros v Hv.
  rewrite (isort_perm (comp_leb tx) l) in Hv.
  rewrite Forall_forall in Hl. now apply Hl.
Qed.

Lemma isort_comp_sorted (tx : text_type) (l : list Z) :
  NoDup l -> StronglySorted (prefix_lt tx) (isort (comp_leb tx) l).
Proof.
  intros Hnd.
  assert (Hs : StronglySorted (fun a b => comp_leb tx a b = true)
                 (isort (comp_leb tx) l))
    by (apply isort_sorted; [apply comp_leb_total | apply comp_leb_trans]).
  assert (Hnd' : NoDup (isort (comp_leb tx) l)) by (now rewrite isort_perm).
  induction Hs as [| x r Hs IH Hx]; constructor.
  - apply IH. now inversion Hnd'.
  - inversion Hnd' as [| ? ? Hnotin _]; subst.
    rewrite Forall_forall in *. intros y Hy.
    specialize (Hx y Hy). apply comp_leb_spec in Hx.
    assert (x <> y) by (intros ->; contradiction).
    unfold prefix_lt in *. lia.
Qed.

Lemma sa_ext (s s' : sa_type) :
  logical s = logical s' -> sa_n s = sa_n s' -> s = s'.
Proof.
  destruct s as [n b [x y]], s' as [n' b' [x' y']]. unfold logical. simpl.
  intros Hl Hn. injection Hl as -> -> ->. now subst.
Qed.

Lemma sort_range_detail (tx : text_type) (s : sa_type) :
  wf_text tx -> Forall (fun v => 0 <= v < 2 ^ 64) (sa s) ->
  sort_range tx s (Z.of_nat (length (sa s)))
  = Some {| sa_n := sa_n s; sa := isort (comp_leb tx) (sa s);
            sa01 := sa01 s |}.
Proof.
  intros Hwf Hr. unfold sort_range. rewrite Nat2Z.id, Nat.leb_refl.
  rewrite firstn_all, drop_all, sort_by_pure by assumption.
  cbn [mbind option_bind]. now rewrite app_nil_r.
Qed.

(** The positions of a text of [len] symbols in the order phase 0 leaves
    them. *)
Lemma sorted_positions (tx : text_type) :
  wf_text tx ->
  let sorted := isort (comp_leb tx) (zrange (length (t_text tx)) 1) in
  sorted ≡ₚ zrange (length (t_text tx)) 1 /\
  StronglySorted (prefix_lt tx) sorted /\
  (forall p, p ∈ sorted <-> 0 < p < t_n tx - 1).
Proof.
  intros (Hn & _). cbv zeta.
  split; [apply isort_perm |]. split; [apply isort_comp_sorted, NoDup_zrange |].
  intros p. rewrite isort_perm, elem_of_zrange. lia.
Qed.

(** Phase 0 in full: the array it leaves and the loop that produced the
    groups, none of which depends on what the buffer held before. *)
Lemma phase0_detail (F : flag_policy) (T : uint_type) (tx : text_type)
  (s : sa_type) :
  wf_text tx -> addressable T (t_n tx) ->
  length (sa s) = length (t_text tx) ->
  let sorted := isort (comp_leb tx) (zrange (length (t_text tx)) 1) in
  let s4 := {| sa_n := sa_n s; sa := sorted; sa01 := (0, t_n tx - 1) |} in
  exists st,
    for_range 2 (t_n tx - 1) (gsize_body T tx s4) gsize_start = Some st /\
    sort_by_prefix_parallel F T tx s
    = Some ({| sa_n := sa_n s; sa := map (flag_entry F T tx) sorted;
               sa01 := (t_n tx - 1, 0) |},
            result st ++ [new_group (left_border st) (gsize st)]).
Proof.
  intros Hwf [Hw Hc] Hlen. cbv zeta.
  pose proof Hwf as (Hn & Hb & _).
  remember (length (t_text tx)) as len eqn:Hlen'.
  pose proof (count_bits_le T) as Hcb.
  pose proof (bits_of_pos T) as Hbits.
  set (sorted := isort (comp_leb tx) (zrange len 1)).
  assert (Hsl : length sorted = len)
    by (unfold sorted; now rewrite isort_perm, length_zrange).
  unfold sort_by_prefix_parallel.
  rewrite (wrap_small (count_bits T) (t_n tx)) by lia.
  rewrite (wrap_small (count_bits T) (t_n tx - 1)) by lia.
  rewrite (wrap_small (count_bits T) (t_n tx - 2)) by lia.
  rewrite (wrap_small (bits_of T) (t_n tx - 1)) by lia.
  destruct (sa_set_logical s 0 0) as (s1 & Hs1 & Hl1 & Hn1);
    [lia | simpl; lia |].
  step_bind Hs1.
  destruct (sa_set_logical s1 1 (t_n tx - 1)) as (s2 & Hs2 & Hl2 & Hn2);
    [lia | rewrite Hl1; simpl; lia |].
  step_bind Hs2.
  rewrite Hl1 in Hl2. simpl in Hl2.
  destruct (logical_inv _ _ _ _ Hl2) as (Ha2 & Hb2 & Hbuf2).
  destruct (fill_loop T s2 len) as (s3 & Hs3 & Hl3 & Hn3);
    [congruence | split; lia |].
  replace (Z.of_nat len + 1) with (t_n tx - 1) in Hs3 by lia.
  step_bind Hs3.
  rewrite Ha2, Hb2 in Hl3.
  destruct (logical_inv _ _ _ _ Hl3) as (Ha3 & Hb3 & Hbuf3).
  assert (Hr3 : Forall (fun v => 0 <= v < 2 ^ 64) (sa s3)).
  { rewrite Hbuf3. apply Forall_forall. intros v Hv.
    apply elem_of_zrange in Hv. lia. }
  pose proof (sort_range_detail tx s3 Hwf Hr3) as Hs4.
  rewrite Hbuf3, length_zrange in Hs4.
  replace (Z.of_nat len) with (t_n tx - 2) in Hs4 by lia.
  step_bind Hs4. fold sorted.
  assert (He4 : {| sa_n := sa_n s3; sa := sorted; sa01 := sa01 s3 |}
                = {| sa_n := sa_n s; sa := sorted; sa01 := (0, t_n tx - 1) |}).
  { apply sa_ext; [| simpl; congruence].
    unfold logical. simpl. now rewrite Ha3, Hb3. }
  rewrite He4.
  set (s4 := {| sa_n := sa_n s; sa := sorted; sa01 := (0, t_n tx - 1) |}).
  assert (Hlen4 : length (logical s4) = Z.to_nat (t_n tx))
    by (unfold logical, s4; simpl; lia).
  destruct (gsize_loop T tx s4 (t_n tx) gsize_start Hwf) as [st Hst];
    [lia | lia |].
  exists st. split; [exact Hst |].
  unfold gsize_start in Hst. step_bind Hst.
  unfold for_range. rewrite Z.sub_0_r, <- Hlen4.
  rewrite (for_loop_ext (flag_body F T tx) (map_body (flag_entry F T tx)))
    by (intros; now apply flag_body_map).
  destruct (map_loop (flag_entry F T tx) s4) as (s5 & Hs5 & Hl5 & Hn5).
  step_bind Hs5.
  destruct (sa_set_logical s5 0 (t_n tx - 1)) as (s6 & Hs6 & Hl6 & Hn6);
    [lia | rewrite Hl5; simpl; lia |].
  step_bind Hs6.
  destruct (sa_set_logical s6 1 0) as (s7 & Hs7 & Hl7 & Hn7);
    [lia | rewrite Hl6, Hl5; simpl; lia |].
  step_bind Hs7.
  do 2 f_equal. apply sa_ext.
  - rewrite Hl7, Hl6, Hl5. reflexivity.
  - simpl. rewrite Hn7, Hn6, Hn5. reflexivity.
Qed.

Lemma entry_position_flag_entry (F : flag_policy) (T : uint_type)
  (tx : text_type) (p : Z) :
  wf_text tx -> flag_room F T (t_n tx) -> 0 < p < t_n tx - 1 ->
  entry_position F T (flag_entry F T tx p) = p.
Proof.
  intros Hwf Hroom Hp. destruct F; simpl in *.
  - now destruct (flag_entry_bitset T tx p Hwf Hroom Hp) as (-> & _).
  - unfold flag_entry. now destruct (negb (p =? 0)).
Qed.

(** X17. Phase 0 leaves the logical array as follows: slot 0 holds the
    closing sentinel's position, slot 1 holds position 0, and the slots of
    the caller's buffer hold every interior position exactly once, in
    ascending order of leading symbol with ties in ascending position; under
    [flag_type_bitset] the position is the entry without its flag bit. *)
Theorem phase0_sorted_by_prefix (F : flag_policy) (T : uint_type)
  (tx : text_type) (s : sa_type) :
  wf_text tx -> addressable T (t_n tx) -> flag_room F T (t_n tx) ->
  length (sa s) = length (t_text tx) ->
  exists s' groups sorted,
    sort_by_prefix_parallel F T tx s = Some (s', groups) /\
    sorted ≡ₚ zrange (length (t_text tx)) 1 /\
    StronglySorted (prefix_lt tx) sorted /\
    sa_get s' 0 = Some (t_n tx - 1) /\
    sa_get s' 1 = Some 0 /\
    length (sa s') = length (t_text tx) /\
    forall (k : nat) (p : Z), sorted !! k = Some p ->
      exists e, sa_get s' (Z.of_nat k + 2) = Some e /\
                entry_position F T e = p.
Proof.
  intros Hwf Ha Hroom Hlen.
  destruct (phase0_detail F T tx s Hwf Ha Hlen) as (st & _ & Hrun).
  destruct (sorted_positions tx Hwf) as (Hp & Hs & Hin).
  eexists _, _, _. split; [exact Hrun |].
  split; [exact Hp |]. split; [exact Hs |].
  split; [reflexivity |]. split; [reflexivity |].
  split; [simpl; now rewrite length_map, Hp, length_zrange |].
  intros k p Hk. unfold sa_get. simpl.
  destruct (Z.ltb_spec 1 (Z.of_nat k + 2)); [| lia].
  replace (Z.to_nat (Z.of_nat k + 2 - 2)) with k by lia.
  rewrite list_lookup_fmap, Hk. simpl. eexists. split; [reflexivity |].
  apply entry_position_flag_entry; [assumption | assumption |].
  apply Hin. eapply list_elem_of_lookup_2; eauto.
Qed.

Lemma phase0_sorted_by_prefix_witness :
  let tx := {| t_n := 5; t_text := [98; 97; 98] |} in
  exists s' groups sorted,
    sort_by_prefix_parallel Bitset U8 tx
      {| sa_n := 5; sa := [9; 9; 9]; sa01 := (0, 0) |} = Some (s', groups) /\
    sorted ≡ₚ [1; 2; 3] /\
    StronglySorted (prefix_lt tx) sorted.
Proof.
  cbv zeta.
  assert (Hwf : wf_text {| t_n := 5; t_text := [98; 97; 98] |}).
  { split; [reflexivity |]. split; [reflexivity |].
    repeat constructor; vm_compute; congruence. }
  assert (Ha : addressable U8 (t_n {| t_n := 5; t_text := [98; 97; 98] |}))
    by (split; vm_compute; congruence).
  assert (Hr : flag_room Bitset U8 (t_n {| t_n := 5; t_text := [98; 97; 98] |}))
    by (vm_compute; congruence).
  destruct (phase0_sorted_by_prefix Bitset U8 _
              {| sa_n := 5; sa := [9; 9; 9]; sa01 := (0, 0) |} Hwf Ha Hr eq_refl)
    as (s' & g & sorted & Hrun & Hp & Hs & _).
  exists s', g, sorted. repeat split; assumption.
Defined.

(** X19. Phase 0 never reads what the caller left in the buffer or in the
    side slots: two runs on buffers of the same capacity return the same
    array and the same groups. *)
Theorem phase0_ignores_initial_contents (F : flag_policy) (T : uint_type)
  (tx : text_type) (s1 s2 : sa_type) :
  wf_text tx -> addressable T (t_n tx) ->
  length (sa s1) = length (t_text tx) ->
  length (sa s2) = length (t_text tx) ->
  sa_n s1 = sa_n s2 ->
  sort_by_prefix_parallel F T tx s1 = sort_by_prefix_parallel F T tx s2.
Proof.
  intros Hwf Ha Hl1 Hl2 Hn.
  destruct (phase0_detail F T tx s1 Hwf Ha Hl1) as (st1 & Hst1 & ->).
  destruct (phase0_detail F T tx s2 Hwf Ha Hl2) as (st2 & Hst2 & ->).
  rewrite Hn in Hst1. rewrite Hst1 in Hst2. injection Hst2 as <-.
  now rewrite Hn.
Qed.

Lemma phase0_ignores_initial_contents_witness :
  sort_by_prefix_parallel NoFlags U32 {| t_n := 4; t_text := [7; 7] |}
    {| sa_n := 4; sa := [5; 6]; sa01 := (1, 2) |}
  = sort_by_prefix_parallel NoFlags U32 {| t_n := 4; t_text := [7; 7] |}
      {| sa_n := 4; sa := [0; 0]; sa01 := (0, 0) |}.
Proof.
  assert (Hwf : wf_text {| t_n := 4; t_text := [7; 7] |}).
  { split; [reflexivity |]. split; [reflexivity |].
    repeat constructor; vm_compute; congruence. }
  assert (Ha : addressable U32 (t_n {| t_n := 4; t_text := [7; 7] |}))
    by (split; vm_compute; congruence).
  exact (phase0_ignores_initial_contents NoFlags U32 _
           {| sa_n := 4; sa := [5; 6]; sa01 := (1, 2) |}
           {| sa_n := 4; sa := [0; 0]; sa01 := (0, 0) |}
           Hwf Ha eq_refl eq_refl eq_refl).
Defined.

(** X20. On the empty text phase 0 touches no slot of the caller's buffer,
    leaves the side slots at 1 and 0, and still returns one group, with left
    border 2 and size 1: a group for a slot the logical array of length 2
    does not have. *)
Theorem phase0_empty_text_group (F : flag_policy) (T : uint_type)
  (s : sa_type) (rest : list Z) :
  sa s = rest ->
  sort_by_prefix_parallel F T {| t_n := 2; t_text := [] |} s
  = Some ({| sa_n := sa_n s; sa := rest; sa01 := (1, 0) |},
          [{| g_left_border := 2; g_size := 1; g_rank := 1;
              g_sorted := true; g_final := false |}]) /\
  ~ tiles [{| g_left_border := 2; g_size := 1; g_rank := 1;
              g_sorted := true; g_final := false |}] 2 2.
Proof.
  intros <-. split.
  - destruct s as [n buf [a b]]. destruct F, T; reflexivity.
  - simpl. lia.
Qed.

Lemma phase0_empty_text_group_witness :
  sort_by_prefix_parallel NoFlags U32 {| t_n := 2; t_text := [] |}
    {| sa_n := 2; sa := []; sa01 := (0, 0) |}
  = Some ({| sa_n := 2; sa := []; sa01 := (1, 0) |},
          [{| g_left_border := 2; g_size := 1; g_rank := 1;
              g_sorted := true; g_final := false |}]).
Proof.
  exact (proj1 (phase0_empty_text_group NoFlags U32
                  {| sa_n := 2; sa := []; sa01 := (0, 0) |} [] eq_refl)).
Defined.

(** ** The groups of phase 0 *)

Lemma tiles_snoc (gs : list p1_group_type) (g : p1_group_type) (lo mid : Z) :
  tiles gs lo mid -> g_left_border g = mid -> 1 <= g_size g ->
  tiles (gs ++ [g]) lo (mid + g_size g).
Proof.
  revert lo. induction gs as [| h gs IH]; intros lo Ht Hg Hs; simpl in *.
  - subst. auto.
  - destruct Ht as (Hl & Hsz & Ht). split; [exact Hl |]. split; [exact Hsz |].
    now apply IH.
Qed.

Lemma tiles_le (gs : list p1_group_type) (lo hi : Z) :
  tiles gs lo hi -> lo <= hi.
Proof.
  revert lo. induction gs as [| h gs IH]; intros lo Ht; simpl in *; [lia |].
  destruct Ht as (_ & Hsz & Ht). apply IH in Ht. lia.
Qed.

Lemma tiles_group_range (gs : list p1_group_type) (lo hi : Z)
  (g : p1_group_type) :
  tiles gs lo hi -> g ∈ gs ->
  lo <= g_left_border g /\ 1 <= g_size g /\ g_left_border g + g_size g <= hi.
Proof.
  revert lo. induction gs as [| h gs IH]; intros lo Ht Hg; simpl in *.
  - apply elem_of_nil in Hg. contradiction.
  - destruct Ht as (Hl & Hsz & Ht). pose proof (tiles_le _ _ _ Ht).
    apply elem_of_cons in Hg as [-> | Hg]; [lia |].
    specialize (IH _ Ht Hg). lia.
Qed.

Lemma tiles_border_range (gs : list p1_group_type) (lo hi b : Z) :
  tiles gs lo hi -> b ∈ map g_left_border gs -> lo <= b < hi.
Proof.
  intros Ht Hb. apply list_elem_of_In, in_map_iff in Hb as (g & <- & Hg).
  apply list_elem_of_In in Hg.
  pose proof (tiles_group_range _ _ _ _ Ht Hg). lia.
Qed.

(** No group starts strictly inside another. *)
Lemma tiles_inside (gs : list p1_group_type) (lo hi : Z) (g : p1_group_type)
  (i : Z) :
  tiles gs lo hi -> g ∈ gs ->
  g_left_border g < i < g_left_border g + g_size g ->
  ~ i ∈ map g_left_border gs.
Proof.
  revert lo. induction gs as [| h gs IH]; intros lo Ht Hg Hi; simpl in *.
  - apply elem_of_nil in Hg. contradiction.
  - destruct Ht as (Hl & Hsz & Ht).
    rewrite elem_of_cons. intros [He | Hin].
    + apply elem_of_cons in Hg as [-> | Hg]; [lia |].
      pose proof (tiles_group_range _ _ _ _ Ht Hg). lia.
    + apply elem_of_cons in Hg as [-> | Hg].
      * pose proof (tiles_border_range _ _ _ _ Ht Hin). lia.
      * exact (IH _ Ht Hg Hi Hin).
Qed.

(** The symbol the group-size loop reads at logical slot [i]. *)
Lemma gsize_body_step (T : uint_type) (tx : text_type) (s : sa_type)
  (i a b : Z) (st : gsize_state) :
  wf_text tx -> 0 <= i -> i + 1 < 2 ^ count_bits T ->
  logical s !! Z.to_nat i = Some a ->
  logical s !! Z.to_nat (i + 1) = Some b ->
  0 <= a < 2 ^ 64 -> 0 <= b < 2 ^ 64 ->
  gsize_body T tx s i st
  = Some (if text_sym tx a =? text_sym tx b
          then {| left_border := left_border st;
                  gsize := wrap (count_bits T) (gsize st + 1);
                  result := result st |}
          else {| left_border := i + 1; gsize := 1;
                  result := result st
                            ++ [new_group (left_border st) (gsize st)] |}).
Proof.
  intros Hwf Hi Hc Ha Hb Hra Hrb. unfold gsize_body.
  rewrite (wrap_small (count_bits T) (i + 1)) by lia.
  rewrite !sa_get_logical by lia. rewrite Ha, Hb.
  cbn [mbind option_bind]. unfold wrap64.
  rewrite (wrap_small 64 a), (wrap_small 64 b) by assumption.
  rewrite !text_at_total by assumption. cbn [mbind option_bind].
  now destruct (text_sym tx a =? text_sym tx b).
Qed.

Lemma gsize_loop_spec (T : uint_type) (tx : text_type) (s : sa_type)
  (n : Z) (st : gsize_state) :
  wf_text tx -> Z.of_nat (length (logical s)) = n ->
  3 <= n < 2 ^ count_bits T ->
  Forall (fun v => 0 <= v < 2 ^ 64) (logical s) ->
  for_range 2 (n - 1) (gsize_body T tx s) gsize_start = Some st ->
  let sym i := text_sym tx (default 0 (logical s !! Z.to_nat i)) in
  let groups := result st ++ [new_group (left_border st) (gsize st)] in
  tiles groups 2 n /\
  Forall (fun g => g_rank g = 1 /\ g_sorted g = true /\ g_final g = false)
    groups /\
  forall b, 2 < b < n ->
    (b ∈ map g_left_border groups <-> sym (b - 1) <> sym b).
Proof.
  intros Hwf Hlen Hn Hr Hrun. cbv zeta.
  set (sym := fun i => text_sym tx (default 0 (logical s !! Z.to_nat i))).
  set (tagged := fun g => g_rank g = 1 /\ g_sorted g = true /\ g_final g = false).
  unfold for_range in Hrun.
  destruct (for_loop_invariant
              (fun j st =>
                 tiles (result st) 2 (left_border st) /\
                 2 <= left_border st <= 2 + Z.of_nat j /\
                 gsize st = 2 + Z.of_nat j - left_border st + 1 /\
                 Forall tagged (result st) /\
                 forall b, 2 < b <= 2 + Z.of_nat j ->
                   (b ∈ map g_left_border (result st) \/ b = left_border st
                    <-> sym (b - 1) <> sym b))
              (gsize_body T tx s) (Z.to_nat (n - 1 - 2)) 2 gsize_start)
    as (st' & Hrun' & Ht & Hlb & Hgs & Htag & Hbd).
  - unfold gsize_start. simpl. repeat split; try lia; try constructor.
    all: intros; lia.
  - intros j st1 Hj (Ht & Hlb & Hgs & Htag & Hbd).
    set (i := 2 + Z.of_nat j).
    destruct (lookup_lt_is_Some_2 (logical s) (Z.to_nat i) ltac:(lia))
      as [a Ha].
    destruct (lookup_lt_is_Some_2 (logical s) (Z.to_nat (i + 1)) ltac:(lia))
      as [b Hb].
    rewrite Forall_forall in Hr.
    assert (Hra : 0 <= a < 2 ^ 64)
      by (apply Hr; eapply list_elem_of_lookup_2; eauto).
    assert (Hrb : 0 <= b < 2 ^ 64)
      by (apply Hr; eapply list_elem_of_lookup_2; eauto).
    rewrite (gsize_body_step T tx s i a b st1 Hwf) by (assumption || lia).
    eexists. split; [reflexivity |].
    assert (Hsa : sym i = text_sym tx a) by (unfold sym; now rewrite Ha).
    assert (Hsb : sym (i + 1) = text_sym tx b) by (unfold sym; now rewrite Hb).
    replace (2 + Z.of_nat (Datatypes.S j)) with (i + 1) by lia.
    fold i in Hlb, Hgs, Hbd.
    destruct (Z.eqb_spec (text_sym tx a) (text_sym tx b)) as [He | Hne];
      cbn [left_border gsize result].
    + split; [exact Ht |]. split; [lia |].
      split; [rewrite wrap_small by lia; lia |]. split; [exact Htag |].
      intros c Hc. destruct (Z.eq_dec c (i + 1)) as [-> | Hne].
      * replace (i + 1 - 1) with i by lia. rewrite Hsa, Hsb.
        split; [| congruence]. intros [Hin | Heq]; [| lia].
        pose proof (tiles_border_range _ _ _ _ Ht Hin). lia.
      * apply Hbd. lia.
    + split.
      { replace (i + 1) with (left_border st1 + gsize st1) by lia.
        apply (tiles_snoc _ (new_group (left_border st1) (gsize st1)));
          [exact Ht | reflexivity | simpl; lia]. }
      split; [lia |]. split; [lia |].
      split.
      { apply Forall_app. split; [exact Htag |].
        constructor; [| constructor]. repeat split. }
      intros c Hc. rewrite map_app, elem_of_app. simpl.
      rewrite list_elem_of_singleton.
      destruct (Z.eq_dec c (i + 1)) as [-> | Hne'].
      * replace (i + 1 - 1) with i by lia. rewrite Hsa, Hsb.
        split; [congruence | auto].
      * rewrite <- (Hbd c) by lia. intuition lia.
  - rewrite Hrun in Hrun'. injection Hrun' as <-.
    replace (2 + Z.of_nat (Z.to_nat (n - 1 - 2))) with (n - 1) in * by lia.
    split; [| split].
    + replace n with (left_border st + gsize st) by lia.
      apply (tiles_snoc _ (new_group (left_border st) (gsize st)));
        [exact Ht | reflexivity | simpl; lia].
    + apply Forall_app. split; [exact Htag |].
      constructor; [| constructor]. repeat split.
    + intros b Hb. rewrite map_app, elem_of_app. simpl.
      rewrite list_elem_of_singleton. apply Hbd. lia.
Qed.

(** X18. On a non-empty text the groups phase 0 returns are the maximal
    runs of equal leading symbol in the array it leaves: they tile the slots
    of the caller's buffer from logical slot 2 to the end without gap or
    overlap, every member of a group has the leading symbol of the group's
    first member, the leading symbol strictly increases from the last
    member of a group to the first member of the next, and every group is
    tagged rank 1, sorted, not final. *)
Theorem phase0_groups_are_runs (F : flag_policy) (T : uint_type)
  (tx : text_type) (s : sa_type) :
  wf_text tx -> addressable T (t_n tx) -> flag_room F T (t_n tx) ->
  length (sa s) = length (t_text tx) -> 3 <= t_n tx ->
  exists s' groups,
    sort_by_prefix_parallel F T tx s = Some (s', groups) /\
    tiles groups 2 (t_n tx) /\
    Forall (fun g => g_rank g = 1 /\ g_sorted g = true /\ g_final g = false)
      groups /\
    forall g, g ∈ groups ->
      (forall i, g_left_border g <= i < g_left_border g + g_size g ->
                 leading_symbol F T tx s' i
                 = leading_symbol F T tx s' (g_left_border g)) /\
      (2 < g_left_border g ->
       leading_symbol F T tx s' (g_left_border g - 1)
       < leading_symbol F T tx s' (g_left_border g)).
Proof.
  intros Hwf Ha Hroom Hlen Hn3.
  destruct (phase0_detail F T tx s Hwf Ha Hlen) as (st & Hst & Hrun).
  destruct (sorted_positions tx Hwf) as (Hp & Hs & Hin).
  pose proof Hwf as (Hn & Hb & _). destruct Ha as [_ Hc].
  set (sorted := isort (comp_leb tx) (zrange (length (t_text tx)) 1)) in *.
  set (s4 := {| sa_n := sa_n s; sa := sorted; sa01 := (0, t_n tx - 1) |}) in *.
  set (s' := {| sa_n := sa_n s; sa := map (flag_entry F T tx) sorted;
                sa01 := (t_n tx - 1, 0) |}) in *.
  assert (Hsl : length sorted = length (t_text tx))
    by (rewrite Hp; apply length_zrange).
  assert (Hr4 : Forall (fun v => 0 <= v < 2 ^ 64) (logical s4)).
  { unfold logical, s4. simpl. repeat constructor; try lia.
    apply Forall_forall. intros v Hv. apply Hin in Hv. lia. }
  destruct (gsize_loop_spec T tx s4 (t_n tx) st Hwf) as (Ht & Htag & Hbd);
    [unfold logical, s4; simpl; lia | lia | exact Hr4 | exact Hst |].
  set (sym := fun i => text_sym tx (default 0 (logical s4 !! Z.to_nat i))) in *.
  assert (Hsym : forall i, 2 <= i < t_n tx ->
            exists p, sorted !! Z.to_nat (i - 2) = Some p /\
                      leading_symbol F T tx s' i = text_sym tx p /\
                      sym i = text_sym tx p).
  { intros i Hi.
    destruct (lookup_lt_is_Some_2 sorted (Z.to_nat (i - 2)) ltac:(lia))
      as [p Hpi].
    exists p. split; [exact Hpi |]. split.
    - unfold leading_symbol, sa_get, s'. simpl.
      destruct (Z.ltb_spec 1 i); [| lia].
      rewrite list_lookup_fmap, Hpi. simpl.
      rewrite entry_position_flag_entry; [reflexivity | assumption..|].
      apply Hin. eapply list_elem_of_lookup_2; eauto.
    - unfold sym, logical, s4. simpl.
      replace (Z.to_nat i) with (Datatypes.S (Datatypes.S (Z.to_nat (i - 2))))
        by lia.
      simpl. now rewrite Hpi. }
  assert (Hlead : forall i, 2 <= i < t_n tx ->
            leading_symbol F T tx s' i = sym i).
  { intros i Hi. destruct (Hsym i Hi) as (p & _ & -> & ->). reflexivity. }
  exists s', (result st ++ [new_group (left_border st) (gsize st)]).
  split; [exact Hrun |]. split; [exact Ht |]. split; [exact Htag |].
  intros g Hg.
  pose proof (tiles_group_range _ _ _ _ Ht Hg) as (Hgl & Hgs & Hgh).
  split.
  - intros i Hi.
    assert (Hk : forall k : nat, Z.of_nat k < g_size g ->
              sym (g_left_border g + Z.of_nat k) = sym (g_left_border g)).
    { induction k as [| k IH]; intros Hk.
      - f_equal. lia.
      - rewrite <- IH by lia.
        destruct (Z.eq_dec (sym (g_left_border g + Z.of_nat (Datatypes.S k) - 1))
                    (sym (g_left_border g + Z.of_nat (Datatypes.S k))))
          as [He | Hne].
        + rewrite <- He. f_equal. lia.
        + apply Hbd in Hne; [| lia].
          exfalso. eapply (tiles_inside _ _ _ g); [exact Ht | exact Hg | | exact Hne].
          lia. }
    rewrite !Hlead by lia.
    replace i with (g_left_border g + Z.of_nat (Z.to_nat (i - g_left_border g)))
      by lia.
    apply Hk. lia.
  - intros Hgt. rewrite !Hlead by lia.
    assert (Hne : sym (g_left_border g - 1) <> sym (g_left_border g)).
    { apply Hbd; [lia |]. apply list_elem_of_In, in_map.
      now apply list_elem_of_In. }
    destruct (Hsym (g_left_border g - 1) ltac:(lia)) as (p & Hpi & _ & Hsp).
    destruct (Hsym (g_left_border g) ltac:(lia)) as (q & Hqi & _ & Hsq).
    assert (Hlt : prefix_lt tx p q).
    { eapply (StronglySorted_lookup (prefix_lt tx) sorted
                (Z.to_nat (g_left_border g - 1 - 2))
                (Z.to_nat (g_left_border g - 2)));
        [exact Hs | lia | exact Hpi | exact Hqi]. }
    rewrite Hsp, Hsq in *. unfold prefix_lt in Hlt. lia.
Qed.

Lemma phase0_groups_are_runs_witness :
  let tx := {| t_n := 5; t_text := [98; 97; 98] |} in
  exists s' groups,
    sort_by_prefix_parallel NoFlags U32 tx
      {| sa_n := 5; sa := [0; 0; 0]; sa01 := (0, 0) |} = Some (s', groups) /\
    tiles groups 2 5.
Proof.
  cbv zeta.
  assert (Hwf : wf_text {| t_n := 5; t_text := [98; 97; 98] |}).
  { split; [reflexivity |]. split; [reflexivity |].
    repeat constructor; vm_compute; congruence. }
  assert (Ha : addressable U32 (t_n {| t_n := 5; t_text := [98; 97; 98] |}))
    by (split; vm_compute; congruence).
  assert (H3 : 3 <= t_n {| t_n := 5; t_text := [98; 97; 98] |})
    by (simpl; lia).
  destruct (phase0_groups_are_runs NoFlags U32 _
              {| sa_n := 5; sa := [0; 0; 0]; sa01 := (0, 0) |}
              Hwf Ha I eq_refl H3) as (s' & g & Hrun & Ht & _).
  exists s', g. split; assumption.
Defined.

(** ** An undersized buffer *)

Lemma for_loop_app {S : Type} (body : Z -> S -> option S) (a b : nat)
  (lo : Z) (s : S) :
  for_loop (a + b) lo body s
  = s' ← for_loop a lo body s; for_loop b (lo + Z.of_nat a) body s'.
Proof.
  revert lo s. induction a as [| a IH]; intros lo s.
  - simpl. now rewrite Z.add_0_r.
  - change (Datatypes.S a + b)%nat with (Datatypes.S (a + b)).
    cbn [for_loop]. destruct (body lo s) as [s1 |]; cbn [mbind option_bind];
      [| reflexivity].
    rewrite IH. do 2 f_equal. lia.
Qed.

Lemma sa_set_beyond (s : sa_type) (i v : Z) :
  Z.of_nat (length (sa s)) + 2 <= i -> sa_set s i v = None.
Proof.
  intros Hi. unfold sa_set.
  destruct (Z.ltb_spec 1 i); [| lia].
  destruct (Nat.ltb_spec (Z.to_nat (i - 2)) (length (sa s))); [lia |].
  reflexivity.
Qed.

(** X21. A caller buffer with fewer entries than the text has symbols is a
    precondition violation that phase 0 already runs into: its fill loop
    writes past the end of the buffer, so the run of [gsaca_for_lce] is an
    access outside the array, whatever the missing phases would do. *)
Theorem undersized_buffer_overrun (T : uint_type) (text buf : list Z) :
  Forall (fun c => 0 <= c < 2 ^ 64) text ->
  addressable T (Z.of_nat (length text) + 2) ->
  (length buf < length text)%nat ->
  (forall F s, sa s = buf ->
     sort_by_prefix_parallel F T
       {| t_n := Z.of_nat (length text) + 2; t_text := text |} s = None) /\
  gsaca_for_lce T text buf (Z.of_nat (length text)) = None.
Proof.
  intros Hr [Hw Hc] Hshort.
  pose proof (count_bits_le T) as Hcb.
  pose proof (bits_of_pos T) as Hbits.
  set (n := Z.of_nat (length text) + 2).
  assert (Hp0 : forall F s, sa s = buf ->
            sort_by_prefix_parallel F T {| t_n := n; t_text := text |} s = None).
  { intros F s Hbuf. unfold sort_by_prefix_parallel. cbn [t_n].
    rewrite (wrap_small (count_bits T) n) by (unfold n; lia).
    rewrite (wrap_small (count_bits T) (n - 1)) by (unfold n; lia).
    rewrite (wrap_small (bits_of T) (n - 1)) by (unfold n; lia).
    destruct (sa_set_logical s 0 0) as (s1 & Hs1 & Hl1 & Hn1);
      [lia | simpl; lia |].
    step_bind Hs1.
    destruct (sa_set_logical s1 1 (n - 1)) as (s2 & Hs2 & Hl2 & Hn2);
      [lia | rewrite Hl1; simpl; lia |].
    step_bind Hs2.
    rewrite Hl1 in Hl2. simpl in Hl2.
    destruct (logical_inv _ _ _ _ Hl2) as (_ & _ & Hbuf2).
    rewrite Hbuf in Hbuf2.
    destruct (fill_loop T s2 (length buf)) as (s3 & Hs3 & Hl3 & _);
      [now rewrite Hbuf2 | split; lia |].
    destruct (logical_inv _ _ _ _ Hl3) as (_ & _ & Hbuf3).
    unfold for_range in *.
    replace (Z.to_nat (n - 1 - 1))
      with (length buf + Datatypes.S (length text - length buf - 1))%nat
      by (unfold n; lia).
    rewrite for_loop_app.
    replace (Z.to_nat (Z.of_nat (length buf) + 1 - 1)) with (length buf)
      in Hs3 by lia.
    step_bind Hs3. cbn [for_loop].
    rewrite (wrap_small (count_bits T) (1 + Z.of_nat (length buf) + 1))
      by (unfold n in *; lia).
    rewrite (sa_set_beyond s3)
      by (rewrite Hbuf3, length_zrange; lia).
    reflexivity. }
  split; [exact Hp0 |].
  unfold gsaca_for_lce, gsaca_for_lce_wrapped, wrap64.
  rewrite !(wrap_small 64 (Z.of_nat (length text) + 2)) by lia.
  cbn [t_n]. fold n.
  rewrite (Hp0 (flag_type false)
             {| sa_n := n; sa := buf; sa01 := (0, 0) |} eq_refl).
  reflexivity.
Qed.

Lemma undersized_buffer_overrun_witness :
  gsaca_for_lce U32 [97; 98; 99] [0; 0] 3 = None.
Proof.
  assert (Hr : Forall (fun c => 0 <= c < 2 ^ 64) [97; 98; 99])
    by (repeat constructor; vm_compute; congruence).
  assert (Ha : addressable U32 (Z.of_nat (length [97; 98; 99]) + 2))
    by (split; vm_compute; congruence).
  assert (Hs : (length [0; 0] < length [97; 98; 99])%nat) by (simpl; lia).
  exact (proj2 (undersized_buffer_overrun U32 [97; 98; 99] [0; 0] Hr Ha Hs)).
Defined.

(** ** Tagging on every plain type *)

(** X22. Tagging works on every plain unsigned type, the ones narrower
    than [int] included: [add_flag] sets the top bit and keeps the bits
    below it, is idempotent, and [is_flagged] holds after it and fails on a
    value below the top bit. On the narrow types only [remove_flag] is
    affected by the promotion to [int]. *)
Theorem add_flag_all_types (T : uint_type) (t : Z) :
  in_range (bits_of T) t ->
  flag_type_bitset.add_flag T t
  = t mod 2 ^ (bits_of T - 1) + 2 ^ (bits_of T - 1) /\
  in_range (bits_of T) (flag_type_bitset.add_flag T t) /\
  flag_type_bitset.add_flag T (flag_type_bitset.add_flag T t)
  = flag_type_bitset.add_flag T t /\
  flag_type_bitset.is_flagged T (flag_type_bitset.add_flag T t) = true /\
  (t < 2 ^ (bits_of T - 1) -> flag_type_bitset.is_flagged T t = false) /\
  index_bits T (flag_type_bitset.add_flag T t) = index_bits T t.
Proof.
  intros Ht. pose proof (bits_of_pos T) as Hbits.
  assert (Hp : 0 < 2 ^ (bits_of T - 1)) by (apply Z.pow_pos_nonneg; lia).
  assert (H2 : 2 ^ bits_of T = 2 * 2 ^ (bits_of T - 1))
    by (destruct T; reflexivity).
  pose proof (Z.mod_pos_bound t (2 ^ (bits_of T - 1)) Hp) as Hm.
  pose proof (add_flag_eq T t Ht) as He.
  assert (Ha : in_range (bits_of T) (flag_type_bitset.add_flag T t))
    by (rewrite He; unfold in_range; lia).
  assert (Hmm : (t mod 2 ^ (bits_of T - 1) + 2 ^ (bits_of T - 1))
                mod 2 ^ (bits_of T - 1) = t mod 2 ^ (bits_of T - 1)).
  { rewrite <- Zplus_mod_idemp_r, Z.mod_same, Z.add_0_r, Z.mod_mod by lia.
    reflexivity. }
  split; [exact He |]. split; [exact Ha |].
  split; [| split; [| split]].
  - rewrite (add_flag_eq T _ Ha), He, Hmm. reflexivity.
  - rewrite is_flagged_spec, He by exact Ha. apply Z.leb_le. lia.
  - intros Hu. rewrite is_flagged_spec by exact Ht. apply Z.leb_gt. lia.
  - unfold index_bits. now rewrite He, Hmm.
Qed.

Lemma add_flag_all_types_witness :
  flag_type_bitset.is_flagged U8 (flag_type_bitset.add_flag U8 77) = true.
Proof.
  assert (Ht : in_range (bits_of U8) 77) by (vm_compute; split; congruence).
  destruct (add_flag_all_types U8 77 Ht) as (_ & _ & _ & Hf & _).
  exact Hf.
Defined.

(** * The construction as a whole *)

(** The groups of phase 0 refined by phases 1 and 2, and the driver. *)

(** ** The slots of a group *)

(** Reading [k] slots that lie in the caller's buffer gives its entries;
    writing them replaces exactly these entries. *)
Lemma read_slots_spec (T : uint_type) (s : sa_type) (k : nat) :
  forall (pre seg : list Z) (i : Z),
  sa s = pre ++ seg -> Z.of_nat (length pre) = i - 2 ->
  (k <= length seg)%nat ->
  read_slots T NoFlags s k i = Some (take k seg).
Proof.
  induction k as [| k IH]; intros pre seg i Hs Hi Hk; [reflexivity |].
  destruct seg as [| x seg]; [simpl in Hk; lia |].
  cbn [read_slots]. unfold sa_get. destruct (Z.ltb_spec 1 i); [| lia].
  rewrite Hs, list_lookup_middle by lia. cbn [mbind option_bind].
  rewrite (IH (pre ++ [x]) seg (i + 1)).
  - reflexivity.
  - now rewrite Hs, <- app_assoc.
  - rewrite length_app. simpl. lia.
  - simpl in Hk. lia.
Qed.

Lemma write_slots_spec (l : list Z) :
  forall (s : sa_type) (pre seg : list Z) (i : Z),
  sa s = pre ++ seg -> Z.of_nat (length pre) = i - 2 ->
  (length l <= length seg)%nat ->
  write_slots s i l
  = Some {| sa_n := sa_n s; sa := pre ++ l ++ drop (length l) seg;
            sa01 := sa01 s |}.
Proof.
  induction l as [| v l IH]; intros s pre seg i Hs Hi Hk.
  - simpl. rewrite drop_0, <- Hs. now destruct s.
  - destruct seg as [| x seg]; [simpl in Hk; lia |].
    cbn [write_slots]. unfold sa_set. destruct (Z.ltb_spec 1 i); [| lia].
    destruct (Nat.ltb_spec (Z.to_nat (i - 2)) (length (sa s))) as [Hlt | Hge].
    2:{ rewrite Hs, length_app in Hge. simpl in Hge. lia. }
    cbn [mbind option_bind].
    rewrite (IH _ (pre ++ [v]) seg (i + 1)).
    + cbn. now rewrite <- app_assoc.
    + cbn. rewrite Hs.
      replace (Z.to_nat (i - 2)) with (length pre + 0)%nat by lia.
      rewrite insert_app_r. cbn. now rewrite <- app_assoc.
    + rewrite length_app. simpl. lia.
    + simpl in Hk. lia.
Qed.

(** ** The sort of a group *)

(** Where the comparison returns, on the elements of the list, what a pure
    strict order [ltb] decides, the sort is the insertion sort by it. *)
Lemma insert_by_pure_gen (comp : Z -> Z -> option bool)
  (ltb : Z -> Z -> bool) (x : Z) (l : list Z) :
  (forall y, y ∈ l -> comp y x = Some (ltb y x)) ->
  insert_by comp x l = Some (insert_leb (fun a b => negb (ltb b a)) x l).
Proof.
  induction l as [| y l IH]; intros Hc; simpl; [reflexivity |].
  rewrite Hc by apply list_elem_of_here. cbn [mbind option_bind].
  destruct (ltb y x); simpl; [| reflexivity].
  rewrite IH; [reflexivity |]. intros z Hz. apply Hc. now apply list_elem_of_further.
Qed.

Lemma sort_by_pure_gen (comp : Z -> Z -> option bool)
  (ltb : Z -> Z -> bool) (l : list Z) :
  (forall a b, a ∈ l -> b ∈ l -> comp a b = Some (ltb a b)) ->
  sort_by comp l = Some (isort (fun a b => negb (ltb b a)) l).
Proof.
  induction l as [| x l IH]; intros Hc; simpl; [reflexivity |].
  rewrite IH by (intros a b Ha Hb; apply Hc; now apply list_elem_of_further).
  cbn [mbind option_bind]. apply insert_by_pure_gen.
  intros y Hy. rewrite isort_perm in Hy.
  apply Hc; [now apply list_elem_of_further | apply list_elem_of_here].
Qed.

Lemma isort_ext (leb1 leb2 : Z -> Z -> bool) (l : list Z) :
  (forall a b, leb1 a b = leb2 a b) -> isort leb1 l = isort leb2 l.
Proof.
  intros He. induction l as [| x l IH]; simpl; [reflexivity |].
  rewrite IH. generalize (isort leb2 l). intros r.
  induction r as [| y r IHr]; simpl; [reflexivity |].
  now rewrite He, IHr.
Qed.

(** ** The rank table *)

(** A write to the rank table changes the entry written and no other. *)
Lemma isa_set_spec (isa isa' : list (option Z)) (p v : Z) :
  isa_set isa p v = Some isa' ->
  length isa' = length isa /\ isa_get isa' p = Some v /\
  forall q, q <> p -> isa_get isa' q = isa_get isa q.
Proof.
  unfold isa_set, isa_get. intros Hs.
  destruct (Z.leb_spec 0 p); [| discriminate].
  destruct (Nat.ltb_spec (Z.to_nat p) (length isa)); [| discriminate].
  simpl in Hs. injection Hs as <-.
  split; [apply length_insert |]. split.
  - now rewrite list_lookup_insert_eq.
  - intros q Hq. destruct (Z.leb_spec 0 q); [| reflexivity].
    rewrite list_lookup_insert_ne by lia. reflexivity.
Qed.

Lemma isa_set_total (isa : list (option Z)) (p v : Z) :
  0 <= p < Z.of_nat (length isa) -> exists isa', isa_set isa p v = Some isa'.
Proof.
  intros Hp. unfold isa_set.
  destruct (Z.leb_spec 0 p); [| lia].
  destruct (Nat.ltb_spec (Z.to_nat p) (length isa)); [| lia].
  eauto.
Qed.

Lemma set_ranks_spec (T : uint_type) (members : list Z) (r : Z) :
  forall isa : list (option Z),
  (forall p, p ∈ members -> 0 <= p < Z.of_nat (length isa)) ->
  exists isa',
    set_ranks T members r isa = Some isa' /\
    length isa' = length isa /\
    (forall p, p ∈ members ->
               isa_get isa' p = Some (wrap (buffer_bits T) r)) /\
    (forall p, ~ p ∈ members -> isa_get isa' p = isa_get isa p).
Proof.
  unfold set_ranks.
  induction members as [| x members IH]; intros isa Hr.
  - exists isa. simpl. repeat split; try reflexivity.
    intros p Hp. now apply elem_of_nil in Hp.
  - destruct (isa_set_total isa x (wrap (buffer_bits T) r)) as [isa1 H1];
      [apply Hr, list_elem_of_here |].
    destruct (isa_set_spec _ _ _ _ H1) as (Hlen1 & Hx1 & Ho1).
    destruct (IH isa1) as (isa' & Hrun & Hlen & Hin & Hout).
    { intros p Hp. rewrite Hlen1. apply Hr. now apply list_elem_of_further. }
    exists isa'. cbn [fold_opt]. rewrite H1. cbn [mbind option_bind].
    split; [exact Hrun |]. split; [congruence |]. split.
    + intros p Hp. destruct (decide (p ∈ members)) as [Hm | Hm]; [auto |].
      apply elem_of_cons in Hp as [-> | Hp]; [| contradiction].
      now rewrite Hout.
    + intros p Hp. rewrite not_elem_of_cons in Hp. destruct Hp as [Hne Hm].
      rewrite Hout by assumption. now apply Ho1.
Qed.

(** The ranks the groups give their members follow the leading symbols. *)
Lemma init_groups_spec (T : uint_type) (tx : text_type) (s : sa_type)
  (gs : list p1_group_type) :
  forall (lo : Z) (pre seg : list Z) (isa : list (option Z)),
  runs tx gs lo seg -> NoDup seg ->
  sa s = pre ++ seg -> Z.of_nat (length pre) = lo - 2 ->
  (forall x, x ∈ seg -> 0 <= x < Z.of_nat (length isa)) ->
  lo + Z.of_nat (length seg) <= 2 ^ buffer_bits T -> 2 <= lo ->
  exists isa',
    fold_opt (fun isa g =>
                members ← read_slots T NoFlags s (Z.to_nat (g_size g))
                            (g_left_border g);
                set_ranks T members (g_left_border g) isa) gs isa
    = Some isa' /\
    length isa' = length isa /\
    (forall p, ~ p ∈ seg -> isa_get isa' p = isa_get isa p) /\
    (forall x, x ∈ seg ->
       exists r, isa_get isa' x = Some r /\
                 lo <= r < lo + Z.of_nat (length seg)) /\
    (forall x y rx ry, x ∈ seg -> y ∈ seg ->
       isa_get isa' x = Some rx -> isa_get isa' y = Some ry ->
       (rx < ry <-> text_sym tx x < text_sym tx y) /\
       (rx = ry <-> text_sym tx x = text_sym tx y)).
Proof.
  induction gs as [| g gs IH]; intros lo pre seg isa Hr Hnd Hs Hpre Hin Hb Hlo.
  - simpl in Hr. subst seg. exists isa. simpl.
    repeat split; try reflexivity;
      intros; exfalso; eapply elem_of_nil; eauto.
  - simpl in Hr. destruct Hr as (Hl & Hk1 & Hk & Huni & Hcross & Hrest).
    set (k := Z.to_nat (g_size g)) in *.
    assert (Htd : seg = take k seg ++ drop k seg) by (now rewrite take_drop).
    assert (Hnd' : NoDup (take k seg ++ drop k seg)) by (now rewrite <- Htd).
    apply NoDup_app in Hnd' as (_ & Hdisj & Hndd).
    assert (Hmem : forall x, x ∈ seg <-> x ∈ take k seg \/ x ∈ drop k seg).
    { intros x. rewrite Htd at 1. apply elem_of_app. }
    cbn [fold_opt]. fold k.
    rewrite (read_slots_spec T s k pre seg (g_left_border g))
      by (assumption || lia).
    cbn [mbind option_bind].
    destruct (set_ranks_spec T (take k seg) (g_left_border g) isa)
      as (isa1 & Hrun1 & Hlen1 & Hin1 & Hout1).
    { intros p Hp. apply Hin, Hmem. now left. }
    rewrite Hrun1. cbn [mbind option_bind].
    pose proof (length_drop seg k) as Hld.
    pose proof (length_take_le seg k Hk) as Hlt.
    destruct (IH (lo + g_size g) (pre ++ take k seg) (drop k seg) isa1)
      as (isa' & Hrun & Hlen & Hout & Hrk & Hord).
    { exact Hrest. } { exact Hndd. }
    { now rewrite <- app_assoc, take_drop. }
    { rewrite length_app. lia. }
    { intros x Hx. rewrite Hlen1. apply Hin, Hmem. now right. }
    { lia. } { lia. }
    assert (Hw : wrap (buffer_bits T) (g_left_border g) = lo).
    { rewrite Hl. apply wrap_small. lia. }
    assert (Hfst : forall x, x ∈ take k seg -> isa_get isa' x = Some lo).
    { intros x Hx. rewrite Hout by (now apply Hdisj).
      rewrite <- Hw. now apply Hin1. }
    exists isa'. split; [exact Hrun |]. split; [congruence |].
    split; [| split].
    + intros p Hp. rewrite Hmem in Hp.
      rewrite Hout by tauto. apply Hout1. tauto.
    + intros x Hx. apply Hmem in Hx as [Hx | Hx].
      * exists lo. split; [now apply Hfst | lia].
      * destruct (Hrk x Hx) as (r & Hr & Hrr). exists r. split; [exact Hr | lia].
    + intros x y rx ry Hx Hy Hrx Hry.
      apply Hmem in Hx as [Hx | Hx], Hy as [Hy | Hy].
      * rewrite (Hfst x Hx) in Hrx. rewrite (Hfst y Hy) in Hry.
        injection Hrx as <-. injection Hry as <-.
        pose proof (Huni x y Hx Hy). lia.
      * rewrite (Hfst x Hx) in Hrx. injection Hrx as <-.
        destruct (Hrk y Hy) as (r & Hr & Hrr).
        rewrite Hr in Hry. injection Hry as <-.
        pose proof (Hcross x y Hx Hy). lia.
      * rewrite (Hfst y Hy) in Hry. injection Hry as <-.
        destruct (Hrk x Hx) as (r & Hr & Hrr).
        rewrite Hr in Hrx. injection Hrx as <-.
        pose proof (Hcross y x Hy Hx). lia.
      * now apply Hord.
Qed.

(** ** The groups of phase 0 as runs *)

(** In the order phase 0 leaves, the leading symbols ascend; with groups
    that tile the slots and start exactly where the leading symbol changes,
    the groups are the runs of equal leading symbol. *)
Lemma prefix_sorted_symbols (tx : text_type) (l : list Z) (i j : nat)
  (x y : Z) :
  StronglySorted (prefix_lt tx) l -> (i <= j)%nat ->
  l !! i = Some x -> l !! j = Some y -> text_sym tx x <= text_sym tx y.
Proof.
  intros Hs Hij Hx Hy.
  destruct (Nat.eq_dec i j) as [-> | Hne].
  - rewrite Hx in Hy. injection Hy as <-. lia.
  - assert (Hlt : prefix_lt tx x y)
      by (eapply (StronglySorted_lookup _ l i j); eauto; lia).
    unfold prefix_lt in Hlt. lia.
Qed.

Lemma runs_of_tiles (tx : text_type) (l : list Z) (n : Z)
  (groups : list p1_group_type) :
  Z.of_nat (length l) = n - 2 ->
  StronglySorted (prefix_lt tx) l ->
  tiles groups 2 n ->
  (forall b, 2 < b < n ->
     (b ∈ map g_left_border groups <->
      text_sym tx (default 0 (l !! Z.to_nat (b - 1 - 2)))
      <> text_sym tx (default 0 (l !! Z.to_nat (b - 2))))) ->
  forall (gs : list p1_group_type) (lo : Z),
    tiles gs lo n -> 2 <= lo -> (forall g, g ∈ gs -> g ∈ groups) ->
    runs tx gs lo (drop (Z.to_nat (lo - 2)) l).
Proof.
  intros Hlen Hs Ht Hbd.
  set (sym := fun i => text_sym tx (default 0 (l !! Z.to_nat (i - 2)))).
  assert (Hsym : forall i x, 2 <= i -> l !! Z.to_nat (i - 2) = Some x ->
                             text_sym tx x = sym i).
  { intros i x Hi Hx. unfold sym. now rewrite Hx. }
  assert (Hmono : forall i j, 2 <= i <= j -> j < n -> sym i <= sym j).
  { intros i j Hij Hj.
    destruct (lookup_lt_is_Some_2 l (Z.to_nat (i - 2)) ltac:(lia)) as [x Hx].
    destruct (lookup_lt_is_Some_2 l (Z.to_nat (j - 2)) ltac:(lia)) as [y Hy].
    rewrite <- (Hsym i x), <- (Hsym j y) by (assumption || lia).
    eapply (prefix_sorted_symbols tx l); [exact Hs | | exact Hx | exact Hy].
    lia. }
  induction gs as [| g gs IH]; intros lo Htl Hlo Hsub.
  - simpl in *. apply drop_ge. lia.
  - simpl in Htl. destruct Htl as (Hl & Hk1 & Htl).
    pose proof (tiles_le _ _ _ Htl) as Hle.
    assert (Hg : g ∈ groups) by (apply Hsub, list_elem_of_here).
    set (a := Z.to_nat (lo - 2)). set (k := Z.to_nat (g_size g)).
    assert (Huni : forall i : nat, Z.of_nat i < g_size g ->
              sym (lo + Z.of_nat i) = sym lo).
    { induction i as [| i IHi]; intros Hi.
      - f_equal. lia.
      - rewrite <- IHi by lia.
        destruct (Z.eq_dec (sym (lo + Z.of_nat (S i) - 1))
                    (sym (lo + Z.of_nat (S i)))) as [He | Hne].
        + rewrite <- He. f_equal. lia.
        + exfalso. unfold sym in Hne.
          apply (Hbd (lo + Z.of_nat (S i))) in Hne; [| lia].
          eapply (tiles_inside _ _ _ g); [exact Ht | exact Hg | | exact Hne].
          lia. }
    assert (Htake : forall x, x ∈ take k (drop a l) ->
              exists i, lo <= i < lo + g_size g /\ text_sym tx x = sym i).
    { intros x Hx. apply elem_of_take in Hx as (i & Hx & Hi).
      rewrite lookup_drop in Hx.
      exists (lo + Z.of_nat i). split; [lia |].
      apply Hsym; [lia |].
      replace (Z.to_nat (lo + Z.of_nat i - 2)) with (a + i)%nat by lia.
      exact Hx. }
    assert (Hdrop : forall y, y ∈ drop k (drop a l) ->
              exists j, lo + g_size g <= j < n /\ text_sym tx y = sym j).
    { intros y Hy. apply list_elem_of_lookup in Hy as (j & Hy).
      rewrite !lookup_drop in Hy.
      pose proof (lookup_lt_Some _ _ _ Hy).
      exists (lo + g_size g + Z.of_nat j). split; [lia |].
      apply Hsym; [lia |].
      replace (Z.to_nat (lo + g_size g + Z.of_nat j - 2))
        with (a + (k + j))%nat by lia.
      exact Hy. }
    simpl. fold k.
    split; [exact Hl |]. split; [exact Hk1 |].
    split; [rewrite length_drop; lia |].
    split; [| split].
    + intros x y Hx Hy.
      destruct (Htake x Hx) as (i & Hi & ->).
      destruct (Htake y Hy) as (j & Hj & ->).
      replace i with (lo + Z.of_nat (Z.to_nat (i - lo))) by lia.
      replace j with (lo + Z.of_nat (Z.to_nat (j - lo))) by lia.
      rewrite !Huni by lia. reflexivity.
    + intros x y Hx Hy.
      destruct (Htake x Hx) as (i & Hi & ->).
      destruct (Hdrop y Hy) as (j & Hj & ->).
      destruct gs as [| g' gs]; [simpl in Htl; lia |].
      simpl in Htl. destruct Htl as (Hl' & _).
      assert (Hg' : g' ∈ groups)
        by (apply Hsub, list_elem_of_further, list_elem_of_here).
      assert (Hne : sym (lo + g_size g - 1) <> sym (lo + g_size g)).
      { unfold sym. apply Hbd; [lia |]. rewrite <- Hl'.
        apply list_elem_of_In, in_map. now apply list_elem_of_In. }
      pose proof (Hmono i (lo + g_size g - 1) ltac:(lia) ltac:(lia)).
      pose proof (Hmono (lo + g_size g - 1) (lo + g_size g) ltac:(lia)
                    ltac:(lia)).
      pose proof (Hmono (lo + g_size g) j ltac:(lia) ltac:(lia)).
      lia.
    + rewrite drop_drop.
      replace (a + k)%nat with (Z.to_nat (lo + g_size g - 2)) by lia.
      apply IH; [exact Htl | lia |].
      intros h Hh. apply Hsub. now apply list_elem_of_further.
Qed.

(** ** The induced order is the suffix order *)

Lemma view_suffix_cons (tx : text_type) (p : Z) :
  p < t_n tx ->
  view_suffix tx p = text_sym tx p :: view_suffix tx (p + 1).
Proof.
  intros Hp. unfold view_suffix.
  replace (Z.to_nat (t_n tx - p)) with (S (Z.to_nat (t_n tx - (p + 1))))
    by lia.
  reflexivity.
Qed.

Lemma text_sym_pos (tx : text_type) (i : Z) :
  wf_text tx -> 0 < i < t_n tx - 1 -> 1 <= text_sym tx i.
Proof.
  intros Hwf Hi. pose proof Hwf as (Hn & Hb & Hr).
  destruct (lookup_lt_is_Some_2 (t_text tx) (Z.to_nat (i - 1)) ltac:(lia))
    as [c Hc].
  rewrite (text_sym_interior tx i c) by (assumption || lia).
  rewrite Forall_forall in Hr.
  assert (0 <= c < 2 ^ 64) by (apply Hr; eapply list_elem_of_lookup_2; eauto).
  lia.
Qed.

Lemma suffix_leb_refl (tx : text_type) (p : Z) : suffix_leb tx p p = true.
Proof. destruct (suffix_leb_total tx p p); assumption. Qed.

Lemma suffix_leb_cons (tx : text_type) (p q : Z) :
  p < t_n tx -> q < t_n tx ->
  suffix_leb tx p q
  = (text_sym tx p <? text_sym tx q)
    || ((text_sym tx p =? text_sym tx q) && suffix_leb tx (p + 1) (q + 1)).
Proof.
  intros Hp Hq. unfold suffix_leb.
  now rewrite (view_suffix_cons tx p), (view_suffix_cons tx q) by assumption.
Qed.

(** With a rank table whose ranks follow the leading symbols, the induced
    order of two positions with the same leading symbol is the order of
    their suffixes, and [t_n] steps suffice to decide it. *)
Lemma induced_ltb_spec (tx : text_type) (isa : list (option Z)) :
  wf_text tx ->
  (forall x y, 0 < x <= t_n tx - 1 -> 0 < y <= t_n tx - 1 ->
     exists rx ry,
       isa_get isa x = Some rx /\ isa_get isa y = Some ry /\
       (rx < ry <-> text_sym tx x < text_sym tx y) /\
       (rx = ry <-> text_sym tx x = text_sym tx y)) ->
  forall (fuel : nat) (p q : Z),
    0 < p < t_n tx - 1 -> 0 < q < t_n tx - 1 ->
    text_sym tx p = text_sym tx q ->
    t_n tx - 1 - Z.max p q <= Z.of_nat fuel ->
    induced_ltb isa fuel p q = Some (suffix_ltb tx p q).
Proof.
  intros Hwf Hrk. induction fuel as [| fuel IH]; intros p q Hp Hq Hs Hf.
  - lia.
  - cbn [induced_ltb].
    destruct (Z.eqb_spec p q) as [-> | Hne].
    { unfold suffix_ltb. now rewrite suffix_leb_refl. }
    destruct (Hrk (p + 1) (q + 1) ltac:(lia) ltac:(lia))
      as (rp & rq & Hgp & Hgq & Hlt & Heq).
    rewrite Hgp, Hgq. cbn [mbind option_bind].
    unfold suffix_ltb.
    rewrite (suffix_leb_cons tx q p) by lia.
    rewrite Hs, Z.ltb_irrefl, Z.eqb_refl. cbn [orb andb].
    assert (Hc := suffix_leb_cons tx (q + 1) (p + 1) ltac:(lia) ltac:(lia)).
    destruct (Z.ltb_spec rp rq) as [H1 | H1].
    + apply Hlt in H1. rewrite Hc.
      destruct (Z.ltb_spec (text_sym tx (q + 1)) (text_sym tx (p + 1)));
        [lia |].
      destruct (Z.eqb_spec (text_sym tx (q + 1)) (text_sym tx (p + 1)));
        [lia |].
      reflexivity.
    + destruct (Z.ltb_spec rq rp) as [H2 | H2].
      * assert (H3 : text_sym tx (q + 1) < text_sym tx (p + 1)).
        { destruct (Hrk (q + 1) (p + 1) ltac:(lia) ltac:(lia))
            as (rq' & rp' & Hq' & Hp' & Hlt' & _).
          apply Hlt'. rewrite Hgp in Hp'. rewrite Hgq in Hq'.
          injection Hp' as <-. injection Hq' as <-. exact H2. }
        rewrite Hc.
        destruct (Z.ltb_spec (text_sym tx (q + 1)) (text_sym tx (p + 1)));
          [reflexivity | lia].
      * assert (He : text_sym tx (p + 1) = text_sym tx (q + 1))
          by (apply Heq; lia).
        assert (Hint : p + 1 < t_n tx - 1 /\ q + 1 < t_n tx - 1).
        { destruct (Z.eq_dec (p + 1) (t_n tx - 1)) as [Hpe | Hpe].
          - rewrite Hpe, text_sym_boundary in He by (auto; lia).
            pose proof (text_sym_pos tx (q + 1) Hwf ltac:(lia)). lia.
          - destruct (Z.eq_dec (q + 1) (t_n tx - 1)) as [Hqe | Hqe]; [| lia].
            rewrite Hqe, (text_sym_boundary tx (t_n tx - 1)) in He
              by (auto; lia).
            pose proof (text_sym_pos tx (p + 1) Hwf ltac:(lia)). lia. }
        rewrite IH by lia. reflexivity.
Qed.

(** ** Every group resolved in its own slots *)

(** Resolving the groups one after the other sorts the members of each by
    suffix order and leaves every group in its slots. *)
Lemma resolve_groups_spec (T : uint_type) (tx : text_type)
  (isa : list (option Z)) (gs : list p1_group_type) :
  (forall p q, 0 < p < t_n tx - 1 -> 0 < q < t_n tx - 1 ->
     text_sym tx p = text_sym tx q ->
     induced_ltb isa (Z.to_nat (t_n tx)) p q = Some (suffix_ltb tx p q)) ->
  forall (lo : Z) (s : sa_type) (pre seg : list Z),
    runs tx gs lo seg ->
    sa s = pre ++ seg -> Z.of_nat (length pre) = lo - 2 -> 2 <= lo ->
    sa_n s = t_n tx ->
    (forall x, x ∈ seg -> 0 < x < t_n tx - 1) ->
    exists s',
      fold_opt (resolve_group T NoFlags isa) gs s = Some s' /\
      sa s' = pre ++ sort_chunks (suffix_leb tx) gs seg /\
      sa01 s' = sa01 s /\ sa_n s' = sa_n s.
Proof.
  intros Hcmp.
  induction gs as [| g gs IH]; intros lo s pre seg Hr Hs Hpre Hlo Hn Hin.
  - exists s. simpl. simpl in Hr. subst seg. auto.
  - simpl in Hr. destruct Hr as (Hl & Hk1 & Hk & Huni & _ & Hrest).
    set (k := Z.to_nat (g_size g)) in *.
    assert (Hsub : forall x, x ∈ take k seg -> x ∈ seg).
    { intros x Hx. rewrite <- (take_drop k seg). apply elem_of_app. now left. }
    set (chunk := isort (suffix_leb tx) (take k seg)).
    assert (Hlc : length chunk = k).
    { unfold chunk. rewrite (Permutation_length (isort_perm _ _)).
      now apply length_take_le. }
    assert (Hhead : resolve_group T NoFlags isa s g
                    = Some {| sa_n := sa_n s; sa := pre ++ chunk ++ drop k seg;
                              sa01 := sa01 s |}).
    { unfold resolve_group. fold k.
      rewrite (read_slots_spec T s k pre seg (g_left_border g))
        by (assumption || lia).
      cbn [mbind option_bind]. rewrite Hn.
      rewrite (sort_by_pure_gen _ (suffix_ltb tx))
        by (intros a b Ha Hb; apply Hcmp; auto).
      cbn [mbind option_bind].
      rewrite (isort_ext _ (suffix_leb tx))
        by (intros a b; unfold suffix_ltb; apply negb_involutive).
      fold chunk.
      rewrite (write_slots_spec chunk s pre seg (g_left_border g))
        by (assumption || lia).
      now rewrite Hlc, Hn. }
    cbn [fold_opt]. rewrite Hhead. cbn [mbind option_bind].
    destruct (IH (lo + g_size g)
                {| sa_n := sa_n s; sa := pre ++ chunk ++ drop k seg;
                   sa01 := sa01 s |} (pre ++ chunk) (drop k seg))
      as (s' & Hrun & Hsa & H01 & Hn').
    { exact Hrest. }
    { simpl. now rewrite <- app_assoc. }
    { rewrite length_app. lia. }
    { lia. }
    { exact Hn. }
    { intros x Hx. apply Hin. rewrite <- (take_drop k seg).
      apply elem_of_app. now right. }
    exists s'. split; [exact Hrun |].
    split; [| split; assumption].
    rewrite Hsa. simpl. fold k. fold chunk. now rewrite <- app_assoc.
Qed.

Lemma sort_chunks_perm (leb : Z -> Z -> bool) (gs : list p1_group_type) :
  forall seg, sort_chunks leb gs seg ≡ₚ seg.
Proof.
  induction gs as [| g gs IH]; intros seg; simpl; [reflexivity |].
  rewrite isort_perm, IH. now rewrite take_drop.
Qed.

Lemma StronglySorted_app_2 {A : Type} (R : A -> A -> Prop) (l1 l2 : list A) :
  StronglySorted R l1 -> StronglySorted R l2 ->
  (forall x y, x ∈ l1 -> y ∈ l2 -> R x y) ->
  StronglySorted R (l1 ++ l2).
Proof.
  intros H1 H2 Hc. induction H1 as [| x l1 H1 IH Hx]; simpl; [exact H2 |].
  constructor.
  - apply IH. intros a b Ha Hb. apply Hc; [now apply list_elem_of_further | exact Hb].
  - apply Forall_app. split; [exact Hx |].
    apply Forall_forall. intros y Hy. apply Hc; [apply list_elem_of_here | exact Hy].
Qed.

(** On runs of equal leading symbol, sorting inside the runs sorts the
    whole: a member of an earlier run has the smaller leading symbol. *)
Lemma sort_chunks_sorted (tx : text_type) (gs : list p1_group_type) :
  forall (lo : Z) (seg : list Z),
    runs tx gs lo seg ->
    (forall x, x ∈ seg -> x < t_n tx) ->
    StronglySorted (fun a b => suffix_leb tx a b = true)
      (sort_chunks (suffix_leb tx) gs seg).
Proof.
  induction gs as [| g gs IH]; intros lo seg Hr Hin.
  - simpl in *. subst. constructor.
  - simpl in Hr. destruct Hr as (Hl & Hk1 & Hk & _ & Hcross & Hrest).
    simpl. set (k := Z.to_nat (g_size g)) in *.
    assert (Hmem : forall x, x ∈ seg <-> x ∈ take k seg \/ x ∈ drop k seg).
    { intros x. rewrite <- (take_drop k seg) at 1. apply elem_of_app. }
    apply StronglySorted_app_2.
    + apply isort_sorted; [apply suffix_leb_total | apply suffix_leb_trans].
    + apply (IH _ _ Hrest). intros x Hx. apply Hin, Hmem. now right.
    + intros x y Hx Hy. rewrite isort_perm in Hx.
      rewrite sort_chunks_perm in Hy.
      pose proof (Hcross x y Hx Hy) as Hlt.
      rewrite suffix_leb_cons
        by (apply Hin, Hmem; tauto).
      destruct (Z.ltb_spec (text_sym tx x) (text_sym tx y)); [reflexivity | lia].
Qed.

(** ** Phases 1 and 2 on the array and the groups of phase 0 *)

(** On the array phase 0 leaves, with groups that are the runs of equal
    leading symbol, phases 1 and 2 return, every access in range, and
    leave each group sorted by suffix order. *)
Lemma phase_1_2_spec (T : uint_type) (tx : text_type) (s : sa_type)
  (groups : list p1_group_type) :
  wf_text tx -> 3 <= t_n tx <= 2 ^ buffer_bits T ->
  sa s ≡ₚ zrange (length (t_text tx)) 1 ->
  sa01 s = (t_n tx - 1, 0) -> sa_n s = t_n tx ->
  runs tx groups 2 (sa s) ->
  exists s',
    phase_1_2 T NoFlags s (replicate (Z.to_nat (t_n tx)) None) groups
    = Some s' /\
    sa s' = sort_chunks (suffix_leb tx) groups (sa s) /\
    sa01 s' = sa01 s /\ sa_n s' = sa_n s.
Proof.
  intros Hwf Hn3 Hp H01 Hsn Hr. pose proof Hwf as (Hn & Hb & _).
  assert (Hin : forall x, x ∈ sa s <-> 0 < x < t_n tx - 1).
  { intros x. rewrite Hp, elem_of_zrange. lia. }
  assert (Hls : Z.of_nat (length (sa s)) = t_n tx - 2).
  { rewrite (Permutation_length Hp), length_zrange. lia. }
  assert (Hnd : NoDup (sa s)) by (rewrite Hp; apply NoDup_zrange).
  unfold phase_1_2, init_ranks.
  unfold sa_get at 1 2. rewrite H01.
  change (1 <? 0) with false. change (1 <? 1) with false.
  change (0 =? 0) with true. change (1 =? 0) with false.
  unfold F_remove_flag, flag_type_none.remove_flag.
  cbn [mbind option_bind fst snd].
  set (isa0 := replicate (Z.to_nat (t_n tx)) None : list (option Z)).
  assert (Hl0 : length isa0 = Z.to_nat (t_n tx)) by apply length_replicate.
  destruct (set_ranks_spec T [t_n tx - 1] 0 isa0)
    as (isa1 & Hrun1 & Hl1 & Hin1 & _).
  { intros p Hp'. apply list_elem_of_singleton in Hp'. lia. }
  rewrite Hrun1. cbn [mbind option_bind].
  destruct (set_ranks_spec T [0] 1 isa1) as (isa2 & Hrun2 & Hl2 & _ & Hout2).
  { intros p Hp'. apply list_elem_of_singleton in Hp'. lia. }
  rewrite Hrun2. cbn [mbind option_bind].
  destruct (init_groups_spec T tx s groups 2 [] (sa s) isa2)
    as (isa3 & Hrun3 & Hl3 & Hout3 & Hrk3 & Hord3);
    [exact Hr | exact Hnd | reflexivity | simpl; lia | | lia | lia |].
  { intros x Hx. apply Hin in Hx. lia. }
  rewrite Hrun3. cbn [mbind option_bind].
  assert (Hlast : isa_get isa3 (t_n tx - 1) = Some 0).
  { rewrite Hout3 by (rewrite Hin; lia).
    rewrite Hout2 by (rewrite list_elem_of_singleton; lia).
    rewrite Hin1 by apply list_elem_of_here.
    reflexivity. }
  assert (Hs0 : text_sym tx (t_n tx - 1) = 0)
    by (apply text_sym_boundary; auto; lia).
  assert (Hrk : forall x y, 0 < x <= t_n tx - 1 -> 0 < y <= t_n tx - 1 ->
            exists rx ry,
              isa_get isa3 x = Some rx /\ isa_get isa3 y = Some ry /\
              (rx < ry <-> text_sym tx x < text_sym tx y) /\
              (rx = ry <-> text_sym tx x = text_sym tx y)).
  { intros x y Hx Hy.
    destruct (Z.eq_dec x (t_n tx - 1)) as [-> | Hxi],
             (Z.eq_dec y (t_n tx - 1)) as [-> | Hyi].
    - exists 0, 0. repeat split; auto; lia.
    - destruct (Hrk3 y ltac:(apply Hin; lia)) as (ry & Hry & Hrr).
      pose proof (text_sym_pos tx y Hwf ltac:(lia)).
      exists 0, ry. rewrite Hs0. repeat split; auto; lia.
    - destruct (Hrk3 x ltac:(apply Hin; lia)) as (rx & Hrx & Hrr).
      pose proof (text_sym_pos tx x Hwf ltac:(lia)).
      exists rx, 0. rewrite Hs0. repeat split; auto; lia.
    - destruct (Hrk3 x ltac:(apply Hin; lia)) as (rx & Hrx & _).
      destruct (Hrk3 y ltac:(apply Hin; lia)) as (ry & Hry & _).
      exists rx, ry. split; [exact Hrx |]. split; [exact Hry |].
      apply Hord3; auto; apply Hin; lia. }
  destruct (resolve_groups_spec T tx isa3 groups) with
    (lo := 2) (s := s) (pre := @nil Z) (seg := sa s)
    as (s' & Hrun & Hsa & H01' & Hn');
    [| exact Hr | reflexivity | simpl; lia | lia | exact Hsn | | ].
  - intros p q Hp' Hq' Hs. apply (induced_ltb_spec tx isa3 Hwf Hrk); auto. lia.
  - intros x Hx. now apply Hin.
  - exists s'. split; [exact Hrun |]. split; [exact Hsa |].
    split; [congruence | exact Hn'].
Qed.

(** ** The driver on a non-empty text *)

(** What phase 0 hands to phase 1 under [gsaca_for_lce]: the interior
    positions ordered by leading symbol, and groups that are the runs of
    equal leading symbol. *)
Lemma phase0_runs (T : uint_type) (tx : text_type) (s : sa_type) :
  wf_text tx -> addressable T (t_n tx) ->
  length (sa s) = length (t_text tx) -> 3 <= t_n tx ->
  let sorted := isort (comp_leb tx) (zrange (length (t_text tx)) 1) in
  exists groups,
    sort_by_prefix_parallel NoFlags T tx s
    = Some ({| sa_n := sa_n s; sa := sorted; sa01 := (t_n tx - 1, 0) |},
            groups) /\
    runs tx groups 2 sorted.
Proof.
  intros Hwf Ha Hlen Hn3. cbv zeta.
  destruct (phase0_detail NoFlags T tx s Hwf Ha Hlen) as (st & Hst & Hrun).
  destruct (sorted_positions tx Hwf) as (Hp & Hs & Hin).
  pose proof Hwf as (Hn & Hb & _). destruct Ha as [_ Hc].
  set (sorted := isort (comp_leb tx) (zrange (length (t_text tx)) 1)) in *.
  set (s4 := {| sa_n := sa_n s; sa := sorted; sa01 := (0, t_n tx - 1) |}) in *.
  rewrite flag_entry_none in Hrun.
  assert (Hsl : length sorted = length (t_text tx))
    by (rewrite Hp; apply length_zrange).
  assert (Hr4 : Forall (fun v => 0 <= v < 2 ^ 64) (logical s4)).
  { unfold logical, s4. simpl. repeat constructor; try lia.
    apply Forall_forall. intros v Hv. apply Hin in Hv. lia. }
  destruct (gsize_loop_spec T tx s4 (t_n tx) st Hwf) as (Ht & _ & Hbd);
    [unfold logical, s4; simpl; lia | lia | exact Hr4 | exact Hst |].
  eexists. split; [exact Hrun |].
  change sorted with (drop (Z.to_nat (2 - 2)) sorted).
  eapply (runs_of_tiles tx sorted (t_n tx)); try eassumption; try lia.
  - intros b Hb'. rewrite (Hbd b Hb'). unfold logical, s4. simpl.
    replace (Z.to_nat (b - 1))
      with (S (S (Z.to_nat (b - 1 - 2)))) by lia.
    replace (Z.to_nat b) with (S (S (Z.to_nat (b - 2)))) by lia.
    reflexivity.
  - auto.
Qed.

(** The outcome of [gsaca_for_lce] on a non-empty text: the interior
    positions in ascending suffix order, shifted to positions of the
    caller's text. *)
Lemma gsaca_for_lce_spec (T : uint_type) (text buf : list Z) :
  Forall (fun c => 0 <= c < 2 ^ 64) text ->
  length buf = length text -> (1 <= length text)%nat ->
  addressable T (Z.of_nat (length text) + 2) ->
  Z.of_nat (length text) + 2 <= 2 ^ buffer_bits T ->
  let tx := {| t_n := Z.of_nat (length text) + 2; t_text := text |} in
  wf_text tx /\
  exists sorted,
    sorted ≡ₚ zrange (length text) 1 /\
    StronglySorted (fun a b => suffix_leb tx a b = true) sorted /\
    gsaca_for_lce T text buf (Z.of_nat (length text))
    = Some (map (fun p => p - 1) sorted).
Proof.
  intros Hr Hlen Hne Ha Hbb. cbv zeta.
  pose proof (count_bits_le T) as Hcb.
  pose proof Ha as [Hw Hc].
  set (tx := {| t_n := Z.of_nat (length text) + 2; t_text := text |}).
  assert (Hwf : wf_text tx) by (repeat split; simpl; try lia; exact Hr).
  split; [exact Hwf |].
  unfold gsaca_for_lce, gsaca_for_lce_wrapped, wrap64.
  rewrite !(wrap_small 64 (Z.of_nat (length text) + 2)) by lia.
  fold tx. simpl flag_type.
  destruct (phase0_runs T tx
              {| sa_n := Z.of_nat (length text) + 2; sa := buf; sa01 := (0, 0) |}
              Hwf Ha Hlen ltac:(simpl; lia)) as (groups & Hrun & Hruns).
  destruct (sorted_positions tx Hwf) as (Hp & _ & Hin).
  set (sorted := isort (comp_leb tx) (zrange (length (t_text tx)) 1)) in *.
  cbn [sa_n] in Hrun. step_bind Hrun.
  set (s1 := {| sa_n := Z.of_nat (length text) + 2; sa := sorted;
                sa01 := (t_n tx - 1, 0) |}).
  destruct (phase_1_2_spec T tx s1 groups Hwf ltac:(simpl; lia) Hp eq_refl
              eq_refl Hruns) as (s2 & Hs2 & Hsa2 & H012 & Hn2).
  cbn [sa sa01 sa_n s1] in Hsa2, H012, Hn2.
  change (t_n tx) with (Z.of_nat (length text) + 2) in *.
  rewrite (wrap_small 64 (Z.of_nat (length text) + 2)) by lia.
  step_bind Hs2.
  set (final := sort_chunks (suffix_leb tx) groups sorted) in *.
  assert (Hfp : final ≡ₚ zrange (length text) 1)
    by (unfold final; now rewrite sort_chunks_perm).
  assert (Hl2 : logical s2 = (Z.of_nat (length text) + 2 - 1) :: 0 :: final)
    by (unfold logical; now rewrite H012, Hsa2).
  assert (Hlen2 : length (logical s2) = Z.to_nat (Z.of_nat (length text) + 2)).
  { rewrite Hl2. simpl. rewrite Hfp, length_zrange. lia. }
  unfold for_range. rewrite Z.sub_0_r, <- Hlen2.
  destruct (map_loop (fun v => wrap (bits_of T) (v - 1)) s2)
    as (s3 & Hs3 & Hl3 & Hn3).
  unfold map_body in Hs3. unfold decrement_body.
  step_bind Hs3.
  exists final. split; [exact Hfp |]. split.
  - apply (sort_chunks_sorted tx groups 2 sorted Hruns).
    intros x Hx. apply Hin in Hx. simpl. lia.
  - f_equal. rewrite Hl2 in Hl3. simpl in Hl3.
    destruct (logical_inv _ _ _ _ Hl3) as (_ & _ & ->).
    apply map_ext_in. intros p Hpin. apply wrap_small.
    apply list_elem_of_In in Hpin. rewrite Hfp in Hpin.
    apply elem_of_zrange in Hpin. lia.
Qed.

(** ** Claims on [gsaca_for_lce] *)




(** On every non-empty text with a buffer of matching capacity
    [gsaca_for_lce] returns, no access having left the text, the buffer or
    the rank table. *)
Lemma construct_returns_nonempty (T : uint_type) (text buf : list Z) :
  Forall (fun c => 0 <= c < 2 ^ 64) text ->
  length buf = length text -> (1 <= length text)%nat ->
  addressable T (Z.of_nat (length text) + 2) ->
  Z.of_nat (length text) + 2 <= 2 ^ buffer_bits T ->
  exists out,
    gsaca_for_lce T text buf (Z.of_nat (length text)) = Some out /\
    length out = length text.
Proof.
  intros Hr Hlen Hne Ha Hbb.
  destruct (gsaca_for_lce_spec T text buf Hr Hlen Hne Ha Hbb)
    as (_ & sorted & Hp & _ & Hrun).
  eexists. split; [exact Hrun |].
  now rewrite length_map, Hp, length_zrange.
Qed.



